(** * Prediction-market intelligence backend: a shallow embedding

    The development follows the backend sources:
    - [aggregator.js]        (module [Aggregator]): normalisation of venue
      frames into quotes, the microstructure cache, the confidence score;
    - [supabaseClient.js]    (module [BatchWriter]): the batching queue;
    - [arbitrage_hunter.js]  (module [Hunter]): the arbitrage scan;
    - [agent.js]             (module [Classifier]): post-processing and
      storage of classified pairs;
    - [scenario_engine.js], [api.js] (module [Scenario]): graph traversal,
      direction propagation and the scenario endpoint;
    - the current probability of a market as [scenario_engine.js], [api.js]
      and [agent.js] compute it (module [Prices]);
    - link counts and hubs of [agent.js], [api.js] and the graph-data
      function (module [Hubs]); the pool of workers of [agent.js] (module
      [Pool]);
    - the scenario function of the frontend and the listener of the
      dashboard (module [EdgeFunction]).

    JavaScript numbers are modelled by [JsNum.num]: exact rationals
    extended with the three IEEE special values, so that division by zero
    and the propagation of NaN through [Math.min]/[Math.max] and the
    comparisons are those of the language.  Rounding to binary64, overflow
    and the sign of zero are outside the model. *)

From Stdlib Require Import QArith Qabs Qround Qminmax Lqa ZArith Lia List Bool Ascii String Sorted.
From stdpp Require Import gmap strings list.

Open Scope Q_scope.

(* ===================================================================== *)
(** ** JavaScript numbers *)
(* ===================================================================== *)

Module JsNum.

Inductive num : Type :=
  | NaN
  | NInf
  | Fin (q : Q)
  | PInf.

Definition Qltb (x y : Q) : bool :=
  match x ?= y with Lt => true | _ => false end.

Definition neg (a : num) : num :=
  match a with
  | NaN => NaN
  | NInf => PInf
  | PInf => NInf
  | Fin x => Fin (- x)
  end.

Definition add (a b : num) : num :=
  match a, b with
  | NaN, _ | _, NaN => NaN
  | PInf, NInf | NInf, PInf => NaN
  | PInf, _ | _, PInf => PInf
  | NInf, _ | _, NInf => NInf
  | Fin x, Fin y => Fin (x + y)
  end.

Definition sub (a b : num) : num := add a (neg b).

(** The infinity of the sign of [x], NaN for [x = 0]. *)
Definition signed_inf (x : Q) (pos : bool) : num :=
  match x ?= 0 with
  | Eq => NaN
  | Gt => if pos then PInf else NInf
  | Lt => if pos then NInf else PInf
  end.

Definition mul (a b : num) : num :=
  match a, b with
  | NaN, _ | _, NaN => NaN
  | Fin x, Fin y => Fin (x * y)
  | Fin x, PInf | PInf, Fin x => signed_inf x true
  | Fin x, NInf | NInf, Fin x => signed_inf x false
  | PInf, PInf | NInf, NInf => PInf
  | PInf, NInf | NInf, PInf => NInf
  end.

(** Division; a zero divisor is the positive zero. *)
Definition div (a b : num) : num :=
  match a, b with
  | NaN, _ | _, NaN => NaN
  | Fin x, Fin y =>
      if Qeq_bool y 0 then signed_inf x true else Fin (x / y)
  | Fin _, _ => Fin 0
  | PInf, Fin y => if Qltb y 0 then NInf else PInf
  | NInf, Fin y => if Qltb y 0 then PInf else NInf
  | _, _ => NaN
  end.

(** [a < b]; false as soon as one side is NaN. *)
Definition ltb (a b : num) : bool :=
  match a, b with
  | NaN, _ | _, NaN => false
  | Fin x, Fin y => Qltb x y
  | NInf, NInf => false
  | NInf, _ => true
  | _, NInf => false
  | PInf, _ => false
  | _, PInf => true
  end.

Definition gtb (a b : num) : bool := ltb b a.

Definition isNaN (a : num) : bool :=
  match a with NaN => true | _ => false end.

(** [a <= b] and [a >= b]. *)
Definition leb (a b : num) : bool :=
  negb (isNaN a) && negb (isNaN b) && negb (ltb b a).

Definition geb (a b : num) : bool := leb b a.

(** [Math.min] and [Math.max] return NaN when an argument is NaN. *)
Definition Math_min (a b : num) : num :=
  match a, b with
  | NaN, _ | _, NaN => NaN
  | _, _ => if ltb b a then b else a
  end.

Definition Math_max (a b : num) : num :=
  match a, b with
  | NaN, _ | _, NaN => NaN
  | _, _ => if ltb a b then b else a
  end.

Definition Math_abs (a : num) : num :=
  match a with
  | NaN => NaN
  | NInf | PInf => PInf
  | Fin x => Fin (Qabs x)
  end.

(** [Math.round]: the nearest integer, halves towards +infinity. *)
Definition Math_round (a : num) : num :=
  match a with
  | Fin x => Fin (inject_Z (Qfloor (x + (1 # 2))))
  | other => other
  end.

(** Truthiness of a number: 0 and NaN are falsy. *)
Definition truthy (a : num) : bool :=
  match a with
  | NaN => false
  | Fin x => negb (Qeq_bool x 0)
  | _ => true
  end.

(** [parseFloat] of a field: NaN when the field is absent ([undefined] or
    [null]), otherwise the number read from its value. *)
Definition parseFloat (v : option num) : num :=
  match v with
  | Some n => n
  | None => NaN
  end.

(** Equality of numbers up to the representation of the rational. *)
Definition num_eq (a b : num) : Prop :=
  match a, b with
  | NaN, NaN | NInf, NInf | PInf, PInf => True
  | Fin x, Fin y => x == y
  | _, _ => False
  end.

Definition finite (a : num) : Prop :=
  match a with Fin _ => True | _ => False end.

(** [parseFloat(a.toFixed(d))]: [a] rounded to [d] decimals, halves away
    from zero; a magnitude of 10^21 and more is printed in full. *)
Definition pow10 (d : nat) : Q := inject_Z (10 ^ Z.of_nat d).

Definition toFixed_value (d : nat) (a : num) : num :=
  match a with
  | Fin x =>
      if Qle_bool (pow10 21) (Qabs x) then Fin x
      else
        let n := Qfloor (Qabs x * pow10 d + (1 # 2)) in
        let m := Qred (inject_Z n / pow10 d) in
        Fin (if Qltb x 0 then - m else m)
  | other => other
  end.

End JsNum.

(* ===================================================================== *)
(** ** JavaScript strings *)
(* ===================================================================== *)

Module JsText.

(** [String.prototype.toLowerCase] on ASCII letters. *)
Definition lower_ascii (c : ascii) : ascii :=
  let n := nat_of_ascii c in
  if ((65 <=? n) && (n <=? 90))%nat then ascii_of_nat (n + 32) else c.

Fixpoint toLowerCase (s : string) : string :=
  match s with
  | EmptyString => EmptyString
  | String c r => String (lower_ascii c) (toLowerCase r)
  end.

(** The text of one double quote, and of one line feed. *)
Definition dquote : string := String (ascii_of_nat 34) EmptyString.
Definition newline : string := String (ascii_of_nat 10) EmptyString.

Definition is_space (c : ascii) : bool :=
  let n := nat_of_ascii c in ((n =? 32) || ((9 <=? n) && (n <=? 13)))%nat.

Fixpoint trim_start (s : string) : string :=
  match s with
  | String c r => if is_space c then trim_start r else s
  | EmptyString => EmptyString
  end.

Fixpoint trim_end (s : string) : string :=
  match s with
  | EmptyString => EmptyString
  | String c r =>
      match trim_end r with
      | EmptyString => if is_space c then EmptyString else String c EmptyString
      | r' => String c r'
      end
  end.

(** [String.prototype.trim] on ASCII white space. *)
Definition trim (s : string) : string := trim_end (trim_start s).

End JsText.

(* ===================================================================== *)
(** ** aggregator.js: normalisation of venue frames *)
(* ===================================================================== *)

Module Aggregator.
Import JsNum JsText.

(** The normalised record pushed to the batch queue.  The fields [id],
    [timestamp], [proposition_name] and [raw_payload] (a fresh uuid, the
    clock, display text and the frame itself) are left out. *)
Record Quote : Type := mkQuote {
  platform : string;
  event_id : string;
  price : num;
  side : string;
  size : num;
  liquidity_score : num;
  probability_pct : num;
  liquidity_depth_usd : num;
  bid_ask_spread_pct : option num;
  volume_24h : option num;
  confidence_flag : option string
}.

(** An entry of [marketStateCache].  Both venues write to the same map, each
    with its own shape. *)
Inductive CacheEntry : Type :=
  | PolyState (depth bestBid bestAsk : num)
  | KalshiState (yesBid yesAsk spread volume : num).

Definition state_depth (s : option CacheEntry) : option num :=
  match s with Some (PolyState d _ _) => Some d | _ => None end.
Definition state_bestBid (s : option CacheEntry) : option num :=
  match s with Some (PolyState _ b _) => Some b | _ => None end.
Definition state_bestAsk (s : option CacheEntry) : option num :=
  match s with Some (PolyState _ _ a) => Some a | _ => None end.
Definition state_yesBid (s : option CacheEntry) : option num :=
  match s with Some (KalshiState b _ _ _) => Some b | _ => None end.
Definition state_yesAsk (s : option CacheEntry) : option num :=
  match s with Some (KalshiState _ a _ _) => Some a | _ => None end.
Definition state_spread (s : option CacheEntry) : option num :=
  match s with Some (KalshiState _ _ sp _) => Some sp | _ => None end.
Definition state_volume (s : option CacheEntry) : option num :=
  match s with Some (KalshiState _ _ _ v) => Some v | _ => None end.

(** [x ?? d] *)
Definition nullish {A : Type} (x : option A) (d : A) : A :=
  match x with Some v => v | None => d end.

(** Truthiness of an optional number ([undefined] is falsy). *)
Definition truthy_opt (x : option num) : bool :=
  match x with Some n => truthy n | None => false end.

(** A numeric field of a frame, as [parseFloat] reads it: absent
    ([undefined] or [null]), or present with the number read from its
    value: a finite number for a JSON number or numeric text, NaN for a
    value that is not numeric text (the empty text, a word, a boolean), an
    infinity for the text Infinity or for a literal beyond the range of the
    doubles. *)
Definition Field : Type := option num.

(** A field that is absent or holds a finite number. *)
Definition finite_field (x : Field) : Prop :=
  match x with Some (Fin _) | None => True | Some _ => False end.

Definition LOW_CONFIDENCE : string := "LOW_CONFIDENCE".

(** Invariants of the cache while the frames carry finite numbers: the best
    bid and ask of a book are numbers or NaN, never infinite; a ticker
    entry holds finite numbers and a spread that is not negative. *)
Definition no_infinity (a : num) : Prop :=
  match a with PInf | NInf => False | _ => True end.

Definition entry_ok (e : CacheEntry) : Prop :=
  match e with
  | PolyState _ b a => no_infinity b /\ no_infinity a
  | KalshiState yb ya sp _ =>
      finite yb /\ finite ya /\ exists s, sp = Fin s /\ 0 <= s
  end.

Definition cache_ok (cache : gmap string CacheEntry) : Prop :=
  forall k e, cache !! k = Some e -> entry_ok e.

(** The spread of a record of the ticker venue: unknown, or a number that
    is not negative. *)
Definition spread_known_nonneg (sp : option num) : Prop :=
  sp = None \/ exists t, sp = Some (Fin t) /\ 0 <= t.

Definition kalshi_ok (q : Quote) : Prop :=
  liquidity_depth_usd q = Fin 0 /\ spread_known_nonneg (bid_ask_spread_pct q).

Section WithLog10.

(** [Math.log10] on a finite positive argument. *)
Variable log10 : Q -> Q.

Definition Math_log10 (a : num) : num :=
  match a with
  | NaN | NInf => NaN
  | PInf => PInf
  | Fin x => if Qltb 0 x then Fin (log10 x)
             else if Qeq_bool x 0 then NInf else NaN
  end.

Definition normProb (raw : option num) : num :=
  let n := parseFloat raw in
  if isNaN n then Fin 0
  else if gtb n (Fin 1) then Math_min (div n (Fin 100)) (Fin 1)
  else Math_max (Fin 0) (Math_min n (Fin 1)).

Definition calculateUnifiedConfidence (depth : num) (spreadPct : option num) : num :=
  let depthScore :=
    if gtb depth (Fin 0)
    then Math_min (mul (Math_log10 depth) (Fin 10)) (Fin 60)
    else Fin 0 in
  let spreadScore :=
    match spreadPct with
    | Some s => Math_max (Fin 0) (sub (Fin 40) (mul s (Fin 2)))
    | None => Fin 20
    end in
  Math_round (Math_min (Math_max (add depthScore spreadScore) (Fin 0)) (Fin 100)).

(** The two components of the score as the specification words them. *)
Definition depth_component (depth : num) : num :=
  if gtb depth (Fin 0) then Math_min (mul (Math_log10 depth) (Fin 10)) (Fin 60)
  else Fin 0.

Definition spread_component (spread_pct : option num) : num :=
  match spread_pct with
  | Some s => Math_max (Fin 0) (sub (Fin 40) (mul s (Fin 2)))
  | None => Fin 20
  end.

Definition flag_of (liquidity_score : num) : option string :=
  if ltb liquidity_score (Fin 50) then Some LOW_CONFIDENCE else None.

(** A ladder level, given as [{price, size}] or as [[price, size]]. *)
Record Level : Type := mkLevel { lv_price : Field; lv_size : Field }.

Definition getPrice (e : Level) : num := parseFloat (lv_price e).
Definition getSize (e : Level) : num := parseFloat (lv_size e).

Definition sum_levels (l : list Level) : num :=
  fold_left (fun sum e => add sum (mul (getPrice e) (getSize e))) l (Fin 0).

Definition computePolymarketBookDepth (bids asks : list Level) (mid : num) : num :=
  if negb (truthy mid) then Fin 0
  else if (Nat.eqb (length bids) 0 && Nat.eqb (length asks) 0)%bool then Fin 0
  else
    let lowerBound := mul mid (Fin (49 # 50)) in
    let upperBound := mul mid (Fin (51 # 50)) in
    let bidDepth := sum_levels (filter (fun e => geb (getPrice e) lowerBound) bids) in
    let askDepth := sum_levels (filter (fun e => leb (getPrice e) upperBound) asks) in
    add bidDepth askDepth.

(** A frame of the order-book venue. *)
Record PolyMsg : Type := mkPolyMsg {
  pm_event_type : option string;
  pm_type : option string;
  pm_asset_id : option string;
  pm_market : option string;
  pm_best_bid : Field;
  pm_best_ask : Field;
  pm_price : Field;
  pm_size : Field;
  pm_side : option string;
  pm_bids : list Level;
  pm_asks : list Level
}.

(** A frame of the ticker venue ([data.type] and the fields of
    [data.msg ?? data]). *)
Record KalshiMsg : Type := mkKalshiMsg {
  km_type : option string;
  km_market_ticker : option string;
  km_taker_side : option string;
  km_yes_price : Field;
  km_no_price : Field;
  km_count : Field;
  km_yes_bid : Field;
  km_yes_ask : Field;
  km_volume : Field
}.

Definition cache_get (cache : gmap string CacheEntry) (key : option string)
  : option CacheEntry :=
  match key with Some k => cache !! k | None => None end.

Definition or_else (a b : option string) : option string :=
  match a with Some _ => a | None => b end.

Definition normalizePolymarketTrade (cache : gmap string CacheEntry) (msg : PolyMsg) : Quote :=
  let bid := parseFloat (Some (nullish (pm_best_bid msg) (Fin 0))) in
  let ask := parseFloat (Some (nullish (pm_best_ask msg) (Fin 0))) in
  let mid := if truthy bid && truthy ask then div (add bid ask) (Fin 2) else Fin 0 in
  let price := normProb (if truthy mid then Some mid else pm_price msg) in
  let state := cache_get cache (or_else (pm_asset_id msg) (pm_market msg)) in
  let liquidity_depth_usd := nullish (state_depth state) (Fin 0) in
  let cachedBid := nullish (state_bestBid state) (Fin 0) in
  let cachedAsk := nullish (state_bestAsk state) (Fin 0) in
  let bid_ask_spread_pct :=
    if truthy cachedBid && truthy cachedAsk
    then Some (mul (div (sub cachedAsk cachedBid)
                        (div (add cachedAsk cachedBid) (Fin 2))) (Fin 100))
    else None in
  let liquidity_score := calculateUnifiedConfidence liquidity_depth_usd bid_ask_spread_pct in
  let confidence_flag := flag_of liquidity_score in
  {| platform := "polymarket";
     event_id := nullish (or_else (pm_asset_id msg) (pm_market msg)) "unknown";
     price := price;
     side := if String.eqb (toLowerCase (nullish (pm_side msg) "BUY")) "buy"
             then "buy" else "sell";
     size := parseFloat (Some (nullish (pm_size msg) (Fin 0)));
     liquidity_score := liquidity_score;
     probability_pct := mul price (Fin 100);
     liquidity_depth_usd := liquidity_depth_usd;
     bid_ask_spread_pct := bid_ask_spread_pct;
     volume_24h := None;
     confidence_flag := confidence_flag |}.

Definition normalizeKalshiTrade (cache : gmap string CacheEntry) (msg : KalshiMsg) : Quote :=
  let takerSide := toLowerCase (nullish (km_taker_side msg) "yes") in
  let rawPrice := if String.eqb takerSide "yes" then km_yes_price msg else km_no_price msg in
  let ticker := nullish (km_market_ticker msg) "unknown" in
  let state := cache !! ticker in
  let cachedMid :=
    if truthy_opt (state_yesBid state) && truthy_opt (state_yesAsk state)
    then div (add (nullish (state_yesBid state) NaN) (nullish (state_yesAsk state) NaN)) (Fin 2)
    else Fin 0 in
  let bid_ask_spread_pct :=
    match state_spread state with
    | Some sp => if gtb cachedMid (Fin 0)
                 then Some (mul (div sp cachedMid) (Fin 100)) else None
    | None => None
    end in
  let volume_24h := state_volume state in
  let liquidity_score := calculateUnifiedConfidence (Fin 0) bid_ask_spread_pct in
  let confidence_flag := flag_of liquidity_score in
  {| platform := "kalshi";
     event_id := ticker;
     price := normProb rawPrice;
     side := "buy";
     size := parseFloat (Some (nullish (km_count msg) (Fin 0)));
     liquidity_score := liquidity_score;
     probability_pct := mul (normProb rawPrice) (Fin 100);
     liquidity_depth_usd := Fin 0;
     bid_ask_spread_pct := bid_ask_spread_pct;
     volume_24h := volume_24h;
     confidence_flag := confidence_flag |}.

(** The ticker normaliser also overwrites the cache entry of the ticker. *)
Definition normalizeKalshiTicker (cache : gmap string CacheEntry) (msg : KalshiMsg)
  : gmap string CacheEntry * Quote :=
  let yesBid := parseFloat (Some (nullish (km_yes_bid msg) (Fin 0))) in
  let yesAsk := parseFloat (Some (nullish (km_yes_ask msg) (Fin 0))) in
  let mid :=
    if truthy yesBid && truthy yesAsk then div (add yesBid yesAsk) (Fin 2)
    else if truthy yesBid then yesBid else yesAsk in
  let spread := Math_max (sub yesAsk yesBid) (Fin 0) in
  let volume := parseFloat (Some (nullish (km_volume msg) (Fin 0))) in
  let bid_ask_spread_pct :=
    if gtb mid (Fin 0) then Some (mul (div spread mid) (Fin 100)) else None in
  let ticker := nullish (km_market_ticker msg) "unknown" in
  let cache' := <[ticker := KalshiState yesBid yesAsk spread volume]> cache in
  let liquidity_score := calculateUnifiedConfidence (Fin 0) bid_ask_spread_pct in
  let confidence_flag := flag_of liquidity_score in
  (cache',
   {| platform := "kalshi";
      event_id := ticker;
      price := normProb (Some mid);
      side := "buy";
      size := volume;
      liquidity_score := liquidity_score;
      probability_pct := mul (normProb (Some mid)) (Fin 100);
      liquidity_depth_usd := Fin 0;
      bid_ask_spread_pct := bid_ask_spread_pct;
      volume_24h := Some volume;
      confidence_flag := confidence_flag |}).

Definition str_in (s : option string) (l : list string) : bool :=
  match s with Some x => existsb (String.eqb x) l | None => false end.

Definition truthy_str (s : option string) : bool :=
  match s with Some EmptyString | None => false | Some _ => true end.

(** The body of the [for (const msg of messages)] loop of the order-book
    connector: the new cache and the records enqueued. *)
Definition polymarketOnMessage (cache : gmap string CacheEntry) (msg : PolyMsg)
  : gmap string CacheEntry * list Quote :=
  let eventType := or_else (pm_event_type msg) (pm_type msg) in
  if str_in eventType ["trade"; "last_trade_price"; "price_change"; "best_bid_ask"]
  then
    let record := normalizePolymarketTrade cache msg in
    (cache, if gtb (price record) (Fin 0) then [record] else [])
  else if str_in eventType ["book"; "book_snapshot"]
  then
    let bids := pm_bids msg in
    let asks := pm_asks msg in
    let bestBid := match bids with e :: _ => getPrice e | [] => Fin 0 end in
    let bestAsk := match asks with e :: _ => getPrice e | [] => Fin 0 end in
    let mid := if truthy bestBid && truthy bestAsk
               then div (add bestBid bestAsk) (Fin 2) else Fin 0 in
    let depth := computePolymarketBookDepth bids asks mid in
    let assetId := or_else (pm_asset_id msg) (pm_market msg) in
    (if truthy_str assetId
     then <[nullish assetId "" := PolyState depth bestBid bestAsk]> cache
     else cache, [])
  else (cache, []).

(** The message handler of the ticker connector. *)
Definition kalshiOnMessage (cache : gmap string CacheEntry) (data : KalshiMsg)
  : gmap string CacheEntry * list Quote :=
  if str_in (km_type data) ["trade"]
  then
    let record := normalizeKalshiTrade cache data in
    (cache, if gtb (size record) (Fin 0) || gtb (price record) (Fin 0)
            then [record] else [])
  else if str_in (km_type data) ["ticker"]
  then
    let '(cache', record) := normalizeKalshiTicker cache data in
    (cache', [record])
  else (cache, []).

Inductive Frame : Type :=
  | FromPolymarket (msg : PolyMsg)
  | FromKalshi (data : KalshiMsg).

Definition onFrame (cache : gmap string CacheEntry) (f : Frame)
  : gmap string CacheEntry * list Quote :=
  match f with
  | FromPolymarket msg => polymarketOnMessage cache msg
  | FromKalshi data => kalshiOnMessage cache data
  end.

(** The aggregator run over the frames received, in their order of arrival:
    the final cache and every record enqueued. *)
Fixpoint run_from (cache : gmap string CacheEntry) (frames : list Frame)
  : gmap string CacheEntry * list Quote :=
  match frames with
  | [] => (cache, [])
  | f :: rest =>
      let '(cache', out) := onFrame cache f in
      let '(cache'', outs) := run_from cache' rest in
      (cache'', out ++ outs)
  end.

Definition emitted (frames : list Frame) : list Quote :=
  snd (run_from ∅ frames).

(** The cache after the frames received. *)
Definition cache_after (frames : list Frame) : gmap string CacheEntry :=
  fst (run_from ∅ frames).

(** What the records of both venues have in common, whatever the frames
    carry. *)
Definition quote_ok (q : Quote) : Prop :=
  (exists p, price q = Fin p /\ 0 <= p <= 1)
  /\ probability_pct q = mul (price q) (Fin 100)
  /\ liquidity_score q =
       calculateUnifiedConfidence (liquidity_depth_usd q) (bid_ask_spread_pct q)
  /\ confidence_flag q = flag_of (liquidity_score q).

(** What holds of every record enqueued while the frames carry finite
    numbers. *)
Definition record_ok (q : Quote) : Prop :=
  quote_ok q
  /\ bid_ask_spread_pct q <> Some NaN
  /\ (platform q = "kalshi" -> kalshi_ok q).

(** A frame whose numeric fields, those of the levels of its ladders
    included, are absent or hold finite numbers. *)
Definition level_finite (e : Level) : Prop :=
  finite_field (lv_price e) /\ finite_field (lv_size e).

Definition frame_finite (f : Frame) : Prop :=
  match f with
  | FromPolymarket msg =>
      finite_field (pm_best_bid msg) /\ finite_field (pm_best_ask msg)
      /\ finite_field (pm_price msg) /\ finite_field (pm_size msg)
      /\ Forall level_finite (pm_bids msg) /\ Forall level_finite (pm_asks msg)
  | FromKalshi data =>
      finite_field (km_yes_price data) /\ finite_field (km_no_price data)
      /\ finite_field (km_count data) /\ finite_field (km_yes_bid data)
      /\ finite_field (km_yes_ask data) /\ finite_field (km_volume data)
  end.

End WithLog10.

(** An integer stand-in for [Math.log10], used to run examples: the number
    of decimal digits of the integer part, minus one. *)
Fixpoint digits_below (fuel : nat) (x : Z) : Z :=
  match fuel with
  | O => 0
  | S k => if (x <? 10)%Z then 0%Z else (1 + digits_below k (x / 10))%Z
  end.

Definition log10_floor (x : Q) : Q :=
  inject_Z (digits_below 400 (Qfloor x)).

(** Sample frames: a trade, a book snapshot and a second trade on asset X of
    the order-book venue, then a ticker and a trade on ticker T. *)
Definition sample_frames : list Frame :=
  [ FromPolymarket
      (mkPolyMsg (Some "trade") None (Some "X") None None None
                 (Some (Fin (64 # 100))) (Some (Fin 10)) (Some "BUY") [] []);
    FromPolymarket
      (mkPolyMsg (Some "book") None (Some "X") None None None None None None
                 [mkLevel (Some (Fin (63 # 100))) (Some (Fin 100))]
                 [mkLevel (Some (Fin (65 # 100))) (Some (Fin 100))]);
    FromPolymarket
      (mkPolyMsg (Some "trade") None (Some "X") None None None
                 (Some (Fin (66 # 100))) (Some (Fin 5)) (Some "SELL") [] []);
    FromKalshi
      (mkKalshiMsg (Some "ticker") (Some "T") None None None None
                   (Some (Fin 63)) (Some (Fin 65)) (Some (Fin 5000))) ].

Definition sample_trade : KalshiMsg :=
  mkKalshiMsg (Some "trade") (Some "T") (Some "no") (Some (Fin 65)) (Some (Fin 35))
              (Some (Fin 10)) None None None.

(** A ticker whose [yes_bid] is text that is not a number (the empty text,
    say), so that [parseFloat] reads NaN, with a [yes_ask] of 50 cents. *)
Definition text_bid_ticker : KalshiMsg :=
  mkKalshiMsg (Some "ticker") (Some "T") None None None None
              (Some NaN) (Some (Fin 50)) None.

Definition sample_quote : Quote :=
  normalizeKalshiTrade log10_floor (cache_after log10_floor sample_frames) sample_trade.

(** *** The records and the table they go to *)

(** A field that is absent or holds a number that is not below 0. *)
Definition not_negative (x : Field) : Prop :=
  match x with Some v => ltb v (Fin 0) = false | None => True end.

(** The size, the count and the volume of a frame are not negative. *)
Definition frame_sizes_ok (f : Frame) : Prop :=
  match f with
  | FromPolymarket msg => not_negative (pm_size msg)
  | FromKalshi data => not_negative (km_count data) /\ not_negative (km_volume data)
  end.

(** The CHECK constraints of the table [market_signals] (schema.sql), on
    [platform], [price], [side], [size] and [liquidity_score]. *)
Definition passes_checks (q : Quote) : Prop :=
  (platform q = "kalshi" \/ platform q = "polymarket")
  /\ (exists p, price q = Fin p /\ 0 <= p <= 1)
  /\ (side q = "buy" \/ side q = "sell")
  /\ (exists s, size q = Fin s /\ 0 <= s)
  /\ (exists l, liquidity_score q = Fin l /\ 0 <= l).

(** Both sides of a ticker are quoted: [yes_bid] and [yes_ask] are present
    and not zero. *)
Definition two_sided (data : KalshiMsg) : bool :=
  truthy_opt (km_yes_bid data) && truthy_opt (km_yes_ask data).

(** *** The value of a book *)

(** A ladder level that carries its price and its size, both finite
    numbers. *)
Definition complete (e : Level) : Prop :=
  (exists p, lv_price e = Some (Fin p)) /\ (exists s, lv_size e = Some (Fin s)).

Definition level_price (e : Level) : Q :=
  match lv_price e with Some (Fin p) => p | _ => 0 end.

Definition level_size (e : Level) : Q :=
  match lv_size e with Some (Fin s) => s | _ => 0 end.

Definition not_negative_level (e : Level) : Prop :=
  0 <= level_price e /\ 0 <= level_size e.

(** The value of the levels of a ladder: the sum of price times size. *)
Definition ladder_value (l : list Level) : Q :=
  fold_right (fun e acc => level_price e * level_size e + acc) 0 l.

(** The value of a book within 2% of the mid price: the bids priced at 98%
    of it or more, the asks priced at 102% of it or less. *)
Definition value_near (bids asks : list Level) (mid : Q) : Q :=
  ladder_value (filter (fun e => Qle_bool (mid * (49 # 50)) (level_price e)) bids)
  + ladder_value (filter (fun e => Qle_bool (level_price e) (mid * (51 # 50))) asks).

(** The score for a depth component [d] and a spread [s], over the
    rationals. *)
Definition score_of (d s : Q) : Z :=
  Qfloor (Qmin (Qmax (d + Qmax 0 (40 - 2 * s)) 0) 100 + (1 # 2)).

(** *** Reconnection *)

Section Backoff.

(** [RECONNECT_BASE_DELAY] and [RECONNECT_MAX_DELAY], in milliseconds (1000
    and 30000 unless the environment says otherwise). *)
Variable RECONNECT_BASE_DELAY RECONNECT_MAX_DELAY : Q.

(** [nextDelay]; the value of [Math.random()] is the argument [random]. *)
Definition nextDelay (random : Q) (attempt : nat) : num :=
  let jitter := mul (Fin random) (Fin 500) in
  Math_min (add (mul (Fin RECONNECT_BASE_DELAY) (Fin (inject_Z (2 ^ Z.of_nat attempt))))
                jitter)
           (Fin RECONNECT_MAX_DELAY).

(** One pass of the loop of a connector: the socket is opened or not (the
    handler of [open] puts the counter back to 0), it closes, and the delay
    before the next pass is [nextDelay(attempt++)]. *)
Definition reconnect (attempt : nat) (opened : bool) (random : Q) : num * nat :=
  let attempt := if opened then 0%nat else attempt in
  (nextDelay random attempt, S attempt).

(** The delays of a sequence of passes, from the counter [attempt]. *)
Fixpoint connector (attempt : nat) (passes : list (bool * Q)) : list num :=
  match passes with
  | [] => []
  | (opened, random) :: rest =>
      let '(delay, attempt') := reconnect attempt opened random in
      delay :: connector attempt' rest
  end.

End Backoff.

(** More sample data: the first trade of [sample_frames] and the record
    made of it, its book snapshot, and the ticker of T. *)
Definition sample_poly_trade : PolyMsg :=
  mkPolyMsg (Some "trade") None (Some "X") None None None
            (Some (Fin (64 # 100))) (Some (Fin 10)) (Some "BUY") [] [].

Definition sample_poly_quote : Quote :=
  normalizePolymarketTrade log10_floor ∅ sample_poly_trade.

Definition sample_book : PolyMsg :=
  mkPolyMsg (Some "book") None (Some "X") None None None None None None
            [mkLevel (Some (Fin (63 # 100))) (Some (Fin 100))]
            [mkLevel (Some (Fin (65 # 100))) (Some (Fin 100))].

Definition sample_ticker : KalshiMsg :=
  mkKalshiMsg (Some "ticker") (Some "T") None None None None
              (Some (Fin 63)) (Some (Fin 65)) (Some (Fin 5000)).

End Aggregator.

(* ===================================================================== *)
(** ** supabaseClient.js: the batching queue *)
(* ===================================================================== *)

Module BatchWriter.

(** How an insert call of [flush] ends: the store accepts the batch, the
    store answers with an error, or the call throws. *)
Inductive Outcome : Type := Inserted | ErrorResult | Thrown.

(** The inserter: the pending queue, the batches whose insert call has not
    returned yet, and the two counters. *)
Record State (A : Type) : Type := mkState {
  queue : list A;
  inflight : list (list A);
  totalInserted : nat;
  totalErrors : nat
}.
Arguments mkState {A}.
Arguments queue {A}.
Arguments inflight {A}.
Arguments totalInserted {A}.
Arguments totalErrors {A}.

Definition init {A : Type} : State A := mkState [] [] 0%nat 0%nat.

(** The synchronous part of [flush]: the whole queue is spliced out and
    sent as one insert call. *)
Definition flush_begin {A : Type} (st : State A) : State A :=
  match queue st with
  | [] => st
  | batch => mkState [] (inflight st ++ [batch]) (totalInserted st) (totalErrors st)
  end.

(** The rest of [flush], run when the insert call of [batch] returns. *)
Definition flush_end {A : Type} (batchSize : nat) (batch : list A) (o : Outcome)
    (st : State A) : State A :=
  match o with
  | Inserted =>
      mkState (queue st) (inflight st)
              (totalInserted st + length batch) (totalErrors st)
  | ErrorResult =>
      mkState (if (length (queue st) <? batchSize * 10)%nat
               then batch ++ queue st
               else queue st)
              (inflight st) (totalInserted st) (totalErrors st + length batch)
  | Thrown =>
      mkState (queue st) (inflight st)
              (totalInserted st) (totalErrors st + length batch)
  end.

Definition enqueue {A : Type} (batchSize : nat) (record : A) (st : State A) : State A :=
  let st' := mkState (queue st ++ [record]) (inflight st)
                     (totalInserted st) (totalErrors st) in
  if (batchSize <=? length (queue st'))%nat then flush_begin st' else st'.

(** What can happen to the inserter: a record arrives, the timer fires, or
    the [i]-th pending insert call returns. *)
Inductive Event (A : Type) : Type :=
  | Enqueue (record : A)
  | Tick
  | Settle (i : nat) (o : Outcome).
Arguments Enqueue {A}.
Arguments Tick {A}.
Arguments Settle {A}.

Definition remove_nth {A : Type} (i : nat) (l : list A) : list A :=
  firstn i l ++ skipn (S i) l.

Definition step {A : Type} (batchSize : nat) (st : State A) (e : Event A) : State A :=
  match e with
  | Enqueue r => enqueue batchSize r st
  | Tick => flush_begin st
  | Settle i o =>
      match nth_error (inflight st) i with
      | Some batch =>
          flush_end batchSize batch o
            (mkState (queue st) (remove_nth i (inflight st))
                     (totalInserted st) (totalErrors st))
      | None => st
      end
  end.

Definition run {A : Type} (batchSize : nat) (events : list (Event A)) : State A :=
  fold_left (step batchSize) events init.

(** A store outage: record [k] arrives, and the insert call it may have
    started fails, for [k] from [1] to [n]. *)
Fixpoint outage (n : nat) : list (Event nat) :=
  match n with
  | O => []
  | S k => outage k ++ [Enqueue (S k); Settle 0 ErrorResult]
  end.

(** *** What a run does with the records *)

(** The record that an event brings. *)
Definition arrival {A : Type} (e : Event A) : list A :=
  match e with Enqueue r => [r] | _ => [] end.

(** The records that arrive in a run, in their order of arrival. *)
Definition arrivals {A : Type} (events : list (Event A)) : list A :=
  omap (fun e => match e with Enqueue r => Some r | _ => None end) events.

(** The records that the inserter holds: those of the batches in flight,
    then the queue. *)
Definition pending {A : Type} (st : State A) : list A :=
  concat (inflight st) ++ queue st.

(** The records that the store accepts at an event. *)
Definition accepted {A : Type} (st : State A) (e : Event A) : list A :=
  match e with
  | Settle i Inserted =>
      match nth_error (inflight st) i with Some batch => batch | None => [] end
  | _ => []
  end.

(** The records that the store has accepted in a run. *)
Fixpoint delivered_from {A : Type} (batchSize : nat) (st : State A)
    (events : list (Event A)) : list A :=
  match events with
  | [] => []
  | e :: rest => accepted st e ++ delivered_from batchSize (step batchSize st e) rest
  end.

Definition delivered {A : Type} (batchSize : nat) (events : list (Event A)) : list A :=
  delivered_from batchSize init events.

(** Kinds of events: no insert call fails; no insert call returns; a record
    arrives. *)
Definition no_failure {A : Type} (e : Event A) : bool :=
  match e with
  | Settle _ ErrorResult | Settle _ Thrown => false
  | _ => true
  end.

Definition no_settle {A : Type} (e : Event A) : bool :=
  match e with Settle _ _ => false | _ => true end.

Definition is_enqueue {A : Type} (e : Event A) : bool :=
  match e with Enqueue _ => true | _ => false end.

End BatchWriter.

(* ===================================================================== *)
(** ** arbitrage_hunter.js: the arbitrage scan (the file with
    [resolveSignal]) *)
(* ===================================================================== *)

(** Market keys and event ids are the texts that the tables hold; none is a
    property name that a JavaScript object inherits, so that [map[key]] on
    an object used as a map reads the entry of the key or [undefined]. *)

Module Hunter.
Import JsNum.

Definition SPREAD_THRESHOLD : num := Fin 3.
Definition LIQUIDITY_THRESHOLD : num := Fin 500.

Definition DEMO_PROBS : gmap string Q :=
  list_to_map
    [ ("demo_fed_hold_v1", 82); ("demo_fed_hold_v2", 79);
      ("demo_house_dem_v1", 34); ("demo_house_dem_v2", 35);
      ("demo_wti_above_70", 68); ("demo_wti_at_or_below_70", 32);
      ("demo_unemp_above_43", 55); ("demo_unemp_at_or_below_43", 45);
      ("demo_fed_hike_march", 12); ("demo_gdp_below_20", 84);
      ("demo_cpi_above_fed_target", 78) ]%string.

Definition DEMO_LIQUIDITY_USD : num := Fin 1000.

(** A row of [market_relationships] as selected by the scan. *)
Record Pair : Type := mkPair { market_key_a : string; market_key_b : string }.

(** A row of [market_metadata]. *)
Record MetaRow : Type := mkMetaRow {
  mr_market_key : string;
  polymarket_token_id : option string;
  kalshi_ticker : option string
}.

(** A row of [market_signals]; the store answers newest first. *)
Record SignalRow : Type := mkSignalRow {
  sr_event_id : string;
  sr_probability_pct : option Q;
  sr_liquidity_depth_usd : option Q
}.

Record Signal : Type := mkSignal {
  probability_pct : option num;
  liquidity_depth_usd : num
}.

Record Resolved : Type := mkResolved {
  r_probability_pct : num;
  r_liquidity_depth_usd : num;
  isDemo : bool
}.

Record Alert : Type := mkAlert {
  market_pair : string;
  spread : num;
  potential_profit_pct : num;
  status : string
}.

Definition signal_of_row (row : SignalRow) : Signal :=
  {| probability_pct := option_map Fin (sr_probability_pct row);
     liquidity_depth_usd :=
       match sr_liquidity_depth_usd row with
       | Some d => Fin d
       | None => Fin 0
       end |}.

Definition nonempty (s : string) : bool :=
  match s with EmptyString => false | _ => true end.

Definition fetchMetadataMap (data : list MetaRow) : gmap string string :=
  fold_left
    (fun map row =>
       match (match polymarket_token_id row with
              | Some t => Some t
              | None => kalshi_ticker row
              end) with
       | Some eventId => if nonempty eventId then <[mr_market_key row := eventId]> map else map
       | None => map
       end)
    data ∅.

(** The first row seen for an event id is kept. *)
Definition fetchLatestSignals (data : list SignalRow) : gmap string Signal :=
  fold_left
    (fun latest row =>
       match latest !! sr_event_id row with
       | Some _ => latest
       | None =>
           <[sr_event_id row := signal_of_row row]> latest
       end)
    data ∅.

Definition resolveSignal (marketKey : string) (metaMap : gmap string string)
    (signalMap : gmap string Signal) : option Resolved :=
  let live := match metaMap !! marketKey with
              | Some eventId => signalMap !! eventId
              | None => None
              end in
  match live with
  | Some {| probability_pct := Some p; liquidity_depth_usd := d |} =>
      Some (mkResolved p d false)
  | _ =>
      match DEMO_PROBS !! marketKey with
      | Some p => Some (mkResolved (Fin p) DEMO_LIQUIDITY_USD true)
      | None => None
      end
  end.

(** The live quote of a market, when it has one with a probability: the
    first row of its event id in the answer of the store. *)
Definition live_signal (metaMap : gmap string string) (signalMap : gmap string Signal)
    (marketKey : string) : option (num * num) :=
  match metaMap !! marketKey with
  | Some eventId =>
      match signalMap !! eventId with
      | Some {| probability_pct := Some p; liquidity_depth_usd := d |} => Some (p, d)
      | _ => None
      end
  | None => None
  end.

(** The body of the loop over the pairs: the alert handed to
    [insertAlert], if any. *)
Definition scanPair (metaMap : gmap string string) (signalMap : gmap string Signal)
    (p : Pair) : option Alert :=
  match resolveSignal (market_key_a p) metaMap signalMap,
        resolveSignal (market_key_b p) metaMap signalMap with
  | Some sigA, Some sigB =>
      let spread := Math_abs (sub (r_probability_pct sigA) (r_probability_pct sigB)) in
      let liquidityA := r_liquidity_depth_usd sigA in
      let liquidityB := r_liquidity_depth_usd sigB in
      let isDemo := isDemo sigA || isDemo sigB in
      if gtb spread SPREAD_THRESHOLD && gtb liquidityA LIQUIDITY_THRESHOLD
         && gtb liquidityB LIQUIDITY_THRESHOLD
      then
        Some {| market_pair := market_key_a p +:+ " ↔ " +:+ market_key_b p;
                spread := toFixed_value 3 spread;
                potential_profit_pct := toFixed_value 3 spread;
                status := if isDemo then "SIMULATED_EXECUTION" else "ALERT" |}
      else None
  | _, _ => None
  end.

(** The same loop body in the copy of the hunter under [backend/]: no demo
    table, a pair is passed over as soon as a side has no live quote with a
    probability, and the status is always ALERT. *)
Definition scanPair_live (metaMap : gmap string string) (signalMap : gmap string Signal)
    (p : Pair) : option Alert :=
  match live_signal metaMap signalMap (market_key_a p),
        live_signal metaMap signalMap (market_key_b p) with
  | Some (probA, liquidityA), Some (probB, liquidityB) =>
      let spread := Math_abs (sub probA probB) in
      if gtb spread SPREAD_THRESHOLD && gtb liquidityA LIQUIDITY_THRESHOLD
         && gtb liquidityB LIQUIDITY_THRESHOLD
      then
        Some {| market_pair := market_key_a p +:+ " ↔ " +:+ market_key_b p;
                spread := toFixed_value 3 spread;
                potential_profit_pct := toFixed_value 3 spread;
                status := "ALERT" |}
      else None
  | _, _ => None
  end.

(** The steps 2, 4 (after the query) and 5 of a scan cycle, over the rows
    [signals] that the store answers to the query of [fetchLatestSignals]:
    the alerts handed to [insertAlert].  The query itself is
    [selectSignals] below, and the whole cycle [runScanOver]. *)
Definition runScan (pairs : list Pair) (metadata : list MetaRow)
    (signals : list SignalRow) : list Alert :=
  let metaMap := fetchMetadataMap metadata in
  let signalMap := fetchLatestSignals signals in
  omap (scanPair metaMap signalMap) pairs.

(** *** The metadata map and the query of the signals *)

(** The event id under which a row of the metadata is entered, if any:
    [row.polymarket_token_id ?? row.kalshi_ticker ?? null], when truthy. *)
Definition eventId_of (row : MetaRow) : option string :=
  match (match polymarket_token_id row with
         | Some t => Some t
         | None => kalshi_ticker row
         end) with
  | Some eventId => if nonempty eventId then Some eventId else None
  | None => None
  end.

(** The body of the loop of [fetchMetadataMap]. *)
Definition meta_step (map : gmap string string) (row : MetaRow) : gmap string string :=
  match eventId_of row with
  | Some eventId => <[mr_market_key row := eventId]> map
  | None => map
  end.

(** [if (metaMap[key]) neededIds.add(metaMap[key])]. *)
Definition add_needed (metaMap : gmap string string) (marketKey : string)
    (ids : gset string) : gset string :=
  match metaMap !! marketKey with
  | Some eventId => if nonempty eventId then {[eventId]} ∪ ids else ids
  | None => ids
  end.

(** The event ids that the pairs need. *)
Definition neededIds (pairs : list Pair) (metaMap : gmap string string) : gset string :=
  fold_left
    (fun ids p => add_needed metaMap (market_key_b p)
                    (add_needed metaMap (market_key_a p) ids))
    pairs ∅.

Definition SIGNAL_LIMIT : nat := 1000.

(** The answer of the store to the query of [fetchLatestSignals], over the
    rows of [market_signals] given newest first: the rows of the event ids
    asked for, the first 1000 of them. *)
Definition selectSignals (table : list SignalRow) (eventIds : gset string)
  : list SignalRow :=
  take SIGNAL_LIMIT (filter (fun row => sr_event_id row ∈ eventIds) table).

(** [fetchLatestSignals(eventIds)] over the table. *)
Definition fetchLatestSignalsOf (table : list SignalRow) (eventIds : gset string)
  : gmap string Signal :=
  if decide (eventIds = ∅) then ∅
  else fetchLatestSignals (selectSignals table eventIds).

(** One scan cycle over the tables of the store. *)
Definition runScanOver (pairs : list Pair) (metadata : list MetaRow)
    (table : list SignalRow) : list Alert :=
  let metaMap := fetchMetadataMap metadata in
  let signalMap := fetchLatestSignalsOf table (neededIds pairs metaMap) in
  omap (scanPair metaMap signalMap) pairs.

(** One scan cycle of the copy of the hunter under [backend/]: the same
    queries, the loop body without the demo table. *)
Definition runScanOver_live (pairs : list Pair) (metadata : list MetaRow)
    (table : list SignalRow) : list Alert :=
  let metaMap := fetchMetadataMap metadata in
  let signalMap := fetchLatestSignalsOf table (neededIds pairs metaMap) in
  omap (scanPair_live metaMap signalMap) pairs.

(** *** The scan as the specification words it *)

(** The event id of a market: in its row of the metadata, the token of the
    order-book venue, or the ticker when the token is null; an id that is
    the empty text counts as none. *)
Definition event_of (metadata : list MetaRow) (marketKey : string) : option string :=
  match find (fun row => String.eqb (mr_market_key row) marketKey) metadata with
  | Some row =>
      match polymarket_token_id row with
      | Some token => if nonempty token then Some token else None
      | None =>
          match kalshi_ticker row with
          | Some ticker => if nonempty ticker then Some ticker else None
          | None => None
          end
      end
  | None => None
  end.

(** The latest live quote of an event id among rows given newest first: the
    probability and the depth (0 when null) of the first row of the id,
    when that row carries a probability. *)
Definition latest_quote (rows : list SignalRow) (id : string) : option (num * num) :=
  match find (fun row => String.eqb (sr_event_id row) id) rows with
  | Some row =>
      match sr_probability_pct row with
      | Some p => Some (Fin p, Fin (default 0 (sr_liquidity_depth_usd row)))
      | None => None
      end
  | None => None
  end.

(** A side resolves to its live quote, else to the demo table under its
    market key, else to nothing. *)
Definition resolution (live : option (num * num)) (marketKey : string)
  : option Resolved :=
  match live with
  | Some (p, d) => Some (mkResolved p d false)
  | None =>
      match DEMO_PROBS !! marketKey with
      | Some p => Some (mkResolved (Fin p) (Fin 1000) true)
      | None => None
      end
  end.

(** The alert of a pair whose sides resolved: emitted when the spread is
    above 3 points and both depths are above 500, simulated when a side
    came from the demo table. *)
Definition alert_of (p : Pair) (sigA sigB : Resolved) : option Alert :=
  let gap := Math_abs (sub (r_probability_pct sigA) (r_probability_pct sigB)) in
  if gtb gap (Fin 3) && gtb (r_liquidity_depth_usd sigA) (Fin 500)
     && gtb (r_liquidity_depth_usd sigB) (Fin 500)
  then Some {| market_pair := market_key_a p +:+ " ↔ " +:+ market_key_b p;
               spread := toFixed_value 3 gap;
               potential_profit_pct := toFixed_value 3 gap;
               status := if isDemo sigA || isDemo sigB
                         then "SIMULATED_EXECUTION" else "ALERT" |}
  else None.

(** The scan in which each side resolves to the latest live quote of its
    event id in the table, else to the demo table. *)
Definition scan_of_latest_quotes (pairs : list Pair) (metadata : list MetaRow)
    (table : list SignalRow) : list Alert :=
  let side k :=
    resolution (match event_of metadata k with
                | Some id => latest_quote table id
                | None => None
                end) k in
  omap (fun p =>
          match side (market_key_a p), side (market_key_b p) with
          | Some sigA, Some sigB => alert_of p sigA sigB
          | _, _ => None
          end) pairs.

(** The pair of the GDP market, quoted at 40 under its token, and of its
    demo twin, which has no quote. *)
Definition gdp_pairs : list Pair := [mkPair "demo_gdp_below_20" "gdp_q1_2026"].

Definition gdp_metadata : list MetaRow :=
  [ mkMetaRow "gdp_q1_2026" (Some "tok-gdp") (Some "KXGDP");
    mkMetaRow "demo_gdp_below_20" None (Some "DEMO-GDP") ].

Definition gdp_table : list SignalRow := [mkSignalRow "tok-gdp" (Some 40) (Some 800)].

(** The pair of the Fed market, quoted under its token, and of a demo
    market that is quoted too, under its ticker; a table in which the 1000
    newest rows are quotes of the first, at 60, and the next row is the
    quote of the second, at 70. *)
Definition crowded_pairs : list Pair := [mkPair "demo_fed_hold_v1" "fed_march_2026"].

Definition crowded_metadata : list MetaRow :=
  [ mkMetaRow "fed_march_2026" (Some "tok-fed") (Some "KXFED");
    mkMetaRow "demo_fed_hold_v1" None (Some "KXHOLD") ].

Definition crowded_table : list SignalRow :=
  repeat (mkSignalRow "tok-fed" (Some 60) (Some 1000)) 1000
  ++ [mkSignalRow "KXHOLD" (Some 70) (Some 1000)].

(** The probability of a row, when it has one, is a percentage. *)
Definition percent (row : SignalRow) : Prop :=
  match sr_probability_pct row with
  | Some p => 0 <= p <= 100
  | None => True
  end.

(** Sample data: a market listed on both venues, one on the ticker venue
    only; quotes of the ticker venue only for the first. *)
Definition sample_metadata : list MetaRow :=
  [ mkMetaRow "fed" (Some "tok-fed") (Some "KXFED");
    mkMetaRow "wti" None (Some "KXWTI") ].

Definition sample_signals : list SignalRow :=
  [ mkSignalRow "KXWTI" (Some 68) (Some 900);
    mkSignalRow "KXFED" (Some 80) (Some 700);
    mkSignalRow "KXWTI" (Some 61) (Some 900) ].

Definition sample_market : MetaRow := mkMetaRow "fed" (Some "tok-fed") (Some "KXFED").

(** The alert of the pair of [wti] (68, live) and [demo_fed_hold_v1] (82). *)
Definition sample_alert : Alert :=
  {| market_pair := "wti ↔ demo_fed_hold_v1";
     spread := Fin 14;
     potential_profit_pct := Fin 14;
     status := "SIMULATED_EXECUTION" |}.

End Hunter.

(* ===================================================================== *)
(** ** scenario_engine.js, api.js: the current probability of a market *)
(* ===================================================================== *)

Module Prices.
Import JsNum Hunter.

(** [latestByEventId] over the rows [signals] that the query returned: the
    probability of the first row of an event id that has one (an entry
    holding [null] is written again by the next row of the id, so that it
    reads as no entry). *)
Definition latestByEventId (signals : list SignalRow) : gmap string Q :=
  fold_left
    (fun latest row =>
       match latest !! sr_event_id row with
       | Some _ => latest
       | None =>
           match sr_probability_pct row with
           | Some p => <[sr_event_id row := p]> latest
           | None => latest
           end
       end)
    signals ∅.

(** [id && latestByEventId[id] != null], and the value then. *)
Definition live_of (latest : gmap string Q) (id : option string) : option Q :=
  match id with
  | Some t => if nonempty t then latest !! t else None
  | None => None
  end.

(** The probability of a market: live from the order-book venue, else live
    from the ticker venue, else the demo table, else [null]. *)
Definition probabilityOf (latest : gmap string Q) (m : MetaRow) : option Q :=
  match live_of latest (polymarket_token_id m) with
  | Some p => Some p
  | None =>
      match live_of latest (kalshi_ticker m) with
      | Some p => Some p
      | None => DEMO_PROBS !! mr_market_key m
      end
  end.

(** The [priceMap] of [loadMarketGraph], over the rows [signals] that its
    query returned ([engine_signals] below, over the table). *)
Definition priceMap (markets : list MetaRow) (signals : list SignalRow)
  : gmap string (option Q) :=
  let latest := latestByEventId signals in
  fold_left (fun map m => <[mr_market_key m := probabilityOf latest m]> map) markets ∅.

(** [priceMap[key] ?? null]. *)
Definition current_probability_pct (markets : list MetaRow) (signals : list SignalRow)
    (marketKey : string) : option Q :=
  match priceMap markets signals !! marketKey with
  | Some p => p
  | None => None
  end.

(** The [probability_pct] of a node of [buildGraphData]. *)
Definition node_probability_pct (signals : list SignalRow) (m : MetaRow) : option Q :=
  probabilityOf (latestByEventId signals) m.

(** The rows [signals] that the two functions read of the table
    [market_signals], given newest first: [loadMarketGraph] asks for
    [.order('created_at', { ascending: false }).limit(1000)] and
    [buildGraphData] for the same with [.limit(500)], both without a filter
    on the event id. *)
Definition engine_signals (table : list SignalRow) : list SignalRow := take 1000 table.

Definition api_signals (table : list SignalRow) : list SignalRow := take 500 table.

(** *** agent.js: the live probabilities of the agent *)

(** [id && !id.startsWith('DEMO-')], for a ticker; [id] alone for a token. *)
Definition asked_token (m : MetaRow) : gset string :=
  match polymarket_token_id m with
  | Some t => if nonempty t then {[t]} else ∅
  | None => ∅
  end.

Definition asked_ticker (m : MetaRow) : gset string :=
  match kalshi_ticker m with
  | Some t => if nonempty t && negb (String.prefix "DEMO-" t) then {[t]} else ∅
  | None => ∅
  end.

(** [allIds] of [fetchLiveProbabilities]. *)
Definition allIds (markets : list MetaRow) : gset string :=
  ⋃ (map asked_token markets) ∪ ⋃ (map asked_ticker markets).

(** [fetchLiveProbabilities] over the rows of [market_signals], given
    newest first. *)
Definition fetchLiveProbabilities (markets : list MetaRow) (table : list SignalRow)
  : gmap string Q :=
  if decide (allIds markets = ∅) then ∅
  else
    let latest := latestByEventId (selectSignals table (allIds markets)) in
    fold_left
      (fun probMap market =>
         match live_of latest (polymarket_token_id market) with
         | Some p => <[mr_market_key market := p]> probMap
         | None =>
             match live_of latest (kalshi_ticker market) with
             | Some p => <[mr_market_key market := p]> probMap
             | None => probMap
             end
         end)
      markets ∅.

(** [probMap[key] ?? null] with [probMap = { ...DEMO_PROBS, ...liveProbMap }]. *)
Definition agent_probability (markets : list MetaRow) (table : list SignalRow)
    (marketKey : string) : option Q :=
  match fetchLiveProbabilities markets table !! marketKey with
  | Some p => Some p
  | None => DEMO_PROBS !! marketKey
  end.

End Prices.

(* ===================================================================== *)
(** ** agent.js: classification of market pairs *)
(* ===================================================================== *)

Module Classifier.
Import JsNum JsText.

Definition ARBITRAGE_THRESHOLD_PCT : num := Fin 10.
Definition DIVERGENCE_THRESHOLD_PCT : num := Fin 5.

Definition DEMO_PROBS : gmap string num := Fin <$> Hunter.DEMO_PROBS.

(** A row of [market_metadata]. *)
Record Market : Type := mkMarket {
  market_key : string;
  event_name : string;
  proposition_text : option string;
  resolution_date : string;
  settlement_source : string
}.

(** The object parsed from the analyst's answer ([_reasoning], which is
    only logged, is left out). *)
Record Parsed : Type := mkParsed {
  p_relationship_type : string;
  p_confidence_score : option num;
  p_logic_justification : string;
  p_impact_direction : option string;
  p_correlation_strength : option string;
  p_logical_layer : option string;
  p_vantage_insight : option string
}.

(** The record upserted into [market_relationships]. *)
Record Relationship : Type := mkRelationship {
  market_key_a : string;
  market_key_b : string;
  relationship_type : string;
  confidence_score : num;
  logic_justification : string;
  arbitrage_flag : option string;
  risk_alert : option string;
  probability_a : option num;
  probability_b : option num;
  probability_spread : option num;
  impact_direction : string;
  correlation_strength : string;
  logical_layer : string;
  vantage_insight : option string
}.

(** [[a, b].sort()] on two strings: the order of the code units, which for
    the ASCII text of market keys is the order of the bytes. *)
Definition sort2 (a b : string) : string * string :=
  if String.ltb b a then (b, a) else (a, b).

Section WithText.

(** [Number.prototype.toFixed], as text. *)
Variable toFixed : nat -> num -> string.

(** The analyst model followed by the parsing of its answer, for the
    relationship that [classifyPair] returns: [None] when it returns none,
    because the call fails or the answer is not JSON (it then returns
    [null]) or because the answer is the JSON [null] (it then throws, see
    [Reply] below). *)
Variable analyst : Market -> Market -> option num -> option num -> option Parsed.

Definition gdpNote (keyA keyB : string) (probability_spread : num) : string :=
  if (String.eqb keyA "gdp_q1_2026" && String.eqb keyB "demo_gdp_below_20")
     || (String.eqb keyB "gdp_q1_2026" && String.eqb keyA "demo_gdp_below_20")
  then " GDP Mismatch: The live " +:+ dquote +:+ "above 2.0%" +:+ dquote
       +:+ " market and the demo " +:+ dquote +:+ "below 2.0%" +:+ dquote +:+ " complement "
       +:+ "are both tracking the same BEA Q1 2026 GDP release. "
       +:+ "With a " +:+ toFixed 1 probability_spread +:+ "% spread between them, "
       +:+ "this represents a " +:+ toFixed 0 probability_spread +:+ "% market inefficiency — "
       +:+ "a trader buying the underpriced side captures near-riskless profit."
  else "".

(** The consistency check of [classifyPair]: the flag, the alert, the
    spread and the justification. *)
Definition postProcess (keyA keyB : string) (probA probB : option num)
    (relationship_type logic_justification : string)
  : option string * option string * option num * string :=
  match probA, probB with
  | Some pA, Some pB =>
      if String.eqb relationship_type "equivalent" then
        let probability_spread := Math_abs (sub pA pB) in
        let risk_alert :=
          if gtb probability_spread DIVERGENCE_THRESHOLD_PCT
          then Some "VENUE_DIVERGENCE: Potential Arbitrage" else None in
        if gtb probability_spread ARBITRAGE_THRESHOLD_PCT then
          (Some "HIGH_VALUE_ARBITRAGE_OPPORTUNITY", risk_alert, Some probability_spread,
           logic_justification +:+ " "
           +:+ "[ARBITRAGE DETECTED: " +:+ toFixed 1 probability_spread +:+ "% spread — "
           +:+ keyA +:+ " at " +:+ toFixed 1 pA +:+ "% vs "
           +:+ keyB +:+ " at " +:+ toFixed 1 pB +:+ "%. "
           +:+ "These equivalent markets should converge; the gap is a pricing inefficiency.]"
           +:+ gdpNote keyA keyB probability_spread)
        else (None, risk_alert, Some probability_spread, logic_justification)
      else if String.eqb relationship_type "mutually_exclusive" then
        let pairSum := add pA pB in
        let probability_spread := Math_abs (sub pairSum (Fin 100)) in
        if gtb probability_spread ARBITRAGE_THRESHOLD_PCT then
          (Some "HIGH_VALUE_ARBITRAGE_OPPORTUNITY", None, Some probability_spread,
           logic_justification +:+ " "
           +:+ "[ARBITRAGE DETECTED: Probabilities sum to " +:+ toFixed 1 pairSum
           +:+ "% (should be ~100%). "
           +:+ "The " +:+ toFixed 1 probability_spread
           +:+ "% excess is a potential arbitrage opportunity.]")
        else (None, None, Some probability_spread, logic_justification)
      else (None, None, None, logic_justification)
  | _, _ => (None, None, None, logic_justification)
  end.

Definition classifyPair (marketA marketB : Market) (probA probB : option num)
  : option Relationship :=
  match analyst marketA marketB probA probB with
  | None => None
  | Some parsed =>
      let '(arbitrage_flag, risk_alert, probability_spread, justification) :=
        postProcess (market_key marketA) (market_key marketB) probA probB
                    (p_relationship_type parsed) (p_logic_justification parsed) in
      let '(keyA, keyB) := sort2 (market_key marketA) (market_key marketB) in
      Some {| market_key_a := keyA;
              market_key_b := keyB;
              relationship_type := p_relationship_type parsed;
              confidence_score := parseFloat (p_confidence_score parsed);
              logic_justification := justification;
              arbitrage_flag := arbitrage_flag;
              risk_alert := risk_alert;
              probability_a := probA;
              probability_b := probB;
              probability_spread := probability_spread;
              impact_direction :=
                match p_impact_direction parsed with Some d => d | None => "Neutral" end;
              correlation_strength :=
                match p_correlation_strength parsed with Some d => d | None => "Medium" end;
              logical_layer :=
                match p_logical_layer parsed with Some d => d | None => "Financial" end;
              vantage_insight := p_vantage_insight parsed |}
  end.

Definition same_pair (r1 r2 : Relationship) : bool :=
  String.eqb (market_key_a r1) (market_key_a r2)
  && String.eqb (market_key_b r1) (market_key_b r2).

(** The store's upsert with [market_key_a, market_key_b] as conflict
    target: the row of the same pair is overwritten, a new pair is added. *)
Fixpoint upsert (rel : Relationship) (table : list Relationship)
  : list Relationship :=
  match table with
  | [] => [rel]
  | row :: rest =>
      if same_pair row rel then rel :: rest
      else row :: upsert rel rest
  end.

(** A sequence of upserts. *)
Definition upserts (rels table : list Relationship) : list Relationship :=
  fold_left (fun t r => upsert r t) rels table.

(** Whether the store takes the record (its constraints, its
    availability); a refusal is logged and the table is left as it was. *)
Variable store_accepts : Relationship -> bool.

Definition storeRelationship (rel : Relationship) (table : list Relationship)
  : list Relationship :=
  if store_accepts rel then upsert rel table else table.

Definition pair_key (r : Relationship) : string * string :=
  (market_key_a r, market_key_b r).

Definition has_key (k : string * string) (r : Relationship) : bool :=
  String.eqb (market_key_a r) (fst k) && String.eqb (market_key_b r) (snd k).

(** The keys of a row are in canonical order. *)
Definition canonical (r : Relationship) : Prop :=
  String.ltb (market_key_a r) (market_key_b r) = true.

(** Two rows are about the same unordered pair of markets. *)
Definition same_unordered (r1 r2 : Relationship) : Prop :=
  (market_key_a r1 = market_key_a r2 /\ market_key_b r1 = market_key_b r2)
  \/ (market_key_a r1 = market_key_b r2 /\ market_key_b r1 = market_key_a r2).

(** The derived fields as the specification words them: the spread,
    whether the divergence alert is raised, whether the arbitrage flag is
    raised. *)
Definition derived_spec (relationship_type : string) (probA probB : option num)
  : option num * bool * bool :=
  match probA, probB with
  | Some a, Some b =>
      if String.eqb relationship_type "equivalent" then
        let s := Math_abs (sub a b) in (Some s, gtb s (Fin 5), gtb s (Fin 10))
      else if String.eqb relationship_type "mutually_exclusive" then
        let s := Math_abs (sub (add a b) (Fin 100)) in (Some s, false, gtb s (Fin 10))
      else (None, false, false)
  | _, _ => (None, false, false)
  end.

(** [text] is [base] followed by a note that is not empty. *)
Definition extends (base text : string) : Prop :=
  exists note, note <> "" /\ text = base +:+ note.

(** All pairs [(markets[i], markets[j])] with [i < j]. *)
Fixpoint all_pairs (markets : list Market) : list (Market * Market) :=
  match markets with
  | [] => []
  | m :: rest => map (fun m' => (m, m')) rest ++ all_pairs rest
  end.

(** One run of the agent over the catalog; the tasks are taken in the order
    of the pairs. *)
Definition runAgent (markets : list Market) (liveProbMap : gmap string num)
    (table : list Relationship) : list Relationship :=
  let probMap := liveProbMap ∪ DEMO_PROBS in
  fold_left
    (fun tbl '(a, b) =>
       match classifyPair a b (probMap !! market_key a) (probMap !! market_key b) with
       | Some rel => storeRelationship rel tbl
       | None => tbl
       end)
    (all_pairs markets) table.

(** The relationships returned by [classifyPair] in a run. *)
Definition produced (markets : list Market) (liveProbMap : gmap string num)
  : list Relationship :=
  let probMap := liveProbMap ∪ DEMO_PROBS in
  omap (fun '(a, b) =>
          classifyPair a b (probMap !! market_key a) (probMap !! market_key b))
       (all_pairs markets).

(** Those of them that the store takes. *)
Definition stored (markets : list Market) (liveProbMap : gmap string num)
  : list Relationship :=
  filter (fun r => store_accepts r = true) (produced markets liveProbMap).

End WithText.

(** Sample data: three markets, an analyst that answers alike for every
    pair, a store that takes every record. *)
Definition sample_markets : list Market :=
  [ mkMarket "fed_march_2026" "Fed" None "2026-03-18" "Federal Reserve";
    mkMarket "demo_fed_hold_v1" "Fed hold" None "2026-03-18" "Federal Reserve";
    mkMarket "cpi_feb_2026" "CPI" None "2026-03-11" "BLS" ].

Definition sample_analyst (a b : Market) (pa pb : option num) : option Parsed :=
  Some (mkParsed "equivalent" (Some (Fin (9 # 10))) "Same decision." None None None None).

Definition sample_toFixed (digits : nat) (x : num) : string := "n".

Definition sample_live : gmap string num := {[ "fed_march_2026" := Fin 60 ]}.

(** *** The counters of a run *)

(** The counters of a run. *)
Record Tally : Type := mkTally {
  t_stored : nat;
  t_skipped : nat;
  t_arbitrage : nat;
  t_divergence : nat;
  storedResults : list Relationship
}.

(** Truthiness of a field that is [null] or text. *)
Definition flagged (x : option string) : bool :=
  match x with
  | Some (String _ _) => true
  | _ => false
  end.

(** What a task of [runAgent] gets from the analyst: no usable answer (the
    call failed, or the text is not JSON, and [classifyPair] returns
    [null]); the JSON [null], on which the destructuring
    [const { ... } = parsed] of [classifyPair] throws; or an object. *)
Inductive Reply : Type :=
  | NoAnswer
  | NullAnswer
  | Answer (parsed : Parsed).

(** How a task ends: [classifyPair] returned [null]; it threw, and the
    worker of [pLimit] logged the error of the task; or it returned a
    relationship, which was handed to the store. *)
Inductive Outcome : Type :=
  | Skipped
  | Threw
  | Stored (rel : Relationship).

(** What a task does to the counters when it ends.  Nothing is awaited
    between the updates of one task, so that the counters at the end of a
    run are those of the tasks taken one after the other in the order in
    which they end. *)
Definition tally_step (t : Tally) (o : Outcome) : Tally :=
  match o with
  | Skipped => mkTally (t_stored t) (S (t_skipped t)) (t_arbitrage t) (t_divergence t)
                       (storedResults t)
  | Threw => t
  | Stored rel =>
      mkTally (S (t_stored t)) (t_skipped t)
              (if flagged (arbitrage_flag rel) then S (t_arbitrage t) else t_arbitrage t)
              (if flagged (risk_alert rel) then S (t_divergence t) else t_divergence t)
              (storedResults t ++ [rel])
  end.

Section WithAnalyst.

Variable toFixed : nat -> num -> string.
Variable reply : Market -> Market -> option num -> option num -> Reply.

(** The object that [classifyPair] goes on with, if any. *)
Definition analyst_of (a b : Market) (probA probB : option num) : option Parsed :=
  match reply a b probA probB with
  | Answer parsed => Some parsed
  | _ => None
  end.

(** A task of [runAgent]. *)
Definition task (probMap : gmap string num) (a b : Market) : Outcome :=
  let probA := probMap !! market_key a in
  let probB := probMap !! market_key b in
  match reply a b probA probB with
  | NullAnswer => Threw
  | _ =>
      match classifyPair toFixed analyst_of a b probA probB with
      | Some rel => Stored rel
      | None => Skipped
      end
  end.

(** The pairs on whose answer the task throws. *)
Definition throwing (probMap : gmap string num) (p : Market * Market) : bool :=
  match reply (fst p) (snd p) (probMap !! market_key (fst p))
              (probMap !! market_key (snd p)) with
  | NullAnswer => true
  | _ => false
  end.

(** The counters at the end of a run; [ended] lists the pairs in the order
    in which their tasks end. *)
Definition runAgent_tally (liveProbMap : gmap string num)
    (ended : list (Market * Market)) : Tally :=
  let probMap := liveProbMap ∪ DEMO_PROBS in
  fold_left (fun t '(a, b) => tally_step t (task probMap a b)) ended (mkTally 0 0 0 0 []).

End WithAnalyst.

(** An analyst whose answer is the JSON [null] for the pairs with
    [cpi_feb_2026] and an object otherwise. *)
Definition sample_reply (a b : Market) (pa pb : option num) : Reply :=
  if String.eqb (market_key b) "cpi_feb_2026" then NullAnswer
  else Answer (mkParsed "equivalent" (Some (Fin (9 # 10))) "Same decision." None None None None).

(** The row of the sample for the pair of [fed_march_2026] (live, 60) and
    [cpi_feb_2026] (no probability), which comes second in the catalog and
    first in the order of the keys. *)
Definition sample_row : Relationship :=
  {| market_key_a := "cpi_feb_2026";
     market_key_b := "fed_march_2026";
     relationship_type := "equivalent";
     confidence_score := Fin (9 # 10);
     logic_justification := "Same decision.";
     arbitrage_flag := None;
     risk_alert := None;
     probability_a := Some (Fin 60);
     probability_b := None;
     probability_spread := None;
     impact_direction := "Neutral";
     correlation_strength := "Medium";
     logical_layer := "Financial";
     vantage_insight := None |}.

End Classifier.

(* ===================================================================== *)
(** ** agent.js, api.js, graph-data: link counts and hubs *)
(* ===================================================================== *)

Module Hubs.

Definition HUB_LINK_THRESHOLD : nat := 3.

(** What the count reads of a relationship. *)
Record Link : Type := mkLink { link_a : string; link_b : string; link_type : string }.

(** [relationship_type === 'implied' || relationship_type === 'correlated']. *)
Definition counted (r : Link) : bool :=
  String.eqb (link_type r) "implied" || String.eqb (link_type r) "correlated".

(** [counts.set(k, (counts.get(k) ?? 0) + 1)] on a map that keeps its keys
    in the order of their first insertion (as a [Map] does, and an object
    for keys that are not array indices). *)
Fixpoint bump (k : string) (counts : list (string * nat)) : list (string * nat) :=
  match counts with
  | [] => [(k, 1%nat)]
  | (k', n) :: rest =>
      if String.eqb k' k then (k', S n) :: rest else (k', n) :: bump k rest
  end.

(** The loop of [buildLinkCounts] and of [detectHubs], over the
    relationships that [counts] takes. *)
Definition countLinks (counts : Link -> bool) (relationships : list Link)
  : list (string * nat) :=
  fold_left
    (fun acc r => if counts r then bump (link_b r) (bump (link_a r) acc) else acc)
    relationships [].

Definition buildLinkCounts (relationships : list Link) : list (string * nat) :=
  countLinks counted relationships.

(** [counts.get(k) ?? 0]. *)
Definition count_of (counts : list (string * nat)) (k : string) : nat :=
  match find (fun e => String.eqb (fst e) k) counts with
  | Some e => snd e
  | None => 0%nat
  end.

(** [sort((a, b) => b[1] - a[1])]: a stable sort by falling count. *)
Fixpoint insert_entry (x : string * nat) (l : list (string * nat)) : list (string * nat) :=
  match l with
  | [] => [x]
  | y :: rest =>
      if (snd y <? snd x)%nat then x :: y :: rest else y :: insert_entry x rest
  end.

Definition sort_entries (l : list (string * nat)) : list (string * nat) :=
  fold_left (fun acc x => insert_entry x acc) l [].

Definition is_hub_entry (e : string * nat) : bool := (HUB_LINK_THRESHOLD <? snd e)%nat.

(** [detectHubs] of agent.js, and [hubNodes] of api.js: the entries above
    the threshold, by falling count. *)
Definition detectHubs (results : list Link) : list (string * nat) :=
  sort_entries (List.filter is_hub_entry (buildLinkCounts results)).

(** The [is_hub] and the [hub_link_count] of a node of [buildGraphData]. *)
Definition node_is_hub (relationships : list Link) (marketKey : string) : bool :=
  existsb (fun e => String.eqb (fst e) marketKey)
          (List.filter is_hub_entry (buildLinkCounts relationships)).

Definition node_hub_link_count (relationships : list Link) (marketKey : string) : nat :=
  count_of (buildLinkCounts relationships) marketKey.

(** The number of ends that the relationships taken have at a market. *)
Definition degree (counts : Link -> bool) (relationships : list Link) (k : string) : nat :=
  (length (List.filter (fun r => counts r && String.eqb (link_a r) k) relationships)
   + length (List.filter (fun r => counts r && String.eqb (link_b r) k) relationships))%nat.

Definition total (counts : list (string * nat)) : nat :=
  fold_right (fun e acc => (snd e + acc)%nat) 0%nat counts.

Definition falling_count (a b : string * nat) : Prop := (snd b <= snd a)%nat.

(** The graph-data function of the frontend: every relationship counts;
    the nodes are the markets that the relationships name; the hub nodes
    are the first three entries by falling count. *)
Definition hubCount (relationships : list Link) : list (string * nat) :=
  countLinks (fun _ => true) relationships.

(** [allKeys.add(k)] on a set that keeps its keys in the order of their
    first insertion. *)
Definition add_key (k : string) (keys : list string) : list string :=
  if existsb (String.eqb k) keys then keys else keys ++ [k].

Definition allKeys (relationships : list Link) : list string :=
  fold_left (fun keys r => add_key (link_b r) (add_key (link_a r) keys)) relationships [].

(** The [id] and the [hub_link_count] of the nodes. *)
Definition graph_nodes (relationships : list Link) : list (string * nat) :=
  map (fun key => (key, count_of (hubCount relationships) key)) (allKeys relationships).

Definition top_hubs (relationships : list Link) : list (string * nat) :=
  take 3 (sort_entries (hubCount relationships)).

End Hubs.

(* ===================================================================== *)
(** ** agent.js: the pool of workers *)
(* ===================================================================== *)

Module Pool.

Section Pool.

Variable T : Type.

(** The tasks not yet taken, the tasks in flight (one for each worker that
    awaits), and the tasks started so far, in the order of their start. *)
Record State : Type := mkState {
  queue : list T;
  inflight : list T;
  started : list T
}.

(** A worker at the head of its loop: it takes the next task and awaits
    it, or returns when the queue is empty. *)
Definition take_next (st : State) : State :=
  match queue st with
  | [] => st
  | task :: rest => mkState rest (inflight st ++ [task]) (started st ++ [task])
  end.

(** [pLimit(limit, tasks)] up to [Promise.all]: the workers are created one
    after the other, and each runs up to its first [await]. *)
Definition launch (limit : nat) (tasks : list T) : State :=
  Nat.iter (Nat.min limit (length tasks)) take_next (mkState tasks [] []).

(** The task in flight at position [i] settles, fulfilled or rejected (a
    rejection is caught and logged): its worker is back at the head of its
    loop. *)
Definition settle (st : State) (i : nat) : State :=
  match inflight st !! i with
  | None => st
  | Some _ => take_next (mkState (queue st) (delete i (inflight st)) (started st))
  end.

(** The pool after the tasks in flight settled in the order of [schedule]. *)
Definition run (limit : nat) (tasks : list T) (schedule : list nat) : State :=
  fold_left settle schedule (launch limit tasks).

End Pool.

Arguments mkState {T}.
Arguments queue {T}.
Arguments inflight {T}.
Arguments started {T}.
Arguments take_next {T}.
Arguments launch {T}.
Arguments settle {T}.
Arguments run {T}.

(** What every state of the pool satisfies. *)
Definition pool_ok {T : Type} (limit : nat) (tasks : list T) (st : State T) : Prop :=
  started st ++ queue st = tasks
  /\ (length (inflight st) <= Nat.min limit (length tasks))%nat
  /\ (queue st <> [] -> length (inflight st) = Nat.min limit (length tasks)).

End Pool.

(* ===================================================================== *)
(** ** scenario_engine.js and api.js: the scenario engine *)
(* ===================================================================== *)

Module Scenario.
Import JsNum JsText.

Definition MAX_DEPTH : nat := 2.
Definition MIN_PATH_CONF : num := Fin (5 # 100).

(** A row of [market_relationships] as read back from the store. *)
Record Rel : Type := mkRel {
  market_key_a : string;
  market_key_b : string;
  relationship_type : string;
  confidence_score : option Q;
  impact_direction : option string;
  logic_justification : option string;
  vantage_insight : option string;
  correlation_strength : option string;
  logical_layer : option string;
  probability_a : option Q;
  probability_b : option Q;
  probability_spread : option Q
}.

Record Meta : Type := mkMeta {
  m_logic_justification : option string;
  m_vantage_insight : option string;
  m_impact_direction : option string;
  m_correlation_strength : option string;
  m_logical_layer : option string;
  m_probability_a : option Q;
  m_probability_b : option Q;
  m_probability_spread : option Q
}.

Record Impact : Type := mkImpact {
  i_market_key : string;
  order : nat;
  i_relationship_type : string;
  i_direction : string;
  i_confidence_score : num;
  edge_confidence : num;
  path : list string;
  meta : Meta
}.

(** An entry of the traversal queue. *)
Record Entry : Type := mkEntry {
  marketKey : string;
  direction : string;
  depth : nat;
  e_path : list string;
  pathConfidence : num
}.

Definition flip (currentDir : string) : string :=
  if String.eqb currentDir "UP" then "DOWN" else "UP".

Definition propagateDirection (currentDir relationshipType : string)
    (impactDirection : option string) : string :=
  if String.eqb relationshipType "equivalent"
     || String.eqb relationshipType "implied"
     || String.eqb relationshipType "implied_conditional"
  then currentDir
  else if String.eqb relationshipType "mutually_exclusive"
  then flip currentDir
  else if String.eqb relationshipType "correlated"
  then match impactDirection with
       | Some d => if String.eqb d "Negative" then flip currentDir else currentDir
       | None => currentDir
       end
  else currentDir.

Definition touches (marketKey : string) (r : Rel) : bool :=
  String.eqb (market_key_a r) marketKey || String.eqb (market_key_b r) marketKey.

Definition neighbor_of (marketKey : string) (rel : Rel) : string :=
  if String.eqb (market_key_a rel) marketKey then market_key_b rel else market_key_a rel.

Definition edgeConfidence_of (rel : Rel) : num :=
  match confidence_score rel with Some c => Fin c | None => Fin (1 # 2) end.

Definition meta_of (rel : Rel) : Meta :=
  {| m_logic_justification := logic_justification rel;
     m_vantage_insight := vantage_insight rel;
     m_impact_direction := impact_direction rel;
     m_correlation_strength := correlation_strength rel;
     m_logical_layer := logical_layer rel;
     m_probability_a := probability_a rel;
     m_probability_b := probability_b rel;
     m_probability_spread := probability_spread rel |}.

(** The state of the traversal: the visited set, the impacts found and the
    queue. *)
Record Bfs : Type := mkBfs {
  visited : gset string;
  impacts : list Impact;
  queue : list Entry
}.

(** The entry pushed when [rel] is followed from the entry [e] to its other
    end. *)
Definition advance (e : Entry) (rel : Rel) : Entry :=
  let neighbor := neighbor_of (marketKey e) rel in
  let edgeConfidence := edgeConfidence_of rel in
  let newPathConf := toFixed_value 4 (mul (pathConfidence e) edgeConfidence) in
  let newDir := propagateDirection (direction e) (relationship_type rel)
                                   (impact_direction rel) in
  let newPath := e_path e ++ [neighbor] in
  {| marketKey := neighbor;
     direction := newDir;
     depth := depth e + 1;
     e_path := newPath;
     pathConfidence := newPathConf |}.

(** The impact recorded with it. *)
Definition impact_of (e : Entry) (rel : Rel) : Impact :=
  let next := advance e rel in
  {| i_market_key := marketKey next;
     order := depth e + 1;
     i_relationship_type := relationship_type rel;
     i_direction := direction next;
     i_confidence_score := pathConfidence next;
     edge_confidence := edgeConfidence_of rel;
     path := e_path next;
     meta := meta_of rel |}.

(** The body of [for (const rel of edges)] for the entry [e] taken off the
    queue. *)
Definition visit (e : Entry) (st : Bfs) (rel : Rel) : Bfs :=
  let neighbor := neighbor_of (marketKey e) rel in
  if bool_decide (neighbor ∈ visited st) then st
  else
    let visited' := {[neighbor]} ∪ visited st in
    if ltb (pathConfidence (advance e rel)) MIN_PATH_CONF
    then mkBfs visited' (impacts st) (queue st)
    else mkBfs visited' (impacts st ++ [impact_of e rel]) (queue st ++ [advance e rel]).

(** One turn of [while (queue.length > 0)]. *)
Definition turn (relationships : list Rel) (e : Entry) (st : Bfs) : Bfs :=
  if (MAX_DEPTH <=? depth e)%nat then st
  else fold_left (visit e) (filter (touches (marketKey e)) relationships) st.

(** The loop, for at most [fuel] turns; [None] when the queue is not empty
    by then. *)
Fixpoint loop (fuel : nat) (relationships : list Rel) (st : Bfs) : option (list Impact) :=
  match queue st with
  | [] => Some (impacts st)
  | e :: rest =>
      match fuel with
      | O => None
      | S fuel' =>
          loop fuel' relationships
               (turn relationships e (mkBfs (visited st) (impacts st) rest))
      end
  end.

(** [Array.prototype.sort] with the comparator
    [(a, b) => b.confidence_score - a.confidence_score]: a stable sort. *)
Fixpoint insert_sorted (x : Impact) (l : list Impact) : list Impact :=
  match l with
  | [] => [x]
  | y :: rest =>
      if gtb (sub (i_confidence_score x) (i_confidence_score y)) (Fin 0)
      then x :: y :: rest
      else y :: insert_sorted x rest
  end.

Definition sort_impacts (l : list Impact) : list Impact :=
  fold_left (fun acc x => insert_sorted x acc) l [].

(** The entry the queue starts with. *)
Definition origin (targetMarket initialDir : string) : Entry :=
  {| marketKey := targetMarket; direction := initialDir; depth := 0;
     e_path := [targetMarket]; pathConfidence := Fin 1 |}.

Definition start (targetMarket initialDir : string) : Bfs :=
  {| visited := {[targetMarket]};
     impacts := [];
     queue := [origin targetMarket initialDir] |}.

(** The number of turns the loop is given: one per market key that the
    relationships can name, and one for the target. *)
Definition turns (relationships : list Rel) : nat :=
  S (S (2 * length relationships)).

Definition traverseGraph_run (targetMarket initialDir : string)
    (relationships : list Rel) : option (list Impact) :=
  option_map sort_impacts
    (loop (turns relationships) relationships (start targetMarket initialDir)).

Definition traverseGraph (targetMarket initialDir : string)
    (relationships : list Rel) : list Impact :=
  match traverseGraph_run targetMarket initialDir relationships with
  | Some l => l
  | None => []
  end.

(** *** Paths of the graph *)

(** The node reached from [node] along the edges [es], each followed from
    the node reached so far to its other end. *)
Definition end_node (node : string) (es : list Rel) : string :=
  fold_left neighbor_of es node.

(** The nodes on the way. *)
Fixpoint route (node : string) (es : list Rel) : list string :=
  node :: match es with
          | [] => []
          | rel :: rest => route (neighbor_of node rel) rest
          end.

(** Each edge of [es] touches the node reached so far. *)
Fixpoint linked (node : string) (es : list Rel) : Prop :=
  match es with
  | [] => True
  | rel :: rest => touches node rel = true /\ linked (neighbor_of node rel) rest
  end.

(** The entry reached from [e] along [es]. *)
Definition walk (es : list Rel) (e : Entry) : Entry := fold_left advance es e.

(** The cumulative confidence along edges of the given confidences, as the
    traversal computes it: the product is rounded to four decimals at
    every edge. *)
Definition cumulative (confs : list num) : num :=
  fold_left (fun acc c => toFixed_value 4 (mul acc c)) confs (Fin 1).

(** The direction after the given edges. *)
Definition direction_along (es : list Rel) (d : string) : string :=
  fold_left (fun dir rel => propagateDirection dir (relationship_type rel)
                                               (impact_direction rel)) es d.

(** The product of the edge confidences along a path, as the
    specification words the cumulative confidence: the edge of a hop is the
    first relationship between its two markets. *)
Definition edge_between (relationships : list Rel) (a b : string) : option Rel :=
  find (fun r => (String.eqb (market_key_a r) a && String.eqb (market_key_b r) b)
                 || (String.eqb (market_key_a r) b && String.eqb (market_key_b r) a))
       relationships.

Fixpoint hops (p : list string) : list (string * string) :=
  match p with
  | a :: (b :: _) as rest => (a, b) :: hops rest
  | _ => []
  end.

Definition path_product (relationships : list Rel) (p : list string) : num :=
  fold_left
    (fun acc '(a, b) =>
       mul acc (match edge_between relationships a b with
                | Some r => edgeConfidence_of r
                | None => NaN
                end))
    (hops p) (Fin 1).

(** The market keys that the traversal can meet. *)
Definition universe (targetMarket : string) (relationships : list Rel) : gset string :=
  {[targetMarket]}
  ∪ list_to_set (flat_map (fun r => [market_key_a r; market_key_b r]) relationships).

(** *** The invariant of the traversal *)

Section Invariant.

Variable targetMarket initialDir : string.
Variable relationships : list Rel.

(** A queue entry was reached along edges of the graph. *)
Definition reached (e : Entry) : Prop :=
  exists es,
    Forall (fun r => In r relationships) es
    /\ linked targetMarket es
    /\ e = walk es (origin targetMarket initialDir).

(** An impact was recorded at the end of such a walk, within the depth
    bound and above the confidence threshold. *)
Definition found (imp : Impact) : Prop :=
  exists es rel,
    Forall (fun r => In r relationships) (es ++ [rel])
    /\ linked targetMarket (es ++ [rel])
    /\ (length es < MAX_DEPTH)%nat
    /\ imp = impact_of (walk es (origin targetMarket initialDir)) rel
    /\ ltb (i_confidence_score imp) MIN_PATH_CONF = false.

Definition Inv (st : Bfs) : Prop :=
  Forall found (impacts st)
  /\ Forall reached (queue st)
  /\ (forall imp, In imp (impacts st) -> i_market_key imp ∈ visited st)
  /\ NoDup (map i_market_key (impacts st))
  /\ targetMarket ∈ visited st
  /\ Forall (fun imp => i_market_key imp <> targetMarket) (impacts st)
  /\ visited st ⊆ universe targetMarket relationships.

End Invariant.

(** What the traversal guarantees of an impact: it lies at the end of a
    walk of [order] edges of the graph from the target, its path is the
    route of that walk, its cumulative confidence is the product of the
    edge confidences rounded to four decimals at every edge, and is at
    least the threshold. *)
Definition impact_sound (targetMarket initialDir : string) (relationships : list Rel)
    (imp : Impact) : Prop :=
  i_market_key imp <> targetMarket
  /\ (1 <= order imp <= MAX_DEPTH)%nat
  /\ exists es,
       Forall (fun r => In r relationships) es
       /\ linked targetMarket es
       /\ length es = order imp
       /\ path imp = route targetMarket es
       /\ i_market_key imp = end_node targetMarket es
       /\ i_direction imp = direction_along es initialDir
       /\ i_confidence_score imp = cumulative (map edgeConfidence_of es)
       /\ exists c, i_confidence_score imp = Fin c /\ 5 # 100 <= c.

(** A direction of the shock. *)
Definition is_direction (d : string) : Prop := d = "UP" \/ d = "DOWN".

(** An edge across which the direction is kept, given by its type and its
    impact direction. *)
Definition keeps_direction (edge : string * option string) : Prop :=
  fst edge = "equivalent" \/ fst edge = "implied" \/ fst edge = "implied_conditional".

(** The direction after a sequence of such edges. *)
Definition propagate_along (edges : list (string * option string)) (d : string) : string :=
  fold_left (fun dir edge => propagateDirection dir (fst edge) (snd edge)) edges d.

(** A graph with one edge whose confidence has five decimals. *)
Definition sample_edge : Rel :=
  mkRel "O" "X" "equivalent" (Some (33333 # 100000)) None None None None None
        None None None.

(** The graph of three edges O - X - Y - Z. *)
Definition sample_graph : list Rel :=
  [ mkRel "O" "X" "equivalent" (Some (9 # 10)) None None None None None None None None;
    mkRel "X" "Y" "mutually_exclusive" (Some (8 # 10)) None None None None None
          None None None;
    mkRel "Y" "Z" "correlated" (Some (5 # 10)) (Some "Negative") None None None None
          None None None ].

(** *** Persisting the report and the endpoint *)

Record AffectedEdge : Type := mkAffectedEdge {
  source : string;
  target : string;
  ae_relationship_type : string;
  ae_direction : string;
  ae_confidence_score : num
}.

(** A row of [scenario_reports]. *)
Record ReportRow : Type := mkReportRow {
  query : string;
  trigger_market : string;
  causal_chain : list Impact;
  narrative : string;
  affected_nodes : list string;
  affected_edges : list AffectedEdge;
  status : string
}.

(** The object returned by the narrative step; of an impact only its
    statement is read. *)
Record Narratives : Type := mkNarratives {
  executive_summary : option string;
  market_impacts : option (list string)
}.

Record Parse : Type := mkParse {
  target_market : string;
  assumed_change : string;
  p_direction : string
}.

Record Report : Type := mkReport {
  report_id : option string;
  user_query : string;
  r_target_market : string;
  r_assumed_change : string;
  r_direction : string;
  r_impacts : list Impact;
  narratives : Narratives
}.

Definition add_edges (imp : Impact) (acc : gset string * list AffectedEdge)
  : gset string * list AffectedEdge :=
  fold_left
    (fun '(edgeSet, affected) '(a, b) =>
       let key := a +:+ "→" +:+ b in
       if bool_decide (key ∈ edgeSet) then (edgeSet, affected)
       else ({[key]} ∪ edgeSet,
             affected ++ [ {| source := a; target := b;
                              ae_relationship_type := i_relationship_type imp;
                              ae_direction := i_direction imp;
                              ae_confidence_score := edge_confidence imp |} ]))
    (hops (path imp)) acc.

(** The row that [saveReport] inserts. *)
Definition report_row (userQuery targetMarket : string) (impacts : list Impact)
    (narratives : Narratives) : ReportRow :=
  let affected_nodes := map i_market_key impacts in
  let affected_edges := snd (fold_left (fun acc imp => add_edges imp acc) impacts (∅, [])) in
  let impactLines :=
    String.concat newline
      (match market_impacts narratives with Some l => l | None => [] end) in
  let narrative :=
    trim ((match executive_summary narratives with Some t => t | None => "" end)
          +:+ (match impactLines with
               | EmptyString => ""
               | _ => newline +:+ impactLines
               end)) in
  {| query := userQuery;
     trigger_market := targetMarket;
     causal_chain := impacts;
     narrative := narrative;
     affected_nodes := affected_nodes;
     affected_edges := affected_edges;
     status := "completed" |}.

(** The collaborators of one request.  An error is given by its message:
    it is whatever the step throws, the error of the call, of
    [extractJson], or of reading an answer that is the JSON [null].
    [insertReport] is the store's answer to the insert of [saveReport]: the
    id of the new row, or nothing when the insert is refused. *)
Record World : Type := mkWorld {
  loadMarketGraph : string + list Rel;
  parseScenario : string -> string + Parse;
  askNarratives : string -> Parse -> list Impact -> string + Narratives;
  insertReport : ReportRow -> option string
}.

Definition generateNarratives (w : World) (userQuery : string) (parsed : Parse)
    (impacts : list Impact) : string + Narratives :=
  match impacts with
  | [] =>
      inr {| executive_summary :=
               Some ("Scenario " +:+ dquote +:+ userQuery +:+ dquote +:+ " targets "
                     +:+ target_market parsed
                     +:+ ", which has no connected markets in the current relationship graph.");
             market_impacts := Some [] |}
  | _ => askNarratives w userQuery parsed impacts
  end.

(** [saveReport]: the id returned and the rows written. *)
Definition saveReport (w : World) (userQuery targetMarket : string)
    (impacts : list Impact) (narratives : Narratives)
  : option string * list ReportRow :=
  let row := report_row userQuery targetMarket impacts narratives in
  match insertReport w row with
  | Some id => (Some id, [row])
  | None => (None, [])
  end.

(** [predictScenario]: the report or the error thrown, and the rows written
    to [scenario_reports]. *)
Definition predictScenario (w : World) (userQuery : string)
  : (string + Report) * list ReportRow :=
  match loadMarketGraph w with
  | inl err => (inl err, [])
  | inr relationships =>
      match parseScenario w userQuery with
      | inl err => (inl err, [])
      | inr parsed =>
          let impacts := traverseGraph (target_market parsed) (p_direction parsed)
                                       relationships in
          match generateNarratives w userQuery parsed impacts with
          | inl err => (inl err, [])
          | inr narratives =>
              let '(reportId, rows) :=
                saveReport w userQuery (target_market parsed) impacts narratives in
              (inr {| report_id := reportId;
                      user_query := userQuery;
                      r_target_market := target_market parsed;
                      r_assumed_change := assumed_change parsed;
                      r_direction := p_direction parsed;
                      r_impacts := impacts;
                      narratives := narratives |}, rows)
          end
      end
  end.

(** The body of a request: text that is not JSON, or the JSON [null], on
    which [const { query } = JSON.parse(body)] throws (the message of the
    error), a value whose [query] is missing or not a string, or an object
    with the string [query]. *)
Inductive Body : Type :=
  | NotJson (message : string)
  | NoQuery
  | WithQuery (query : string).

Inductive Payload : Type :=
  | ErrorPayload (error : string)
  | ReportPayload (report : Report).

Record Response : Type := mkResponse { statusCode : nat; payload : Payload }.

(** The handler of [POST /api/scenario]. *)
Definition postScenario (w : World) (body : Body) : Response * list ReportRow :=
  match body with
  | NotJson message => (mkResponse 500 (ErrorPayload message), [])
  | NoQuery =>
      (mkResponse 400
         (ErrorPayload ("Request body must include a non-empty " +:+ dquote +:+ "query"
                        +:+ dquote +:+ " string.")), [])
  | WithQuery query =>
      match trim query with
      | EmptyString =>
          (mkResponse 400
             (ErrorPayload ("Request body must include a non-empty " +:+ dquote +:+ "query"
                            +:+ dquote +:+ " string.")), [])
      | q =>
          match predictScenario w q with
          | (inr report, rows) => (mkResponse 200 (ReportPayload report), rows)
          | (inl err, rows) => (mkResponse 500 (ErrorPayload err), rows)
          end
      end
  end.

(** The statuses written to [scenario_reports] while a request is served. *)
Definition statuses_written (out : Response * list ReportRow) : list string :=
  map status (snd out).

(** The life cycle of a report as the specification words it: the row is
    created pending, moves to processing, then to complete; or, when the
    scenario fails, to failed, and the response is that row. *)
Definition lifecycle_spec (out : Response * list ReportRow) : Prop :=
  match payload (fst out) with
  | ReportPayload _ => statuses_written out = ["pending"; "processing"; "complete"]
  | ErrorPayload _ => statuses_written out = ["pending"; "processing"; "failed"]
  end.

(** A world in which the analyst model is down, and one in which every
    collaborator answers. *)
Definition world_analyst_down : World :=
  {| loadMarketGraph := inr sample_graph;
     parseScenario := fun _ => inl "Connection error.";
     askNarratives := fun _ _ _ => inl "Connection error.";
     insertReport := fun _ => Some "7f9c" |}.

Definition world_up : World :=
  {| loadMarketGraph := inr sample_graph;
     parseScenario := fun _ => inr (mkParse "O" "Rates stay higher for longer" "UP");
     askNarratives := fun _ _ _ =>
       inr (mkNarratives (Some "Summary.") (Some ["[First-Order] X moves UP."]));
     insertReport := fun _ => Some "7f9c" |}.

(** The error of the first step of a scenario that throws, if any: loading
    the graph, parsing the query, writing the narrative (which is asked for
    only when there are impacts). *)
Definition scenario_failure (w : World) (userQuery : string) : option string :=
  match loadMarketGraph w with
  | inl err => Some err
  | inr relationships =>
      match parseScenario w userQuery with
      | inl err => Some err
      | inr parsed =>
          match traverseGraph (target_market parsed) (p_direction parsed)
                              relationships with
          | [] => None
          | impacts =>
              match askNarratives w userQuery parsed impacts with
              | inl err => Some err
              | inr _ => None
              end
          end
      end
  end.

(** **** Calls that may never settle *)

(** What [await] gives: the result of the call, a value or an error, or
    nothing when the promise never settles, and then nothing that follows
    the [await] runs. *)
Inductive Awaited (A : Type) : Type :=
  | Settled (a : A)
  | Unsettled.

Arguments Settled {A} a.
Arguments Unsettled {A}.

(** The calls that one request awaits. *)
Record Calls : Type := mkCalls {
  await_loadMarketGraph : Awaited (string + list Rel);
  await_parseScenario : string -> Awaited (string + Parse);
  await_askNarratives : string -> Parse -> list Impact -> Awaited (string + Narratives);
  await_insertReport : ReportRow -> Awaited (option string)
}.

(** [await predictScenario(query)] in the handler. *)
Definition awaitScenario (c : Calls) (userQuery : string) : Awaited (string + Report) :=
  match await_loadMarketGraph c with
  | Unsettled => Unsettled
  | Settled (inl err) => Settled (inl err)
  | Settled (inr relationships) =>
      match await_parseScenario c userQuery with
      | Unsettled => Unsettled
      | Settled (inl err) => Settled (inl err)
      | Settled (inr parsed) =>
          let impacts := traverseGraph (target_market parsed) (p_direction parsed)
                                       relationships in
          let narrated :=
            match impacts with
            | [] =>
                Settled
                  (inr {| executive_summary :=
                            Some ("Scenario " +:+ dquote +:+ userQuery +:+ dquote
                                  +:+ " targets " +:+ target_market parsed
                                  +:+ ", which has no connected markets in the current relationship graph.");
                          market_impacts := Some [] |})
            | _ => await_askNarratives c userQuery parsed impacts
            end in
          match narrated with
          | Unsettled => Unsettled
          | Settled (inl err) => Settled (inl err)
          | Settled (inr narratives) =>
              match await_insertReport c
                      (report_row userQuery (target_market parsed) impacts narratives) with
              | Unsettled => Unsettled
              | Settled reportId =>
                  Settled (inr {| report_id := reportId;
                                  user_query := userQuery;
                                  r_target_market := target_market parsed;
                                  r_assumed_change := assumed_change parsed;
                                  r_direction := p_direction parsed;
                                  r_impacts := impacts;
                                  narratives := narratives |})
              end
          end
      end
  end.

(** The response that the client of [POST /api/scenario] gets, if any. *)
Definition scenarioResponse (c : Calls) (body : Body) : option Response :=
  match body with
  | NotJson message => Some (mkResponse 500 (ErrorPayload message))
  | NoQuery =>
      Some (mkResponse 400
              (ErrorPayload ("Request body must include a non-empty " +:+ dquote
                             +:+ "query" +:+ dquote +:+ " string.")))
  | WithQuery query =>
      match trim query with
      | EmptyString =>
          Some (mkResponse 400
                  (ErrorPayload ("Request body must include a non-empty " +:+ dquote
                                 +:+ "query" +:+ dquote +:+ " string.")))
      | q =>
          match awaitScenario c q with
          | Settled (inr report) => Some (mkResponse 200 (ReportPayload report))
          | Settled (inl err) => Some (mkResponse 500 (ErrorPayload err))
          | Unsettled => None
          end
      end
  end.

(** The calls of a world, all of which settle. *)
Definition settled (w : World) : Calls :=
  {| await_loadMarketGraph := Settled (loadMarketGraph w);
     await_parseScenario := fun q => Settled (parseScenario w q);
     await_askNarratives := fun q parsed impacts => Settled (askNarratives w q parsed impacts);
     await_insertReport := fun row => Settled (insertReport w row) |}.

(** A call awaited for the query [q] never settles. *)
Definition awaits_unsettled (c : Calls) (q : string) : Prop :=
  await_loadMarketGraph c = Unsettled
  \/ await_parseScenario c q = Unsettled
  \/ (exists parsed impacts, await_askNarratives c q parsed impacts = Unsettled)
  \/ (exists row, query row = q /\ await_insertReport c row = Unsettled).

(** The calls of [world_up], but for the parse of the query, which never
    settles. *)
Definition calls_parse_silent : Calls :=
  {| await_loadMarketGraph := Settled (inr sample_graph);
     await_parseScenario := fun _ => Unsettled;
     await_askNarratives := fun q parsed impacts =>
       Settled (askNarratives world_up q parsed impacts);
     await_insertReport := fun row => Settled (insertReport world_up row) |}.

(** *** The tree of the impacts, directions, confidences, the report *)

(** The queue entry pushed together with an impact. *)
Definition entry_of (imp : Impact) : Entry :=
  {| marketKey := i_market_key imp;
     direction := i_direction imp;
     depth := order imp;
     e_path := path imp;
     pathConfidence := i_confidence_score imp |}.

(** An entry of the queue: the origin, or the entry of an impact. *)
Definition from_impacts (targetMarket initialDir : string) (imps : list Impact)
    (e : Entry) : Prop :=
  e = origin targetMarket initialDir \/ exists p, In p imps /\ e = entry_of p.

(** An impact was recorded from such an entry across an edge of the graph. *)
Definition grown (targetMarket initialDir : string) (relationships : list Rel)
    (imps : list Impact) (imp : Impact) : Prop :=
  exists e rel,
    from_impacts targetMarket initialDir imps e
    /\ In rel relationships
    /\ touches (marketKey e) rel = true
    /\ (depth e < MAX_DEPTH)%nat
    /\ imp = impact_of e rel.

Definition Tree (targetMarket initialDir : string) (relationships : list Rel)
    (st : Bfs) : Prop :=
  Forall (from_impacts targetMarket initialDir (impacts st)) (queue st)
  /\ Forall (grown targetMarket initialDir relationships (impacts st)) (impacts st).

(** The impacts by falling confidence. *)
Definition falling (a b : Impact) : Prop :=
  exists x y, i_confidence_score a = Fin x /\ i_confidence_score b = Fin y /\ y <= x.

(** Whether an edge turns the direction round. *)
Definition flips (rel : Rel) : bool :=
  String.eqb (relationship_type rel) "mutually_exclusive"
  || (String.eqb (relationship_type rel) "correlated"
      && match impact_direction rel with
         | Some d => String.eqb d "Negative"
         | None => false
         end).

Definition flip_count (es : list Rel) : nat := length (List.filter flips es).

(** The confidence of an edge as a rational, and the exact product along
    edges. *)
Definition confidence_of (rel : Rel) : Q :=
  match confidence_score rel with Some c => c | None => 1 # 2 end.

Definition unit_confidence (rel : Rel) : Prop := 0 <= confidence_of rel <= 1.

Definition exact_product (es : list Rel) : Q :=
  fold_left (fun acc rel => acc * confidence_of rel) es 1.

(** The two ends of an affected edge, and the text under which
    [saveReport] remembers it. *)
Definition edge_pair (e : AffectedEdge) : string * string := (source e, target e).

Definition edge_key (h : string * string) : string := fst h +:+ "→" +:+ snd h.

(** Sample data: the first edge of the sample graph, the impact it gives
    from O shocked UP, and a world whose target has no relationship. *)
Definition sample_first : Rel :=
  mkRel "O" "X" "equivalent" (Some (9 # 10)) None None None None None None None None.

Definition sample_impact : Impact := impact_of (origin "O" "UP") sample_first.

Definition world_isolated : World :=
  {| loadMarketGraph := inr sample_graph;
     parseScenario := fun _ => inr (mkParse "Q" "Quotas are lifted" "UP");
     askNarratives := fun _ _ _ => inl "Connection error.";
     insertReport := fun _ => Some "7f9c" |}.

End Scenario.

(* ===================================================================== *)
(** ** The scenario function of the frontend and the listener of the
    dashboard *)
(* ===================================================================== *)

Module EdgeFunction.

(** A row of [scenario_reports] as the function writes it; the columns it
    leaves out of a write keep the defaults of the table. *)
Record Row : Type := mkRow {
  query : string;
  trigger_market : string;
  causal_chain : list string;
  narrative : option string;
  affected_nodes : list string;
  affected_edges : list (string * string);
  status : string
}.

(** The object parsed from the answer of the model; of an item of the
    causal chain only its market key is kept. *)
Record Analysis : Type := mkAnalysis {
  a_trigger_market : option string;
  a_causal_chain : option (list string);
  a_narrative : option string;
  a_affected_edges : option (list (string * string))
}.

(** The body of a request: text that is not JSON, or the JSON [null], on
    which [const { query } = await req.json()] throws (with the message of
    the error), a value whose [query] is missing or not a string, or an
    object with the string [query]. *)
Inductive Body : Type :=
  | NotJson (message : string)
  | NoQuery
  | WithQuery (query : string).

(** The body of a response: an error, the report, or the JSON [null]. *)
Inductive Payload : Type :=
  | ErrorPayload (error : string)
  | ReportPayload (report : Row)
  | NullPayload.

Record Response : Type := mkResponse { statusCode : nat; payload : Payload }.

(** The collaborators of one request; an error is given by its message.
    [analyse] stands for the call of the gateway, the parsing of its answer
    and the reading of the object parsed: its error is whatever is thrown
    between the fetch of the graph and the update.  [selectRow] tells
    whether the final select of the row answers with the row; its error is
    not read by the function, which then has [null] for the report.  The
    function is the only writer of the row. *)
Record World : Type := mkWorld {
  insertRow : Row -> string + string;
  fetchRelationships : option string;
  fetchMetadata : option string;
  analyse : string -> string + Analysis;
  updateRow : string -> Row -> option string;
  selectRow : string -> bool
}.

Definition or_empty {A : Type} (x : option (list A)) : list A :=
  match x with Some l => l | None => [] end.

Definition or_text (x : option string) : string :=
  match x with Some s => s | None => "" end.

(** The handler of the function: the response, and the states the row goes
    through in the table. *)
Definition serve (w : World) (body : Body) : Response * list Row :=
  match body with
  | NotJson message => (mkResponse 500 (ErrorPayload message), [])
  | NoQuery => (mkResponse 400 (ErrorPayload "Missing 'query' field"), [])
  | WithQuery "" => (mkResponse 400 (ErrorPayload "Missing 'query' field"), [])
  | WithQuery query =>
      let created := mkRow query "" [] None [] [] "processing" in
      match insertRow w created with
      | inl err => (mkResponse 500 (ErrorPayload err), [])
      | inr reportId =>
          match fetchRelationships w with
          | Some err => (mkResponse 500 (ErrorPayload err), [created])
          | None =>
              match fetchMetadata w with
              | Some err => (mkResponse 500 (ErrorPayload err), [created])
              | None =>
                  match analyse w query with
                  | inl err => (mkResponse 500 (ErrorPayload err), [created])
                  | inr parsed =>
                      let updated :=
                        mkRow query
                              (or_text (a_trigger_market parsed))
                              (or_empty (a_causal_chain parsed))
                              (Some (or_text (a_narrative parsed)))
                              (or_empty (a_causal_chain parsed))
                              (or_empty (a_affected_edges parsed))
                              "complete" in
                      match updateRow w reportId updated with
                      | Some err => (mkResponse 500 (ErrorPayload err), [created])
                      | None =>
                          let finalReport :=
                            if selectRow w reportId then ReportPayload updated
                            else NullPayload in
                          (mkResponse 200 finalReport, [created; updated])
                      end
                  end
              end
          end
      end
  end.

(** The listener of the dashboard, on an INSERT or an UPDATE of a row: the
    report shown afterwards. *)
Definition onChange {R : Type} (status : R -> string) (report : option R) (row : R)
  : option R :=
  if String.eqb (status row) "complete" then Some row else report.

(** The report shown after the changes of a row. *)
Definition shown {R : Type} (status : R -> string) (changes : list R) (report : option R)
  : option R :=
  fold_left (onChange status) changes report.

End EdgeFunction.

(* ===================================================================== *)
(** * Properties *)
(* ===================================================================== *)

(** ** Facts about numbers *)

Module JsNumFacts.
Import JsNum.

(** Computation on numbers that leaves the rationals alone, but for the
    comparisons of constants. *)
Ltac qconst_step :=
  match goal with
  | |- context [Qeq_bool ?a ?b] =>
      let v := eval vm_compute in (Qeq_bool a b) in
      match v with
      | true => change (Qeq_bool a b) with true
      | false => change (Qeq_bool a b) with false
      end
  | |- context [Qltb ?a ?b] =>
      let v := eval vm_compute in (Qltb a b) in
      match v with
      | true => change (Qltb a b) with true
      | false => change (Qltb a b) with false
      end
  | |- context [Qcompare ?a ?b] =>
      let v := eval vm_compute in (Qcompare a b) in
      match v with
      | Eq => change (Qcompare a b) with Eq
      | Lt => change (Qcompare a b) with Lt
      | Gt => change (Qcompare a b) with Gt
      end
  end.

Ltac ncbn :=
  cbn -[Qplus Qminus Qmult Qopp Qdiv Qinv Qfloor inject_Z Qltb Qeq_bool Qabs
        Qcompare Qred Qle_bool].

Ltac nsimpl := ncbn; repeat (qconst_step; ncbn).

Lemma div_fin x y : Qeq_bool y 0 = false -> div (Fin x) (Fin y) = Fin (x / y).
Proof. intros H. unfold div. rewrite H. reflexivity. Qed.

Lemma mul_pinf x : Qltb 0 x = true -> mul PInf (Fin x) = PInf.
Proof.
  unfold Qltb. intros H. unfold mul, signed_inf.
  rewrite <- Qcompare_antisym. destruct (0 ?= x); try discriminate. reflexivity.
Qed.

Lemma mul_ninf x : Qltb 0 x = true -> mul NInf (Fin x) = NInf.
Proof.
  unfold Qltb. intros H. unfold mul, signed_inf.
  rewrite <- Qcompare_antisym. destruct (0 ?= x); try discriminate. reflexivity.
Qed.

Lemma Qltb_lt x y : Qltb x y = true <-> x < y.
Proof.
  unfold Qltb. rewrite Qlt_alt. destruct (x ?= y); split; congruence.
Qed.

Lemma Qltb_ge x y : Qltb x y = false <-> y <= x.
Proof.
  unfold Qltb. destruct (x ?= y) eqn:E; split; intros H; try congruence.
  - apply Qeq_alt in E. rewrite E. apply Qle_refl.
  - apply Qlt_alt in E. exfalso. exact (Qlt_not_le _ _ E H).
  - apply Qgt_alt in E. apply Qlt_le_weak. exact E.
Qed.

Lemma Qeq_bool_false x y : Qeq_bool x y = false <-> ~ x == y.
Proof.
  split.
  - intros H E. apply Qeq_bool_iff in E. congruence.
  - intros H. destruct (Qeq_bool x y) eqn:E; [| reflexivity].
    apply Qeq_bool_iff in E. contradiction.
Qed.

Lemma truthy_fin x : truthy (Fin x) = true <-> ~ x == 0.
Proof.
  simpl. rewrite negb_true_iff. apply Qeq_bool_false.
Qed.

(** The clamp of the score: whatever is not NaN lands in [0, 100]. *)
Lemma clamp_0_100 a :
  a <> NaN ->
  exists c, Math_min (Math_max a (Fin 0)) (Fin 100) = Fin c /\ 0 <= c <= 100.
Proof.
  intros Hn. destruct a as [| |x|]; [congruence | | |].
  - exists 0. split; [reflexivity | lra].
  - simpl. destruct (Qltb x 0) eqn:E0; simpl.
    + exists 0. split; [reflexivity | lra].
    + apply Qltb_ge in E0. destruct (Qltb 100 x) eqn:E1.
      * exists 100. split; [reflexivity | lra].
      * apply Qltb_ge in E1. exists x. split; [reflexivity | lra].
  - exists 100. split; [reflexivity | lra].
Qed.

Lemma round_between (lo hi : Z) c :
  inject_Z lo <= c <= inject_Z hi ->
  (lo <= Qfloor (c + (1 # 2)) <= hi)%Z.
Proof.
  intros [Hlo Hhi]. split.
  - rewrite <- (Qfloor_Z lo). apply Qfloor_resp_le. lra.
  - assert (H : (Qfloor (c + (1 # 2)) < hi + 1)%Z).
    { rewrite Zlt_Qlt. eapply Qle_lt_trans; [apply Qfloor_le |].
      rewrite inject_Z_plus. change (inject_Z 1) with 1. lra. }
    lia.
Qed.

End JsNumFacts.

(** ** The aggregator *)

Module AggregatorFacts.
Import JsNum JsNumFacts Aggregator.

Section WithLog10.

Variable log10 : Q -> Q.

Local Abbreviation Math_log10 := (Math_log10 log10).
Local Abbreviation depth_component := (depth_component log10).
Local Abbreviation calculateUnifiedConfidence := (calculateUnifiedConfidence log10).
Local Abbreviation normalizePolymarketTrade := (normalizePolymarketTrade log10).
Local Abbreviation normalizeKalshiTrade := (normalizeKalshiTrade log10).
Local Abbreviation normalizeKalshiTicker := (normalizeKalshiTicker log10).
Local Abbreviation onFrame := (onFrame log10).
Local Abbreviation run_from := (run_from log10).
Local Abbreviation emitted := (emitted log10).
Local Abbreviation cache_after := (cache_after log10).
Local Abbreviation quote_ok := (quote_ok log10).
Local Abbreviation record_ok := (record_ok log10).

Lemma normProb_range raw :
  exists p, normProb raw = Fin p /\ 0 <= p <= 1.
Proof.
  unfold normProb. destruct raw as [[| |x|]|]; nsimpl.
  - exists 0. split; [reflexivity | lra].
  - exists 0. split; [reflexivity | lra].
  - destruct (Qltb 1 x) eqn:E1.
    + apply Qltb_lt in E1. nsimpl.
      destruct (Qltb 1 (x / 100)) eqn:E2.
      * exists 1. split; [reflexivity | lra].
      * apply Qltb_ge in E2. exists (x / 100). split; [reflexivity |].
        split; [| exact E2]. apply Qle_shift_div_l; lra.
    + apply Qltb_ge in E1. nsimpl.
      destruct (Qltb 0 x) eqn:E0.
      * apply Qltb_lt in E0. exists x. split; [reflexivity | lra].
      * exists 0. split; [reflexivity | lra].
  - exists 1. split; [reflexivity | lra].
  - exists 0. split; [reflexivity | lra].
Qed.

Lemma normProb_percent r :
  1 < r -> num_eq (normProb (Some (Fin r))) (Fin (Qmax 0 (Qmin (r / 100) 1))).
Proof.
  intros Hr. unfold normProb. nsimpl.
  rewrite (proj2 (Qltb_lt 1 r) Hr). nsimpl.
  assert (Hpos : 0 < r / 100) by (apply Qlt_shift_div_l; lra).
  destruct (Qltb 1 (r / 100)) eqn:E; nsimpl.
  - apply Qltb_lt in E.
    rewrite (Q.min_r (r / 100) 1) by lra. rewrite Q.max_r by lra. reflexivity.
  - apply Qltb_ge in E.
    rewrite (Q.min_l (r / 100) 1) by lra. rewrite Q.max_r by lra. reflexivity.
Qed.

Lemma depth_component_fin depth : exists x, depth_component depth = Fin x.
Proof.
  unfold Aggregator.depth_component. destruct depth as [| |x|]; nsimpl; eauto.
  destruct (Qltb 0 x) eqn:E; nsimpl; [| eauto].
  destruct (Qltb 60 (log10 x * 10)); eauto.
Qed.

Lemma spread_component_cases sp :
  sp <> Some NaN ->
  (exists x, spread_component sp = Fin x) \/ spread_component sp = PInf.
Proof.
  intros Hn. destruct sp as [[| |x|]|]; nsimpl; eauto; [congruence |].
  left. destruct (Qltb 0 (40 + - (x * 2))); eauto.
Qed.

Lemma score_is_round depth sp :
  calculateUnifiedConfidence depth sp =
  Math_round (Math_min (Math_max (add (depth_component depth) (spread_component sp))
                                 (Fin 0)) (Fin 100)).
Proof. reflexivity. Qed.

Lemma score_bounded depth sp :
  sp <> Some NaN ->
  exists z, calculateUnifiedConfidence depth sp = Fin (inject_Z z) /\ (0 <= z <= 100)%Z.
Proof.
  intros Hn. rewrite score_is_round.
  destruct (depth_component_fin depth) as [d Hd]. rewrite Hd.
  assert (Hsum : add (Fin d) (spread_component sp) <> NaN).
  { destruct (spread_component_cases sp Hn) as [[x Hx] | Hx]; rewrite Hx; discriminate. }
  destruct (clamp_0_100 _ Hsum) as [c [Hc Hr]]. rewrite Hc. nsimpl.
  eexists. split; [reflexivity |]. apply round_between. exact Hr.
Qed.

(** A spread that is NaN makes the score NaN, whatever the depth, and no
    flag is raised. *)
Remark score_of_nan_spread depth :
  calculateUnifiedConfidence depth (Some NaN) = NaN
  /\ flag_of (calculateUnifiedConfidence depth (Some NaN)) = None.
Proof.
  assert (H : calculateUnifiedConfidence depth (Some NaN) = NaN).
  { rewrite score_is_round. destruct (depth_component_fin depth) as [d ->]. reflexivity. }
  rewrite H. split; reflexivity.
Qed.

Lemma score_depth_zero sp :
  spread_known_nonneg sp ->
  exists z, calculateUnifiedConfidence (Fin 0) sp = Fin (inject_Z z) /\ (0 <= z <= 40)%Z.
Proof.
  intros [-> | [t [-> Ht]]]; rewrite score_is_round.
  - exists 20%Z. split; [reflexivity | lia].
  - nsimpl. destruct (Qltb 0 (40 + - (t * 2))) eqn:E; nsimpl.
    + apply Qltb_lt in E. change (depth_component (Fin 0)) with (Fin 0). nsimpl.
      assert (H0 : Qltb (0 + (40 + - (t * 2))) 0 = false) by (apply Qltb_ge; lra).
      rewrite H0. nsimpl.
      assert (H1 : Qltb 100 (0 + (40 + - (t * 2))) = false) by (apply Qltb_ge; lra).
      rewrite H1. nsimpl. eexists. split; [reflexivity |].
      apply round_between. change (inject_Z 0) with 0. change (inject_Z 40) with 40. lra.
    + exists 0%Z. split; [reflexivity | lia].
Qed.

Lemma flag_of_score z :
  flag_of (Fin (inject_Z z)) = Some LOW_CONFIDENCE <-> (z < 50)%Z.
Proof.
  unfold flag_of. nsimpl. destruct (Qltb (inject_Z z) 50) eqn:E.
  - apply Qltb_lt in E. change 50 with (inject_Z 50) in E. rewrite <- Zlt_Qlt in E.
    split; auto.
  - apply Qltb_ge in E. change 50 with (inject_Z 50) in E. rewrite <- Zle_Qle in E.
    split; [discriminate | lia].
Qed.

Lemma spread_nonneg_not_nan sp : spread_known_nonneg sp -> sp <> Some NaN.
Proof. intros [-> | [t [-> _]]]; discriminate. Qed.

(** The score is NaN exactly when the spread is. *)
Lemma score_nan_iff depth sp :
  calculateUnifiedConfidence depth sp = NaN <-> sp = Some NaN.
Proof.
  split.
  - intros H. destruct sp as [[| |x|]|]; try reflexivity;
      exfalso;
      [destruct (score_bounded depth (Some NInf)) as (z & Hz & _)
      |destruct (score_bounded depth (Some (Fin x))) as (z & Hz & _)
      |destruct (score_bounded depth (Some PInf)) as (z & Hz & _)
      |destruct (score_bounded depth None) as (z & Hz & _)];
      try discriminate; congruence.
  - intros ->. apply score_of_nan_spread.
Qed.

Lemma flag_of_cases z :
  (flag_of (Fin (inject_Z z)) = Some LOW_CONFIDENCE <-> (z < 50)%Z)
  /\ (flag_of (Fin (inject_Z z)) = None <-> (50 <= z)%Z).
Proof.
  pose proof (flag_of_score z) as Hf. split; [exact Hf |].
  destruct (flag_of (Fin (inject_Z z))) as [s |] eqn:E.
  - split; [discriminate |]. intros Hge.
    assert (Hs : Some s = Some LOW_CONFIDENCE).
    { unfold flag_of in E. destruct (ltb _ _); congruence. }
    apply Hf in Hs. lia.
  - split; [| reflexivity]. intros _.
    destruct (Z_lt_le_dec z 50) as [Hlt | Hge]; [| lia].
    apply Hf in Hlt. discriminate.
Qed.

(** Every record, whatever the frames carry: the price, the score and the
    flag are computed as the normalisers write them. *)
Lemma poly_quote_ok cache msg : quote_ok (normalizePolymarketTrade cache msg).
Proof.
  split; [apply normProb_range |]. split; [reflexivity |]. split; reflexivity.
Qed.

Lemma kalshi_trade_quote_ok cache msg : quote_ok (normalizeKalshiTrade cache msg).
Proof.
  split; [apply normProb_range |]. split; [reflexivity |]. split; reflexivity.
Qed.

Lemma kalshi_ticker_quote_ok cache msg :
  quote_ok (snd (normalizeKalshiTicker cache msg)).
Proof.
  split; [apply normProb_range |]. split; [reflexivity |]. split; reflexivity.
Qed.

Lemma onFrame_quotes cache f : Forall quote_ok (snd (onFrame cache f)).
Proof.
  destruct f as [msg | data]; cbn [Aggregator.onFrame].
  - unfold polymarketOnMessage.
    destruct (str_in _ ["trade"; "last_trade_price"; "price_change"; "best_bid_ask"]%string).
    + cbn [snd]. destruct (gtb _ _); constructor; [| constructor].
      apply poly_quote_ok.
    + destruct (str_in _ ["book"; "book_snapshot"]%string); constructor.
  - unfold kalshiOnMessage.
    destruct (str_in (km_type data) ["trade"]%string).
    + cbn [snd]. destruct (_ || _); constructor; [| constructor].
      apply kalshi_trade_quote_ok.
    + destruct (str_in (km_type data) ["ticker"]%string); [| constructor].
      pose proof (kalshi_ticker_quote_ok cache data) as H.
      destruct (normalizeKalshiTicker cache data) as [cache' record].
      constructor; [exact H | constructor].
Qed.

Lemma run_from_quotes frames : forall cache,
  Forall quote_ok (snd (run_from cache frames)).
Proof.
  induction frames as [| f rest IH]; intros cache; cbn [Aggregator.run_from];
    [constructor |].
  pose proof (onFrame_quotes cache f) as H1.
  destruct (onFrame cache f) as [cache' out]. cbn [snd] in H1.
  specialize (IH cache').
  destruct (run_from cache' rest) as [cache'' outs]. cbn [snd] in *.
  apply Forall_app. split; assumption.
Qed.

Lemma emitted_quote_ok frames q : In q (emitted frames) -> quote_ok q.
Proof.
  intros Hin. pose proof (run_from_quotes frames ∅) as H.
  rewrite Forall_forall in H. apply H, list_elem_of_In. exact Hin.
Qed.

(** The score of a record is NaN when its spread is NaN, and no flag is then
    raised; otherwise it is an integer between 0 and 100, with the flag
    exactly below 50. *)
Lemma score_nan_or_bounded q :
  quote_ok q ->
  (bid_ask_spread_pct q = Some NaN
   /\ liquidity_score q = NaN /\ confidence_flag q = None)
  \/ (bid_ask_spread_pct q <> Some NaN
      /\ exists z,
           liquidity_score q = Fin (inject_Z z)
           /\ (0 <= z <= 100)%Z
           /\ (confidence_flag q = Some LOW_CONFIDENCE <-> (z < 50)%Z)
           /\ (confidence_flag q = None <-> (50 <= z)%Z)).
Proof.
  intros (_ & _ & Hscore & Hflag).
  destruct (bid_ask_spread_pct q) as [[| |x|]|] eqn:Esp.
  1:{ left. split; [reflexivity |].
      destruct (score_of_nan_spread (liquidity_depth_usd q)) as [H1 H2].
      rewrite Hflag, Hscore. auto. }
  all: right; split; [discriminate |];
    match type of Hscore with
    | _ = Aggregator.calculateUnifiedConfidence _ ?d ?sp =>
        destruct (score_bounded d sp) as (z & Hz & Hr); [discriminate |]
    end;
    exists z; rewrite Hflag, Hscore, Hz;
    split; [reflexivity |]; split; [exact Hr |]; apply flag_of_cases.
Qed.

(** *** Frames that carry finite numbers *)

(** The relative spread of a book with both sides present is never NaN. *)
Lemma poly_spread_not_nan b a :
  no_infinity b -> no_infinity a -> truthy b && truthy a = true ->
  mul (div (sub a b) (div (add a b) (Fin 2))) (Fin 100) <> NaN.
Proof.
  intros Hb Ha Ht. apply andb_true_iff in Ht as [Tb Ta].
  destruct b as [| |x|]; try discriminate; try contradiction.
  destruct a as [| |y|]; try discriminate; try contradiction.
  apply truthy_fin in Tb. apply truthy_fin in Ta.
  nsimpl. destruct (Qeq_bool ((y + x) / 2) 0) eqn:E.
  - apply Qeq_bool_iff in E.
    assert (Hn : ~ y + - x == 0).
    { intros H. apply Ta.
      assert (H2 : y + x == 0).
      { assert (Hd : y + x == (y + x) / 2 * 2) by field. rewrite Hd, E. ring. }
      lra. }
    unfold signed_inf. destruct (y + - x ?= 0) eqn:C.
    + apply Qeq_alt in C. contradiction.
    + nsimpl. discriminate.
    + nsimpl. discriminate.
  - nsimpl. discriminate.
Qed.

(** The relative spread of a ticker: a number that is not negative. *)
Lemma kalshi_pct_nonneg s m :
  0 <= s -> gtb (Fin m) (Fin 0) = true ->
  exists t, mul (div (Fin s) (Fin m)) (Fin 100) = Fin t /\ 0 <= t.
Proof.
  intros Hs Hm. unfold gtb in Hm. cbn [ltb] in Hm. apply Qltb_lt in Hm.
  rewrite div_fin by (apply Qeq_bool_false; lra).
  eexists. split; [reflexivity |].
  apply Qmult_le_0_compat; [| lra].
  apply Qle_shift_div_l; lra.
Qed.

Lemma cache_ok_empty : cache_ok ∅.
Proof. intros k e H. rewrite lookup_empty in H. discriminate. Qed.

Lemma cache_ok_insert cache k e :
  cache_ok cache -> entry_ok e -> cache_ok (<[k := e]> cache).
Proof.
  intros Hc He k' e' H. destruct (decide (k = k')) as [-> | Hne].
  - rewrite lookup_insert_eq in H. congruence.
  - rewrite lookup_insert_ne in H by exact Hne. eauto.
Qed.

Lemma getPrice_no_infinity e : level_finite e -> no_infinity (getPrice e).
Proof.
  intros [Hp _]. unfold getPrice. destruct (lv_price e) as [[| |x|]|];
    try exact I; contradiction.
Qed.

Lemma finite_field_value (x : Field) :
  finite_field x -> exists v, nullish x (Fin 0) = Fin v.
Proof. destruct x as [[| |v|]|]; intros H; try contradiction; cbn; eauto. Qed.

Lemma poly_spread_ok cache msg :
  cache_ok cache ->
  bid_ask_spread_pct (normalizePolymarketTrade cache msg) <> Some NaN.
Proof.
  intros Hc. unfold Aggregator.normalizePolymarketTrade. cbn [bid_ask_spread_pct].
  set (state := cache_get cache _).
  destruct (truthy (nullish (state_bestBid state) (Fin 0))
            && truthy (nullish (state_bestAsk state) (Fin 0))) eqn:Ht;
    [| discriminate].
  intros H. injection H as H. revert H. apply poly_spread_not_nan; [| | exact Ht].
  - destruct state as [[d b a | ? ? ? ?]|] eqn:Es; cbn; try exact I.
    assert (He : entry_ok (PolyState d b a)).
    { unfold state, cache_get in Es.
      destruct (or_else (pm_asset_id msg) (pm_market msg)); [eauto | discriminate]. }
    apply He.
  - destruct state as [[d b a | ? ? ? ?]|] eqn:Es; cbn; try exact I.
    assert (He : entry_ok (PolyState d b a)).
    { unfold state, cache_get in Es.
      destruct (or_else (pm_asset_id msg) (pm_market msg)); [eauto | discriminate]. }
    apply He.
Qed.

Lemma kalshi_trade_spread cache msg :
  cache_ok cache ->
  spread_known_nonneg (bid_ask_spread_pct (normalizeKalshiTrade cache msg)).
Proof.
  intros Hc. unfold Aggregator.normalizeKalshiTrade. cbn [bid_ask_spread_pct].
  set (ticker := nullish (km_market_ticker msg) _).
  destruct (cache !! ticker) as [[d b a | yb ya sp v]|] eqn:Es;
    cbn [state_spread state_yesBid state_yesAsk]; try (left; reflexivity).
  destruct (Hc _ _ Es) as (Hb & Ha & s & -> & Hs).
  destruct yb as [| |b|]; try contradiction.
  destruct ya as [| |a|]; try contradiction.
  cbn [truthy_opt nullish].
  destruct (truthy (Fin b) && truthy (Fin a)).
  - cbn [add]. rewrite div_fin by reflexivity.
    destruct (gtb (Fin ((b + a) / 2)) (Fin 0)) eqn:Hm; [| left; reflexivity].
    right. destruct (kalshi_pct_nonneg s _ Hs Hm) as [t [Ht H0]].
    exists t. rewrite Ht. auto.
  - left. reflexivity.
Qed.

Lemma kalshi_trade_ok cache msg :
  cache_ok cache ->
  quote_ok (normalizeKalshiTrade cache msg) /\ kalshi_ok (normalizeKalshiTrade cache msg).
Proof.
  intros Hc. pose proof (kalshi_trade_spread cache msg Hc) as Hs.
  split; [apply kalshi_trade_quote_ok | split; [reflexivity | exact Hs]].
Qed.

Lemma kalshi_ticker_ok cache msg :
  finite_field (km_yes_bid msg) -> finite_field (km_yes_ask msg) ->
  cache_ok cache ->
  cache_ok (fst (normalizeKalshiTicker cache msg))
  /\ quote_ok (snd (normalizeKalshiTicker cache msg))
  /\ kalshi_ok (snd (normalizeKalshiTicker cache msg)).
Proof.
  intros Hfb Hfa Hc.
  split; [| split; [apply kalshi_ticker_quote_ok |]];
    unfold Aggregator.normalizeKalshiTicker; cbn [fst snd]; cbn [parseFloat];
    destruct (finite_field_value _ Hfb) as [b Eb];
    destruct (finite_field_value _ Hfa) as [a Ea]; rewrite Eb, Ea;
    assert (Hsp : exists s, Math_max (sub (Fin a) (Fin b)) (Fin 0) = Fin s /\ 0 <= s)
      by (nsimpl; destruct (Qltb (a + - b) 0) eqn:E;
          [exists 0; split; [reflexivity | lra]
          | apply Qltb_ge in E; eauto]);
    destruct Hsp as (s & Hs & Hs0); rewrite Hs.
  - apply cache_ok_insert; [exact Hc |]. cbn. repeat split; eauto.
  - assert (Hmid : exists m,
               (if truthy (Fin b) && truthy (Fin a)
                then div (add (Fin b) (Fin a)) (Fin 2)
                else if truthy (Fin b) then Fin b else Fin a) = Fin m).
    { destruct (truthy (Fin b) && truthy (Fin a)).
      - cbn [add]. rewrite div_fin by reflexivity. eauto.
      - destruct (truthy (Fin b)); eauto. }
    destruct Hmid as (m & Hm). rewrite Hm.
    split; [reflexivity |]. cbn [bid_ask_spread_pct].
    destruct (gtb (Fin m) (Fin 0)) eqn:G; [| left; reflexivity].
    right. destruct (kalshi_pct_nonneg s m Hs0 G) as [t [Ht H0]].
    exists t. rewrite Ht. auto.
Qed.

Lemma onFrame_inv cache f :
  frame_finite f -> cache_ok cache ->
  cache_ok (fst (onFrame cache f)) /\ Forall record_ok (snd (onFrame cache f)).
Proof.
  intros Hf Hc. destruct f as [msg | data]; cbn [Aggregator.onFrame].
  - destruct Hf as (_ & _ & _ & _ & Hbids & Hasks). unfold polymarketOnMessage.
    destruct (str_in _ ["trade"; "last_trade_price"; "price_change"; "best_bid_ask"]%string).
    + cbn [fst snd]. split; [exact Hc |].
      destruct (gtb _ _); constructor; [| constructor].
      split; [apply poly_quote_ok |].
      split; [apply poly_spread_ok; exact Hc | discriminate].
    + destruct (str_in _ ["book"; "book_snapshot"]%string); cbn [fst snd];
        [| split; [exact Hc | constructor]].
      split; [| constructor].
      destruct (truthy_str _); [| exact Hc].
      apply cache_ok_insert; [exact Hc |]. cbn.
      split; [destruct Hbids | destruct Hasks];
        try exact I; apply getPrice_no_infinity; assumption.
  - destruct Hf as (_ & _ & _ & Hfb & Hfa & _). unfold kalshiOnMessage.
    destruct (str_in (km_type data) ["trade"]%string).
    + cbn [fst snd]. split; [exact Hc |].
      destruct (kalshi_trade_ok cache data Hc) as [Hq Hk].
      destruct (_ || _); constructor; [| constructor].
      split; [exact Hq |].
      split; [apply spread_nonneg_not_nan, Hk | auto].
    + destruct (str_in (km_type data) ["ticker"]%string);
        [| split; [exact Hc | constructor]].
      destruct (kalshi_ticker_ok cache data Hfb Hfa Hc) as (H1 & H2 & H3).
      destruct (normalizeKalshiTicker cache data) as [cache' record].
      cbn [fst snd] in *. split; [exact H1 |].
      constructor; [| constructor].
      split; [exact H2 |].
      split; [apply spread_nonneg_not_nan, H3 | auto].
Qed.

Lemma run_from_inv frames :
  Forall frame_finite frames -> forall cache,
  cache_ok cache ->
  cache_ok (fst (run_from cache frames)) /\ Forall record_ok (snd (run_from cache frames)).
Proof.
  induction 1 as [| f rest Hf _ IH]; intros cache Hc; cbn [Aggregator.run_from].
  - split; [exact Hc | constructor].
  - destruct (onFrame_inv cache f Hf Hc) as [H1 H2].
    destruct (onFrame cache f) as [cache' out]. cbn [fst snd] in *.
    destruct (IH cache' H1) as [H3 H4].
    destruct (run_from cache' rest) as [cache'' outs]. cbn [fst snd] in *.
    split; [exact H3 |]. apply Forall_app. split; assumption.
Qed.

Lemma emitted_ok frames q :
  Forall frame_finite frames -> In q (emitted frames) -> record_ok q.
Proof.
  intros Hf Hin. destruct (run_from_inv frames Hf ∅ cache_ok_empty) as [_ H].
  rewrite Forall_forall in H. apply H.
  apply list_elem_of_In. exact Hin.
Qed.

Lemma cache_after_ok frames :
  Forall frame_finite frames -> cache_ok (cache_after frames).
Proof. intros Hf. apply (run_from_inv frames Hf ∅ cache_ok_empty). Qed.

(** On frames that carry finite numbers the score of every record is an
    integer between 0 and 100, with the flag exactly below 50. *)
Lemma score_on_numbers frames q :
  Forall frame_finite frames ->
  In q (emitted frames) ->
  exists z,
    liquidity_score q = Fin (inject_Z z)
    /\ (0 <= z <= 100)%Z
    /\ (confidence_flag q = Some LOW_CONFIDENCE <-> (z < 50)%Z)
    /\ (confidence_flag q = None <-> (50 <= z)%Z).
Proof.
  intros Hf Hin. destruct (emitted_ok frames q Hf Hin) as (Hq & Hsp & _).
  destruct (score_nan_or_bounded q Hq) as [[H _] | [_ H]]; [contradiction | exact H].
Qed.

(** On such frames a record of the ticker venue has a score of 40 at most
    and carries the flag. *)
Lemma ticker_venue_on_numbers frames data q :
  Forall frame_finite frames -> frame_finite (FromKalshi data) ->
  q = normalizeKalshiTrade (cache_after frames) data
  \/ q = snd (normalizeKalshiTicker (cache_after frames) data) ->
  liquidity_depth_usd q = Fin 0
  /\ (exists z, liquidity_score q = Fin (inject_Z z) /\ (0 <= z <= 40)%Z)
  /\ confidence_flag q = Some LOW_CONFIDENCE.
Proof.
  intros Hf Hd Hq. pose proof (cache_after_ok frames Hf) as Hc.
  assert (H : quote_ok q /\ kalshi_ok q).
  { destruct Hq as [-> | ->].
    - apply kalshi_trade_ok. exact Hc.
    - destruct Hd as (_ & _ & _ & Hfb & Hfa & _).
      apply (kalshi_ticker_ok _ data Hfb Hfa Hc). }
  destruct H as [(_ & _ & Hscore & Hflag) [Hd0 Hsp]].
  split; [exact Hd0 |]. rewrite Hd0 in Hscore.
  destruct (score_depth_zero _ Hsp) as (z & Hz & Hr).
  split; [exists z; rewrite Hscore; auto |].
  rewrite Hflag, Hscore, Hz. apply flag_of_score. lia.
Qed.


(** C1. Every record that a normaliser emits has a price in [0, 1] and a
    [probability_pct] equal to the price times 100.  In [normProb], a raw
    value above 1 is divided by 100 before it is clamped to [0, 1] (1.5
    becomes 0.015); the boundary values 0 and 1 are returned unchanged. *)
Theorem C1_price_in_unit_interval (frames : list Frame) (q : Quote) (r : Q) :
  In q (emitted frames) ->
  1 < r ->
  (exists p, price q = Fin p /\ 0 <= p <= 1)
  /\ probability_pct q = mul (price q) (Fin 100)
  /\ num_eq (normProb (Some (Fin r))) (Fin (Qmax 0 (Qmin (r / 100) 1)))
  /\ num_eq (normProb (Some (Fin (3 # 2)))) (Fin (15 # 1000))
  /\ normProb (Some (Fin 0)) = Fin 0
  /\ normProb (Some (Fin 1)) = Fin 1.
Proof.
  intros Hin Hr. destruct (emitted_quote_ok frames q Hin) as (Hp & Hpct & _).
  split; [exact Hp |]. split; [exact Hpct |].
  split; [apply normProb_percent; exact Hr |].
  split; [vm_compute; reflexivity |]. split; reflexivity.
Qed.

(** C2. The score leaves [0, 100] on a frame the connector accepts: a
    ticker whose [yes_bid] is text that is not a number, with a [yes_ask]
    of 50.  [parseFloat] reads NaN, the spread [Math.max(yesAsk - yesBid, 0)]
    is NaN, the mid is 50, and the record, which is enqueued, has the
    spread NaN and the score NaN: no number between 0 and 100.  Its flag is
    not raised. *)
Theorem C2_score_nan_on_text_bid :
  let q := snd (normalizeKalshiTicker ∅ text_bid_ticker) in
  emitted [FromKalshi text_bid_ticker] = [q]
  /\ num_eq (price q) (Fin (1 # 2))
  /\ bid_ask_spread_pct q = Some NaN
  /\ spread_component (bid_ask_spread_pct q) = NaN
  /\ liquidity_score q = NaN
  /\ ~ (exists c, liquidity_score q = Fin c /\ 0 <= c <= 100)
  /\ confidence_flag q = None.
Proof.
  cbn zeta. split; [reflexivity |]. split; [reflexivity |].
  split; [reflexivity |]. split; [reflexivity |]. split; [reflexivity |].
  split; [| reflexivity]. intros (c & H & _). discriminate H.
Qed.

(** C10. A record of the ticker venue without the low-confidence flag: the
    record made from a ticker whose [yes_bid] is text that is not a number,
    with a [yes_ask] of 50, has the depth 0 and a score computed with depth
    0, but that score is NaN, not a number of 40 at most, and the record
    carries no flag. *)
Theorem C10_no_flag_on_text_bid :
  let q := snd (normalizeKalshiTicker ∅ text_bid_ticker) in
  emitted [FromKalshi text_bid_ticker] = [q]
  /\ platform q = "kalshi"%string
  /\ liquidity_depth_usd q = Fin 0
  /\ liquidity_score q = calculateUnifiedConfidence (Fin 0) (bid_ask_spread_pct q)
  /\ ~ (exists c, liquidity_score q = Fin c /\ c <= 40)
  /\ confidence_flag q <> Some LOW_CONFIDENCE.
Proof.
  cbn zeta. split; [reflexivity |]. split; [reflexivity |].
  split; [reflexivity |]. split; [reflexivity |].
  split; [intros (c & H & _); discriminate H | discriminate].
Qed.


End WithLog10.

End AggregatorFacts.

Module AggregatorWitnesses.
Import JsNum Aggregator AggregatorFacts.

Lemma C1_witness :
  (exists p, price sample_quote = Fin p /\ 0 <= p <= 1)
  /\ probability_pct sample_quote = mul (price sample_quote) (Fin 100)
  /\ num_eq (normProb (Some (Fin (250 # 1)))) (Fin (Qmax 0 (Qmin ((250 # 1) / 100) 1)))
  /\ num_eq (normProb (Some (Fin (3 # 2)))) (Fin (15 # 1000))
  /\ normProb (Some (Fin 0)) = Fin 0
  /\ normProb (Some (Fin 1)) = Fin 1.
Proof.
  apply (C1_price_in_unit_interval log10_floor (sample_frames ++ [FromKalshi sample_trade])).
  - vm_compute. right. right. right. left. reflexivity.
  - reflexivity.
Defined.

End AggregatorWitnesses.

(** ** The batching queue *)

Module BatchWriterFacts.
Import BatchWriter.

Lemma run_snoc {A : Type} (batchSize : nat) (events : list (Event A)) (e : Event A) :
  run batchSize (events ++ [e]) = step batchSize (run batchSize events) e.
Proof. unfold run. rewrite fold_left_app. reflexivity. Qed.

(** During an outage every record comes back to the queue: the guard of
    the retry looks at the queue while the failed batch is out of it. *)
Lemma outage_retains_all (batchSize n : nat) :
  (0 < batchSize)%nat ->
  queue (run batchSize (outage n)) = seq 1 n
  /\ inflight (run batchSize (outage n)) = [].
Proof.
  intros Hpos. induction n as [| k [IHq IHi]]; [split; reflexivity |].
  cbn [outage].
  replace (outage k ++ [Enqueue (S k); Settle 0 ErrorResult])
    with ((outage k ++ [Enqueue (S k)]) ++ [Settle 0 ErrorResult])
    by (rewrite <- app_assoc; reflexivity).
  rewrite !run_snoc.
  destruct (run batchSize (outage k)) as [q fl ins errs]. cbn in IHq, IHi. subst q fl.
  assert (Henq : step batchSize (mkState (seq 1 k) [] ins errs) (Enqueue (S k))
                 = if (batchSize <=? S k)%nat
                   then mkState [] [seq 1 (S k)] ins errs
                   else mkState (seq 1 (S k)) [] ins errs).
  { cbn [step]. unfold enqueue. cbn [queue inflight totalInserted totalErrors].
    rewrite <- seq_S, length_seq.
    destruct (batchSize <=? S k)%nat; [| reflexivity].
    unfold flush_begin. cbn [queue inflight totalInserted totalErrors].
    rewrite seq_S. destruct (seq 1 k); reflexivity. }
  rewrite Henq. destruct (batchSize <=? S k)%nat.
  - cbn [step nth_error inflight queue totalInserted totalErrors remove_nth
         firstn skipn app flush_end length].
    assert (Hlt : (0 <? batchSize * 10)%nat = true) by (apply Nat.ltb_lt; lia).
    rewrite Hlt. cbn [queue inflight]. rewrite app_nil_r. split; reflexivity.
  - cbn [step nth_error inflight]. split; reflexivity.
Qed.

(** C7. With the default batch size of 25, after 251 records have arrived
    during a store outage (each flush fails with an error answer), 251
    records are retained for retry: more than 10 times the batch size. *)
Theorem C7_retry_queue_exceeds_cap :
  length (queue (run 25 (outage 251))) = 251%nat
  /\ (10 * 25 < length (queue (run 25 (outage 251))))%nat
  /\ inflight (run 25 (outage 251)) = [].
Proof. vm_compute. repeat split; lia. Qed.

End BatchWriterFacts.

(** ** The arbitrage scan *)

Module HunterFacts.
Import JsNum Hunter.

Lemma fetchLatestSignals_from (data : list SignalRow) :
  forall (acc : gmap string Signal) (id : string),
    fold_left
      (fun latest row =>
         match latest !! sr_event_id row with
         | Some _ => latest
         | None => <[sr_event_id row := signal_of_row row]> latest
         end) data acc !! id
    = match acc !! id with
      | Some sg => Some sg
      | None => option_map signal_of_row
                  (find (fun row => String.eqb (sr_event_id row) id) data)
      end.
Proof.
  induction data as [| row rest IH]; intros acc id; cbn [fold_left find].
  - destruct (acc !! id); reflexivity.
  - rewrite IH. destruct (String.eqb_spec (sr_event_id row) id) as [-> | Hne].
    + destruct (acc !! id) eqn:E; [rewrite E; reflexivity |].
      rewrite lookup_insert_eq. reflexivity.
    + destruct (acc !! sr_event_id row); [reflexivity |].
      rewrite lookup_insert_ne by exact Hne. reflexivity.
Qed.

(** The signal kept for an event id is the first row of that id. *)
Lemma fetchLatestSignals_first (data : list SignalRow) (id : string) :
  fetchLatestSignals data !! id
  = option_map signal_of_row (find (fun row => String.eqb (sr_event_id row) id) data).
Proof.
  unfold fetchLatestSignals. rewrite (fetchLatestSignals_from data ∅ id).
  rewrite lookup_empty. reflexivity.
Qed.

Lemma resolveSignal_spec (metaMap : gmap string string) (signalMap : gmap string Signal)
    (marketKey : string) :
  resolveSignal marketKey metaMap signalMap =
  match live_signal metaMap signalMap marketKey with
  | Some (p, d) => Some (mkResolved p d false)
  | None =>
      match DEMO_PROBS !! marketKey with
      | Some p => Some (mkResolved (Fin p) DEMO_LIQUIDITY_USD true)
      | None => None
      end
  end.
Proof.
  unfold resolveSignal, live_signal.
  destruct (metaMap !! marketKey) as [eventId |]; [| reflexivity].
  destruct (signalMap !! eventId) as [[[p |] d] |]; reflexivity.
Qed.

(** Two quotes of an equivalent pair, 82 and 76 with depths 1000 and 800:
    one alert of spread 6; with a depth of 200 on the second side: none. *)
Example scan_alert :
  runScanOver [mkPair "A" "B"]
          [mkMetaRow "A" (Some "ta") None; mkMetaRow "B" None (Some "tb")]
          [mkSignalRow "ta" (Some 82) (Some 1000); mkSignalRow "tb" (Some 76) (Some 800)]
  = [ {| market_pair := "A ↔ B"; spread := Fin 6; potential_profit_pct := Fin 6;
         status := "ALERT" |} ].
Proof. vm_compute. reflexivity. Qed.

Example scan_gated_by_liquidity :
  runScanOver [mkPair "A" "B"]
          [mkMetaRow "A" (Some "ta") None; mkMetaRow "B" None (Some "tb")]
          [mkSignalRow "ta" (Some 82) (Some 1000); mkSignalRow "tb" (Some 76) (Some 200)]
  = [].
Proof. vm_compute. reflexivity. Qed.

Example scan_demo_fallback :
  map status (runScanOver [mkPair "demo_gdp_below_20" "B"] [mkMetaRow "B" None (Some "tb")]
                          [mkSignalRow "tb" (Some 76) (Some 800)])
  = ["SIMULATED_EXECUTION"].
Proof. vm_compute. reflexivity. Qed.

(** The copy of the hunter under [backend/] agrees with the scan on every
    pair whose two sides have a live quote. *)
Lemma scanPair_live_agrees (metaMap : gmap string string)
    (signalMap : gmap string Signal) (p : Pair) :
  is_Some (live_signal metaMap signalMap (market_key_a p)) ->
  is_Some (live_signal metaMap signalMap (market_key_b p)) ->
  scanPair_live metaMap signalMap p = scanPair metaMap signalMap p.
Proof.
  intros [[pA dA] HA] [[pB dB] HB]. unfold scanPair_live, scanPair.
  rewrite !resolveSignal_spec, HA, HB. reflexivity.
Qed.

(** *** The metadata map *)

Lemma fetchMetadataMap_fold data :
  fetchMetadataMap data = fold_left meta_step data ∅.
Proof.
  unfold fetchMetadataMap. generalize (∅ : gmap string string).
  induction data as [| row rest IH]; intros acc; [reflexivity |].
  cbn [fold_left]. rewrite IH. f_equal. unfold meta_step, eventId_of.
  destruct (polymarket_token_id row) as [t |]; [destruct (nonempty t); reflexivity |].
  destruct (kalshi_ticker row) as [t |]; [destruct (nonempty t); reflexivity | reflexivity].
Qed.

Lemma eventId_of_nonempty row id : eventId_of row = Some id -> id <> ""%string.
Proof.
  unfold eventId_of.
  destruct (match polymarket_token_id row with Some t => Some t | None => kalshi_ticker row end)
    as [t |]; [| discriminate].
  destruct t; cbn; [discriminate |]. intros [= <-]. discriminate.
Qed.

Lemma meta_fold_sound data : forall acc k id,
  fold_left meta_step data acc !! k = Some id ->
  acc !! k = Some id
  \/ exists row, In row data /\ mr_market_key row = k /\ eventId_of row = Some id.
Proof.
  induction data as [| row rest IH]; intros acc k id; cbn [fold_left]; [auto |].
  intros H. apply IH in H as [H | (r & Hr & Hk & He)].
  - unfold meta_step in H. destruct (eventId_of row) as [e |] eqn:Ee; [| auto].
    destruct (decide (mr_market_key row = k)) as [<- | Hne].
    + rewrite lookup_insert_eq in H. injection H as <-. right. exists row.
      split; [left; reflexivity | auto].
    + rewrite lookup_insert_ne in H by exact Hne. auto.
  - right. exists r. split; [right; exact Hr | auto].
Qed.

Lemma meta_fold_absent data : forall acc k,
  ~ In k (map mr_market_key data) ->
  fold_left meta_step data acc !! k = acc !! k.
Proof.
  induction data as [| row rest IH]; intros acc k Hk; cbn [fold_left]; [reflexivity |].
  cbn [map] in Hk. apply not_in_cons in Hk as [Hne Hk].
  rewrite IH by exact Hk. unfold meta_step.
  destruct (eventId_of row); [| reflexivity].
  apply lookup_insert_ne. congruence.
Qed.

Lemma meta_fold_row data : forall acc row,
  NoDup (map mr_market_key data) -> In row data -> acc !! mr_market_key row = None ->
  fold_left meta_step data acc !! mr_market_key row = eventId_of row.
Proof.
  induction data as [| r rest IH]; intros acc row Hnd Hin Hacc; [destruct Hin |].
  cbn [map] in Hnd. apply NoDup_cons in Hnd as [Hr Hnd]. cbn [fold_left].
  destruct Hin as [-> | Hin].
  - rewrite meta_fold_absent by (rewrite <- list_elem_of_In; exact Hr).
    unfold meta_step. destruct (eventId_of row); [apply lookup_insert_eq | exact Hacc].
  - apply IH; [exact Hnd | exact Hin |].
    assert (Hne : mr_market_key r <> mr_market_key row).
    { intros Heq. apply Hr. rewrite Heq. apply list_elem_of_In, in_map. exact Hin. }
    unfold meta_step. destruct (eventId_of r); [| exact Hacc].
    rewrite lookup_insert_ne by exact Hne. exact Hacc.
Qed.

Lemma fetchMetadataMap_sound (data : list MetaRow) k id :
  fetchMetadataMap data !! k = Some id ->
  id <> ""%string
  /\ exists row, In row data /\ mr_market_key row = k /\ eventId_of row = Some id.
Proof.
  rewrite fetchMetadataMap_fold. intros H.
  apply meta_fold_sound in H as [H | (row & Hr & Hk & He)].
  - rewrite lookup_empty in H. discriminate.
  - split; [eapply eventId_of_nonempty; exact He |]. exists row. auto.
Qed.

Lemma fetchMetadataMap_row (data : list MetaRow) row :
  NoDup (map mr_market_key data) -> In row data ->
  fetchMetadataMap data !! mr_market_key row = eventId_of row.
Proof.
  intros Hnd Hin. rewrite fetchMetadataMap_fold.
  apply meta_fold_row; [exact Hnd | exact Hin | apply lookup_empty].
Qed.

(** With one row for a market key, the entry of the map is the event id of
    the market. *)
Lemma fetchMetadataMap_event (metadata : list MetaRow) (k : string) :
  NoDup (map mr_market_key metadata) ->
  fetchMetadataMap metadata !! k = event_of metadata k.
Proof.
  intros Hnd. unfold event_of.
  destruct (find (fun row => String.eqb (mr_market_key row) k) metadata) as [row |] eqn:Ef.
  - apply find_some in Ef as [Hin Hk]. apply String.eqb_eq in Hk. subst k.
    rewrite (fetchMetadataMap_row metadata row Hnd Hin). unfold eventId_of.
    destruct (polymarket_token_id row); [reflexivity |].
    destruct (kalshi_ticker row); reflexivity.
  - rewrite fetchMetadataMap_fold, meta_fold_absent; [apply lookup_empty |].
    intros Hin. apply in_map_iff in Hin as (row & Hk & Hin).
    pose proof (find_none _ _ Ef row Hin) as Hne. cbn in Hne.
    rewrite Hk, String.eqb_refl in Hne. discriminate.
Qed.

(** *** The event ids asked for *)

Lemma add_needed_mono metaMap k ids : ids ⊆ add_needed metaMap k ids.
Proof.
  unfold add_needed. destruct (metaMap !! k) as [e |]; [| reflexivity].
  destruct (nonempty e); set_solver.
Qed.

Lemma add_needed_in metaMap k id ids :
  metaMap !! k = Some id -> id <> ""%string -> id ∈ add_needed metaMap k ids.
Proof.
  intros Hk Hne. unfold add_needed. rewrite Hk.
  destruct id; [congruence |]. cbn [nonempty]. set_solver.
Qed.

Lemma add_needed_elem metaMap k id ids :
  id ∈ add_needed metaMap k ids -> id ∈ ids \/ metaMap !! k = Some id.
Proof.
  unfold add_needed. destruct (metaMap !! k) as [e |]; [| auto].
  destruct (nonempty e); [| auto]. intros H.
  apply elem_of_union in H as [H | H]; [| auto].
  apply elem_of_singleton in H. subst e. auto.
Qed.

Lemma neededIds_from metaMap pairs : forall ids,
  ids ⊆ fold_left
          (fun ids p => add_needed metaMap (market_key_b p)
                          (add_needed metaMap (market_key_a p) ids))
          pairs ids.
Proof.
  induction pairs as [| p rest IH]; intros ids; cbn [fold_left]; [reflexivity |].
  etransitivity; [| apply IH].
  etransitivity; apply add_needed_mono.
Qed.

Lemma neededIds_in metaMap pairs p k id :
  In p pairs -> k = market_key_a p \/ k = market_key_b p ->
  metaMap !! k = Some id -> id <> ""%string ->
  id ∈ neededIds pairs metaMap.
Proof.
  unfold neededIds. generalize (∅ : gset string).
  induction pairs as [| q rest IH]; intros ids Hin Hk Hm Hne; [destruct Hin |].
  cbn [fold_left]. destruct Hin as [-> | Hin]; [| eapply IH; eassumption].
  apply neededIds_from. destruct Hk as [-> | ->].
  - apply add_needed_mono, add_needed_in; assumption.
  - apply add_needed_in; assumption.
Qed.

Lemma neededIds_elem metaMap pairs id :
  id ∈ neededIds pairs metaMap ->
  exists p, In p pairs
            /\ (metaMap !! market_key_a p = Some id \/ metaMap !! market_key_b p = Some id).
Proof.
  unfold neededIds.
  assert (H : forall ids,
    id ∈ fold_left
           (fun ids p => add_needed metaMap (market_key_b p)
                           (add_needed metaMap (market_key_a p) ids))
           pairs ids ->
    id ∈ ids
    \/ exists p, In p pairs
                 /\ (metaMap !! market_key_a p = Some id
                     \/ metaMap !! market_key_b p = Some id)).
  { induction pairs as [| q rest IH]; intros ids; cbn [fold_left]; [auto |].
    intros Hid. apply IH in Hid as [Hid | (p & Hp & Hk)].
    - apply add_needed_elem in Hid as [Hid | Hb].
      + apply add_needed_elem in Hid as [Hid | Ha]; [auto |].
        right. exists q. split; [left; reflexivity | auto].
      + right. exists q. split; [left; reflexivity | auto].
    - right. exists p. split; [right; exact Hp | exact Hk]. }
  intros Hid. apply H in Hid as [Hid | Hid]; [set_solver | exact Hid].
Qed.

(** *** The signals read *)

(** The first row of an id among the rows of a set of ids: none when the id
    is not of the set. *)
Lemma find_filter_out (ids : gset string) id (l : list SignalRow) (n : nat) :
  id ∉ ids ->
  find (fun row => String.eqb (sr_event_id row) id)
       (take n (filter (fun row => sr_event_id row ∈ ids) l)) = None.
Proof.
  intros Hid.
  destruct (find _ _) as [row |] eqn:Ef; [| reflexivity].
  apply find_some in Ef as [Hin He]. apply String.eqb_eq in He.
  apply list_elem_of_In, elem_of_take in Hin as (i & Hi & _).
  apply list_elem_of_lookup_2, list_elem_of_filter in Hi as [Hi _].
  rewrite He in Hi. contradiction.
Qed.

(** What [fetchLatestSignals] keeps for an event id, over the table. *)
Lemma fetchLatestSignalsOf_first (table : list SignalRow) (needed : gset string) id :
  fetchLatestSignalsOf table needed !! id
  = option_map signal_of_row
      (find (fun row => String.eqb (sr_event_id row) id)
            (take 1000 (filter (fun row => sr_event_id row ∈ needed) table))).
Proof.
  unfold fetchLatestSignalsOf. destruct (decide (needed = ∅)) as [-> | _].
  - rewrite lookup_empty, find_filter_out by set_solver. reflexivity.
  - apply fetchLatestSignals_first.
Qed.

(** The live quote that the scan has of a market key is the latest quote of
    its event id among the rows read. *)
Lemma live_signal_latest (metaMap : gmap string string) (table : list SignalRow)
    (needed : gset string) (k : string) :
  live_signal metaMap (fetchLatestSignalsOf table needed) k
  = match metaMap !! k with
    | Some id =>
        latest_quote (take 1000 (filter (fun row => sr_event_id row ∈ needed) table)) id
    | None => None
    end.
Proof.
  unfold live_signal, latest_quote. destruct (metaMap !! k) as [id |]; [| reflexivity].
  rewrite fetchLatestSignalsOf_first.
  destruct (find _ _) as [row |]; [| reflexivity]. cbn [option_map signal_of_row].
  destruct (sr_probability_pct row) as [p |]; [| reflexivity]. cbn [option_map].
  destruct (sr_liquidity_depth_usd row); reflexivity.
Qed.

Lemma resolveSignal_resolution (metaMap : gmap string string)
    (signalMap : gmap string Signal) (k : string) :
  resolveSignal k metaMap signalMap = resolution (live_signal metaMap signalMap k) k.
Proof.
  rewrite resolveSignal_spec. unfold resolution.
  destruct (live_signal metaMap signalMap k) as [[p d] |]; reflexivity.
Qed.

Lemma scanPair_alert_of metaMap signalMap p :
  scanPair metaMap signalMap p
  = match resolveSignal (market_key_a p) metaMap signalMap,
          resolveSignal (market_key_b p) metaMap signalMap with
    | Some sigA, Some sigB => alert_of p sigA sigB
    | _, _ => None
    end.
Proof. reflexivity. Qed.

Lemma alert_of_spec p sigA sigB alert :
  alert_of p sigA sigB = Some alert
  <-> gtb (Math_abs (sub (r_probability_pct sigA) (r_probability_pct sigB))) (Fin 3) = true
      /\ gtb (r_liquidity_depth_usd sigA) (Fin 500) = true
      /\ gtb (r_liquidity_depth_usd sigB) (Fin 500) = true
      /\ market_pair alert = market_key_a p +:+ " ↔ " +:+ market_key_b p
      /\ spread alert
         = toFixed_value 3 (Math_abs (sub (r_probability_pct sigA) (r_probability_pct sigB)))
      /\ potential_profit_pct alert = spread alert
      /\ status alert
         = if isDemo sigA || isDemo sigB then "SIMULATED_EXECUTION" else "ALERT".
Proof.
  unfold alert_of. split.
  - destruct (gtb (Math_abs _) (Fin 3)) eqn:E1; [| discriminate].
    destruct (gtb (r_liquidity_depth_usd sigA) (Fin 500)) eqn:E2; [| discriminate].
    destruct (gtb (r_liquidity_depth_usd sigB) (Fin 500)) eqn:E3; [| discriminate].
    cbn [andb]. intros [= <-]. cbn [market_pair spread potential_profit_pct status].
    repeat split; reflexivity.
  - intros (E1 & E2 & E3 & Hm & Hsp & Hpp & Hst). rewrite E1, E2, E3. cbn [andb].
    f_equal. destruct alert as [mp sp pp st]. cbn in Hm, Hsp, Hpp, Hst.
    subst. reflexivity.
Qed.




End HunterFacts.

(** ** The classifier *)

Module ClassifierFacts.
Import JsNum Classifier.

Lemma sort2_ordered a b :
  String.leb (fst (sort2 a b)) (snd (sort2 a b)) = true.
Proof.
  unfold sort2, String.ltb, String.leb.
  destruct (String.compare b a) eqn:E; cbn [fst snd].
  - rewrite String.compare_antisym, E. reflexivity.
  - rewrite E. reflexivity.
  - rewrite String.compare_antisym, E. reflexivity.
Qed.

Lemma sort2_strict a b :
  a <> b -> String.ltb (fst (sort2 a b)) (snd (sort2 a b)) = true.
Proof.
  intros Hne. unfold sort2, String.ltb.
  destruct (String.compare b a) eqn:E; cbn [fst snd].
  - apply String.compare_eq_iff in E. congruence.
  - rewrite E. reflexivity.
  - rewrite String.compare_antisym, E. reflexivity.
Qed.

Lemma sort2_keys a b :
  sort2 a b = (a, b) \/ sort2 a b = (b, a).
Proof. unfold sort2. destruct (String.ltb b a); auto. Qed.

Lemma ltb_irrefl a : String.ltb a a = false.
Proof.
  unfold String.ltb. pose proof (String.compare_antisym a a) as H.
  destruct (String.compare a a); cbn in H; congruence.
Qed.

Lemma ltb_asym a b : String.ltb a b = true -> String.ltb b a = false.
Proof.
  unfold String.ltb. rewrite (String.compare_antisym a b).
  destruct (String.compare b a); cbn; congruence.
Qed.

Lemma has_key_pair_key k r : has_key k r = true <-> pair_key r = k.
Proof.
  unfold has_key, pair_key. destruct k as [a b]. cbn [fst snd].
  rewrite andb_true_iff, !String.eqb_eq. split.
  - intros [-> ->]. reflexivity.
  - intros H. injection H as -> ->. auto.
Qed.

Lemma same_pair_has_key row r : same_pair row r = has_key (pair_key r) row.
Proof. reflexivity. Qed.

Lemma same_pair_keys row r : same_pair row r = true <-> pair_key row = pair_key r.
Proof. rewrite same_pair_has_key. apply has_key_pair_key. Qed.

Lemma has_key_same k row r :
  same_pair row r = true -> has_key k row = has_key k r.
Proof.
  intros H. apply same_pair_keys in H.
  destruct (has_key k row) eqn:E1, (has_key k r) eqn:E2; try reflexivity.
  - apply has_key_pair_key in E1. rewrite H in E1.
    apply has_key_pair_key in E1. congruence.
  - apply has_key_pair_key in E2. rewrite <- H in E2.
    apply has_key_pair_key in E2. congruence.
Qed.

(** *** The upsert *)

Lemma find_upsert k r table :
  find (has_key k) (upsert r table)
  = if has_key k r then Some r else find (has_key k) table.
Proof.
  induction table as [| row rest IH]; cbn [upsert find]; [reflexivity |].
  destruct (same_pair row r) eqn:Es; cbn [find].
  - rewrite (has_key_same k row r Es). destruct (has_key k r); reflexivity.
  - rewrite IH. destruct (has_key k row) eqn:Er; [| reflexivity].
    destruct (has_key k r) eqn:Ek; [| reflexivity].
    apply has_key_pair_key in Er, Ek.
    assert (same_pair row r = true) by (apply same_pair_keys; congruence).
    congruence.
Qed.

Lemma keys_upsert_in r table :
  In (pair_key r) (map pair_key table) ->
  map pair_key (upsert r table) = map pair_key table.
Proof.
  induction table as [| row rest IH]; cbn [upsert map]; [intros [] |].
  intros Hin. destruct (same_pair row r) eqn:Es; cbn [map].
  - apply same_pair_keys in Es. rewrite Es. reflexivity.
  - f_equal. apply IH. destruct Hin as [H | H]; [| exact H].
    assert (same_pair row r = true) by (apply same_pair_keys; exact H). congruence.
Qed.

Lemma keys_upsert_new r table :
  ~ In (pair_key r) (map pair_key table) ->
  map pair_key (upsert r table) = map pair_key table ++ [pair_key r].
Proof.
  induction table as [| row rest IH]; cbn [upsert map app]; [reflexivity |].
  intros Hn. destruct (same_pair row r) eqn:Es.
  - apply same_pair_keys in Es. exfalso. apply Hn. left. exact Es.
  - cbn [map]. f_equal. apply IH. intros H. apply Hn. right. exact H.
Qed.

Lemma key_dec (k : string * string) (l : list (string * string)) :
  In k l \/ ~ In k l.
Proof.
  destruct (decide (k ∈ l)) as [H | H]; rewrite list_elem_of_In in H; auto.
Qed.

Lemma keys_upsert_NoDup r table :
  NoDup (map pair_key table) -> NoDup (map pair_key (upsert r table)).
Proof.
  intros Hnd. destruct (key_dec (pair_key r) (map pair_key table)) as [Hin | Hn].
  - rewrite keys_upsert_in by exact Hin. exact Hnd.
  - rewrite keys_upsert_new by exact Hn.
    apply NoDup_app. split; [exact Hnd |]. split.
    + intros k Hk Hk'. apply list_elem_of_In in Hk. apply list_elem_of_In in Hk'.
      destruct Hk' as [<- | []]. contradiction.
    + apply NoDup_singleton.
Qed.

Lemma in_upsert row r table :
  In row (upsert r table) -> row = r \/ In row table.
Proof.
  induction table as [| row' rest IH]; cbn [upsert].
  - intros [<- | []]. auto.
  - destruct (same_pair row' r).
    + intros [<- | H]; [auto | right; right; exact H].
    + intros [<- | H]; [right; left; reflexivity |].
      destruct (IH H); [auto | right; right; assumption].
Qed.

Lemma key_in_upsert r table : In (pair_key r) (map pair_key (upsert r table)).
Proof.
  destruct (key_dec (pair_key r) (map pair_key table)) as [Hin | Hn].
  - rewrite keys_upsert_in by exact Hin. exact Hin.
  - rewrite keys_upsert_new by exact Hn. apply in_or_app. right. left. reflexivity.
Qed.

Lemma keys_kept_upsert k r table :
  In k (map pair_key table) -> In k (map pair_key (upsert r table)).
Proof.
  intros Hk. destruct (key_dec (pair_key r) (map pair_key table)) as [Hin | Hn].
  - rewrite keys_upsert_in by exact Hin. exact Hk.
  - rewrite keys_upsert_new by exact Hn. apply in_or_app. left. exact Hk.
Qed.

(** *** A sequence of upserts *)

Lemma upserts_NoDup rels : forall table,
  NoDup (map pair_key table) -> NoDup (map pair_key (upserts rels table)).
Proof.
  induction rels as [| r rest IH]; intros table H; cbn; [exact H |].
  apply IH. apply keys_upsert_NoDup. exact H.
Qed.

Lemma in_upserts row rels : forall table,
  In row (upserts rels table) -> In row rels \/ In row table.
Proof.
  induction rels as [| r rest IH]; intros table H; cbn in H; [auto |].
  destruct (IH _ H) as [H1 | H1]; [left; right; exact H1 |].
  destruct (in_upsert _ _ _ H1) as [-> | H2]; [left; left; reflexivity | auto].
Qed.

Lemma keys_kept_upserts k rels : forall table,
  In k (map pair_key table) -> In k (map pair_key (upserts rels table)).
Proof.
  induction rels as [| r rest IH]; intros table H; cbn; [exact H |].
  apply IH. apply keys_kept_upsert. exact H.
Qed.

Lemma keys_of_upserts r rels : forall table,
  In r rels -> In (pair_key r) (map pair_key (upserts rels table)).
Proof.
  induction rels as [| r' rest IH]; intros table Hin; [destruct Hin |].
  destruct Hin as [-> | H]; cbn.
  - apply keys_kept_upserts. apply key_in_upsert.
  - apply IH. exact H.
Qed.

Lemma keys_upserts_stable rels : forall table,
  (forall r, In r rels -> In (pair_key r) (map pair_key table)) ->
  map pair_key (upserts rels table) = map pair_key table.
Proof.
  induction rels as [| r rest IH]; intros table H; cbn; [reflexivity |].
  rewrite IH.
  - apply keys_upsert_in. apply H. left. reflexivity.
  - intros r' Hr'. apply keys_kept_upsert. apply H. right. exact Hr'.
Qed.

Lemma find_snoc {A : Type} (f : A -> bool) (l : list A) (x : A) :
  find f (l ++ [x])
  = match find f l with Some y => Some y | None => if f x then Some x else None end.
Proof.
  induction l as [| y l IH]; cbn; [reflexivity |].
  destruct (f y); [reflexivity | exact IH].
Qed.

Lemma find_upserts k rels : forall table,
  find (has_key k) (upserts rels table)
  = match find (has_key k) (rev rels) with
    | Some r => Some r
    | None => find (has_key k) table
    end.
Proof.
  induction rels as [| r rest IH]; intros table; cbn [upserts fold_left rev];
    [reflexivity |].
  fold (upserts rest (upsert r table)). rewrite IH, find_snoc, find_upsert.
  destruct (find (has_key k) (rev rest)); [reflexivity |].
  destruct (has_key k r); reflexivity.
Qed.

Lemma find_absent k table :
  ~ In k (map pair_key table) -> find (has_key k) table = None.
Proof.
  induction table as [| row rest IH]; cbn; [reflexivity |].
  intros Hn. destruct (has_key k row) eqn:E.
  - apply has_key_pair_key in E. exfalso. apply Hn. left. exact E.
  - apply IH. intros H. apply Hn. right. exact H.
Qed.

(** Two tables with the same keys in the same order, none twice, and the
    same row under each key are the same table. *)
Lemma table_ext : forall t1 t2 : list Relationship,
  NoDup (map pair_key t1) ->
  map pair_key t1 = map pair_key t2 ->
  (forall k, find (has_key k) t1 = find (has_key k) t2) ->
  t1 = t2.
Proof.
  induction t1 as [| r1 t1 IH]; intros [| r2 t2] Hnd Hk Hf; try discriminate;
    [reflexivity |].
  cbn in Hk. injection Hk as Ha Hb Hk2. cbn [map] in Hnd.
  assert (Hk1 : pair_key r1 = pair_key r2) by (unfold pair_key; congruence).
  apply NoDup_cons in Hnd as [Hn1 Hnd]. rewrite list_elem_of_In in Hn1.
  assert (Hr : r1 = r2).
  { specialize (Hf (pair_key r1)). cbn in Hf.
    rewrite (proj2 (has_key_pair_key (pair_key r1) r1) eq_refl) in Hf.
    rewrite (proj2 (has_key_pair_key (pair_key r1) r2) (eq_sym Hk1)) in Hf.
    congruence. }
  subst r2. f_equal. apply IH; [exact Hnd | exact Hk2 |].
  intros k. destruct (has_key k r1) eqn:E.
  - apply has_key_pair_key in E. subst k.
    rewrite !find_absent; [reflexivity | rewrite <- Hk2; exact Hn1 | exact Hn1].
  - specialize (Hf k). cbn in Hf. rewrite E in Hf. exact Hf.
Qed.

Lemma upserts_idempotent rels table :
  NoDup (map pair_key table) ->
  upserts rels (upserts rels table) = upserts rels table.
Proof.
  intros Hnd. apply table_ext.
  - apply upserts_NoDup, upserts_NoDup. exact Hnd.
  - apply keys_upserts_stable. intros r Hr. apply keys_of_upserts. exact Hr.
  - intros k. rewrite (find_upserts k rels (upserts rels table)).
    rewrite (find_upserts k rels table).
    destruct (find (has_key k) (rev rels)); reflexivity.
Qed.

Lemma NoDup_keys_row (table : list Relationship) r1 r2 :
  NoDup (map pair_key table) -> In r1 table -> In r2 table ->
  pair_key r1 = pair_key r2 -> r1 = r2.
Proof.
  induction table as [| row rest IH]; intros Hnd H1 H2 Hk; [destruct H1 |].
  cbn in Hnd. apply NoDup_cons in Hnd as [Hn Hnd]. rewrite list_elem_of_In in Hn.
  destruct H1 as [-> | H1], H2 as [-> | H2]; auto.
  - exfalso. apply Hn. rewrite Hk. apply in_map. exact H2.
  - exfalso. apply Hn. rewrite <- Hk. apply in_map. exact H1.
Qed.

Lemma all_pairs_distinct (markets : list Market) a b :
  NoDup (map market_key markets) ->
  In (a, b) (all_pairs markets) -> market_key a <> market_key b.
Proof.
  induction markets as [| m rest IH]; cbn [all_pairs map]; [intros _ [] |].
  intros Hnd Hin. apply NoDup_cons in Hnd as [Hn Hnd]. rewrite list_elem_of_In in Hn.
  apply in_app_or in Hin as [Hin | Hin]; [| apply IH; assumption].
  apply in_map_iff in Hin as (m' & Heq & Hm'). injection Heq as <- <-.
  intros E. apply Hn. rewrite E. apply in_map. exact Hm'.
Qed.


Section WithText.

Variable toFixed : nat -> num -> string.
Variable analyst : Market -> Market -> option num -> option num -> option Parsed.
Variable store_accepts : Relationship -> bool.

Local Abbreviation postProcess := (postProcess toFixed).
Local Abbreviation classifyPair := (classifyPair toFixed analyst).
Local Abbreviation runAgent := (runAgent toFixed analyst store_accepts).
Local Abbreviation produced := (produced toFixed analyst).
Local Abbreviation stored := (stored toFixed analyst store_accepts).

Lemma extends_by base note rest :
  note <> "" -> extends base (base +:+ note +:+ rest).
Proof.
  intros Hn. exists (note +:+ rest). split; [| reflexivity].
  destruct note; [congruence | discriminate].
Qed.

(** An equivalent pair at 90 and 20: spread 70, both tags. *)
Example post_processing_equivalent :
  let '(flag, alert, spread, _) :=
    postProcess "a" "b" (Some (Fin 90)) (Some (Fin 20)) "equivalent" "Same event." in
  flag = Some "HIGH_VALUE_ARBITRAGE_OPPORTUNITY"
  /\ alert = Some "VENUE_DIVERGENCE: Potential Arbitrage"
  /\ spread = Some (Fin 70).
Proof. vm_compute. repeat split; reflexivity. Qed.

(** C4. The post-processing of a classified pair.  With both
    probabilities present, an equivalent pair gets the spread
    |prob_a - prob_b|, the divergence alert when the spread is above 5,
    the arbitrage flag and an extended justification when it is above 10;
    a mutually exclusive pair gets the spread |(prob_a + prob_b) - 100|,
    the arbitrage flag and an extended justification when it is above 10;
    in every other case the three fields are null and the justification
    is the analyst's.  [classifyPair] stores these four values. *)
Theorem C4_post_processing (marketA marketB : Market) (probA probB : option num)
    (relationship_type logic_justification : string) :
  (let '(spread, divergent, arbitrage) :=
     derived_spec relationship_type probA probB in
   let '(arbitrage_flag, risk_alert, probability_spread, justification) :=
     postProcess (market_key marketA) (market_key marketB) probA probB
                 relationship_type logic_justification in
   probability_spread = spread
   /\ risk_alert
      = (if divergent then Some "VENUE_DIVERGENCE: Potential Arbitrage" else None)
   /\ arbitrage_flag
      = (if arbitrage then Some "HIGH_VALUE_ARBITRAGE_OPPORTUNITY" else None)
   /\ (if arbitrage then extends logic_justification justification
       else justification = logic_justification))
  /\ match analyst marketA marketB probA probB with
     | Some parsed =>
         exists rel,
           classifyPair marketA marketB probA probB = Some rel
           /\ Classifier.relationship_type rel = p_relationship_type parsed
           /\ (arbitrage_flag rel, risk_alert rel, probability_spread rel,
               Classifier.logic_justification rel)
              = postProcess (market_key marketA) (market_key marketB) probA probB
                            (p_relationship_type parsed) (p_logic_justification parsed)
     | None => classifyPair marketA marketB probA probB = None
     end.
Proof.
  split.
  - unfold derived_spec, Classifier.postProcess.
    destruct probA as [pA |], probB as [pB |]; try (repeat split; reflexivity).
    destruct (String.eqb relationship_type "equivalent").
    + destruct (gtb (Math_abs (sub pA pB)) (Fin 10)) eqn:E10;
        unfold ARBITRAGE_THRESHOLD_PCT, DIVERGENCE_THRESHOLD_PCT; rewrite E10.
      * repeat split. apply extends_by. discriminate.
      * repeat split.
    + destruct (String.eqb relationship_type "mutually_exclusive");
        [| repeat split; reflexivity].
      destruct (gtb (Math_abs (sub (add pA pB) (Fin 100))) (Fin 10)) eqn:E10;
        unfold ARBITRAGE_THRESHOLD_PCT; rewrite E10.
      * repeat split. apply extends_by. discriminate.
      * repeat split.
  - unfold Classifier.classifyPair.
    destruct (analyst marketA marketB probA probB) as [parsed |]; [| reflexivity].
    destruct (postProcess _ _ _ _ _ _) as [[[f a] sp] j].
    destruct (sort2 _ _) as [keyA keyB].
    eexists. split; [reflexivity |]. split; reflexivity.
Qed.

Lemma classifyPair_keys a b pA pB rel :
  classifyPair a b pA pB = Some rel ->
  pair_key rel = sort2 (market_key a) (market_key b).
Proof.
  unfold Classifier.classifyPair. destruct (analyst a b pA pB); [| discriminate].
  destruct (postProcess _ _ _ _ _ _) as [[[f al] sp] j].
  destruct (sort2 _ _) as [keyA keyB]. intros H. injection H as <-. reflexivity.
Qed.

Lemma produced_canonical markets live rel :
  NoDup (map market_key markets) -> In rel (produced markets live) -> canonical rel.
Proof.
  intros Hnd Hin. unfold Classifier.produced in Hin.
  apply list_elem_of_In, list_elem_of_omap in Hin as ([a b] & Hab & Hc).
  apply list_elem_of_In in Hab.
  pose proof (all_pairs_distinct markets a b Hnd Hab) as Hne.
  apply classifyPair_keys in Hc. unfold canonical.
  pose proof (sort2_strict _ _ Hne) as Hs. rewrite <- Hc in Hs. exact Hs.
Qed.

Lemma runAgent_upserts markets live table :
  runAgent markets live table = upserts (stored markets live) table.
Proof.
  unfold Classifier.runAgent, Classifier.stored, Classifier.produced.
  generalize (all_pairs markets). intros pairs. revert table.
  induction pairs as [| [a b] rest IH]; intros table; [reflexivity |].
  cbn [fold_left omap list_omap].
  destruct (classifyPair a b _ _) as [rel |]; [| apply IH].
  rewrite filter_cons. unfold storeRelationship. rewrite IH.
  destruct (store_accepts rel) eqn:E.
  - rewrite decide_True by reflexivity. reflexivity.
  - rewrite decide_False by discriminate. reflexivity.
Qed.

Lemma canonical_not_swapped r1 r2 :
  canonical r1 -> canonical r2 -> same_unordered r1 r2 -> pair_key r1 = pair_key r2.
Proof.
  unfold canonical, same_unordered, pair_key. intros H1 H2 [[-> ->] | [Ea Eb]].
  - reflexivity.
  - rewrite Ea, Eb in H1. apply ltb_asym in H1. congruence.
Qed.

(** C8. Over a catalog whose market keys are distinct, every relationship
    the classifier produces has [market_key_a] strictly below
    [market_key_b]; a run keeps a table of canonical rows with no key twice
    so, hence with at most one row for an unordered pair of markets; and a
    second run with the same answers leaves the table as the first run
    made it. *)
Theorem C8_canonical_pairs_idempotent (markets : list Market)
    (liveProbMap : gmap string num) (table : list Relationship) :
  NoDup (map market_key markets) ->
  Forall canonical table ->
  NoDup (map pair_key table) ->
  Forall canonical (produced markets liveProbMap)
  /\ Forall canonical (runAgent markets liveProbMap table)
  /\ NoDup (map pair_key (runAgent markets liveProbMap table))
  /\ (forall r1 r2,
        In r1 (runAgent markets liveProbMap table) ->
        In r2 (runAgent markets liveProbMap table) ->
        same_unordered r1 r2 -> r1 = r2)
  /\ runAgent markets liveProbMap (runAgent markets liveProbMap table)
     = runAgent markets liveProbMap table.
Proof.
  intros Hcat Hcan Hnd.
  assert (Hprod : Forall canonical (produced markets liveProbMap)).
  { apply Forall_forall. intros r Hr. apply list_elem_of_In in Hr.
    exact (produced_canonical markets liveProbMap r Hcat Hr). }
  assert (Hrows : Forall canonical (runAgent markets liveProbMap table)).
  { apply Forall_forall. intros r Hr. apply list_elem_of_In in Hr.
    rewrite runAgent_upserts in Hr.
    destruct (in_upserts _ _ _ Hr) as [H | H].
    - unfold Classifier.stored in H. apply list_elem_of_In, list_elem_of_filter in H as [_ H].
      rewrite Forall_forall in Hprod. apply Hprod. exact H.
    - rewrite Forall_forall in Hcan. apply Hcan. apply list_elem_of_In. exact H. }
  assert (Hkeys : NoDup (map pair_key (runAgent markets liveProbMap table))).
  { rewrite runAgent_upserts. apply upserts_NoDup. exact Hnd. }
  split; [exact Hprod |]. split; [exact Hrows |]. split; [exact Hkeys |]. split.
  - intros r1 r2 H1 H2 Hs. apply (NoDup_keys_row _ r1 r2 Hkeys H1 H2).
    rewrite Forall_forall in Hrows.
    apply canonical_not_swapped; [apply Hrows | apply Hrows | exact Hs];
      apply list_elem_of_In; assumption.
  - rewrite !runAgent_upserts. apply upserts_idempotent. exact Hnd.
Qed.

End WithText.


End ClassifierFacts.

Module ClassifierWitnesses.
Import JsNum Classifier ClassifierFacts.

Lemma C8_witness :
  let run := runAgent sample_toFixed sample_analyst (fun _ => true)
                      sample_markets sample_live in
  Forall canonical (produced sample_toFixed sample_analyst sample_markets sample_live)
  /\ Forall canonical (run [])
  /\ NoDup (map pair_key (run []))
  /\ (forall r1 r2, In r1 (run []) -> In r2 (run []) -> same_unordered r1 r2 -> r1 = r2)
  /\ run (run []) = run [].
Proof.
  apply (C8_canonical_pairs_idempotent sample_toFixed sample_analyst (fun _ => true)
           sample_markets sample_live []).
  - apply NoDup_ListNoDup. repeat constructor; cbn; intuition discriminate.
  - constructor.
  - constructor.
Defined.

End ClassifierWitnesses.

(** ** The scenario engine *)

Module ScenarioFacts.
Import JsNum JsText JsNumFacts Scenario.

(** C6. Direction propagation: an equivalent, implied or
    implied_conditional edge keeps the direction; a mutually exclusive edge
    flips it; a correlated edge flips it exactly when its impact direction
    is Negative; two mutually exclusive edges in a row give back the
    direction, and any sequence of equivalent and implied edges keeps it. *)
Theorem C6_direction_algebra (D : string) (impact : option string)
    (edges : list (string * option string)) :
  is_direction D ->
  Forall keeps_direction edges ->
  propagateDirection D "equivalent" impact = D
  /\ propagateDirection D "implied" impact = D
  /\ propagateDirection D "implied_conditional" impact = D
  /\ propagateDirection D "mutually_exclusive" impact = flip D
  /\ propagateDirection D "correlated" impact
     = (if bool_decide (impact = Some "Negative") then flip D else D)
  /\ flip "UP" = "DOWN" /\ flip "DOWN" = "UP"
  /\ propagateDirection (propagateDirection D "mutually_exclusive" impact)
                        "mutually_exclusive" impact = D
  /\ propagate_along edges D = D.
Proof.
  intros HD Hedges.
  split; [reflexivity |]. split; [reflexivity |]. split; [reflexivity |].
  split; [reflexivity |]. split.
  - cbn. destruct impact as [d |]; [| reflexivity].
    destruct (String.eqb_spec d "Negative") as [-> | Hne].
    + reflexivity.
    + rewrite bool_decide_eq_false_2 by congruence. reflexivity.
  - split; [reflexivity |]. split; [reflexivity |]. split.
    + destruct HD as [-> | ->]; reflexivity.
    + induction Hedges as [| [ty imp] rest Hk _ IH]; [reflexivity |].
      cbn [propagate_along fold_left fst snd].
      assert (Hstep : propagateDirection D ty imp = D).
      { destruct Hk as [H | [H | H]]; cbn in H; subst ty; reflexivity. }
      rewrite Hstep. exact IH.
Qed.

Lemma C6_witness :
  let edges := [("equivalent", None); ("implied", Some "Positive");
                ("implied_conditional", None)] in
  let impact := Some "Negative" in
  propagateDirection "UP" "equivalent" impact = "UP"
  /\ propagateDirection "UP" "implied" impact = "UP"
  /\ propagateDirection "UP" "implied_conditional" impact = "UP"
  /\ propagateDirection "UP" "mutually_exclusive" impact = flip "UP"
  /\ propagateDirection "UP" "correlated" impact
     = (if bool_decide (impact = Some "Negative") then flip "UP" else "UP")
  /\ flip "UP" = "DOWN" /\ flip "DOWN" = "UP"
  /\ propagateDirection (propagateDirection "UP" "mutually_exclusive" impact)
                        "mutually_exclusive" impact = "UP"
  /\ propagate_along edges "UP" = "UP".
Proof.
  apply (C6_direction_algebra "UP" (Some "Negative")
           [("equivalent", None); ("implied", Some "Positive");
            ("implied_conditional", None)]).
  - left. reflexivity.
  - constructor; [left; reflexivity |].
    constructor; [right; left; reflexivity |].
    constructor; [right; right; reflexivity | constructor].
Defined.

(** *** Walks *)

Lemma walk_snoc es rel e : walk (es ++ [rel]) e = advance (walk es e) rel.
Proof. unfold walk. rewrite fold_left_app. reflexivity. Qed.

Lemma end_node_snoc node es rel :
  end_node node (es ++ [rel]) = neighbor_of (end_node node es) rel.
Proof. unfold end_node. rewrite fold_left_app. reflexivity. Qed.

Lemma marketKey_walk es : forall e, marketKey (walk es e) = end_node (marketKey e) es.
Proof.
  induction es as [| rel rest IH]; intros e; [reflexivity |].
  cbn [walk fold_left end_node]. apply (IH (advance e rel)).
Qed.

Lemma depth_walk es : forall e, depth (walk es e) = (depth e + length es)%nat.
Proof.
  induction es as [| rel rest IH]; intros e; cbn [walk fold_left length]; [lia |].
  fold (walk rest (advance e rel)). rewrite IH. cbn [advance depth]. lia.
Qed.

Lemma route_head node es : route node es = node :: tl (route node es).
Proof. destruct es; reflexivity. Qed.

Lemma path_walk es : forall e,
  e_path (walk es e) = e_path e ++ tl (route (marketKey e) es).
Proof.
  induction es as [| rel rest IH]; intros e; cbn [walk fold_left route tl].
  - rewrite app_nil_r. reflexivity.
  - fold (walk rest (advance e rel)). rewrite IH. cbn [advance e_path marketKey].
    rewrite <- app_assoc. cbn [app]. rewrite <- route_head. reflexivity.
Qed.

Lemma conf_walk es : forall e,
  pathConfidence (walk es e)
  = fold_left (fun acc c => toFixed_value 4 (mul acc c))
              (map edgeConfidence_of es) (pathConfidence e).
Proof.
  induction es as [| rel rest IH]; intros e; [reflexivity |].
  cbn [walk fold_left map]. fold (walk rest (advance e rel)). rewrite IH. reflexivity.
Qed.

Lemma direction_walk es : forall e,
  direction (walk es e) = direction_along es (direction e).
Proof.
  induction es as [| rel rest IH]; intros e; [reflexivity |].
  cbn [walk fold_left direction_along]. fold (walk rest (advance e rel)).
  rewrite IH. reflexivity.
Qed.

Lemma linked_snoc es rel : forall node,
  linked node (es ++ [rel])
  <-> linked node es /\ touches (end_node node es) rel = true.
Proof.
  induction es as [| r rest IH]; intros node; cbn [app linked end_node fold_left].
  - tauto.
  - fold (end_node (neighbor_of node r) rest). rewrite IH. tauto.
Qed.

Lemma toFixed_value_fin d x : exists y, toFixed_value d (Fin x) = Fin y.
Proof. unfold toFixed_value. destruct (Qle_bool _ _); eauto. Qed.

Lemma advance_conf_fin e rel :
  finite (pathConfidence e) -> finite (pathConfidence (advance e rel)).
Proof.
  cbn [advance pathConfidence]. destruct (pathConfidence e) as [| |x|]; try contradiction.
  intros _. unfold edgeConfidence_of.
  destruct (confidence_score rel) as [c |]; cbn [mul];
    match goal with
    | |- finite (toFixed_value 4 (Fin ?q)) =>
        destruct (toFixed_value_fin 4 q) as [z Hz]; rewrite Hz; exact I
    end.
Qed.

Lemma walk_conf_fin es : forall e,
  finite (pathConfidence e) -> finite (pathConfidence (walk es e)).
Proof.
  induction es as [| rel rest IH]; intros e He; [exact He |].
  cbn [walk fold_left]. apply (IH (advance e rel)). apply advance_conf_fin. exact He.
Qed.

(** *** The universe of market keys *)

Lemma size_list_to_set_le (l : list string) :
  (size (list_to_set l : gset string) <= length l)%nat.
Proof.
  induction l as [| x l IH]; cbn [list_to_set length].
  - rewrite size_empty. lia.
  - rewrite size_union_alt, size_singleton.
    pose proof (subseteq_size (list_to_set l ∖ {[x]}) (list_to_set l : gset string)) as H.
    assert (Hs : (list_to_set l ∖ {[x]} : gset string) ⊆ list_to_set l) by set_solver.
    specialize (H Hs). lia.
Qed.

Lemma size_universe targetMarket (relationships : list Rel) :
  (size (universe targetMarket relationships) <= 1 + 2 * length relationships)%nat.
Proof.
  unfold universe. rewrite size_union_alt, size_singleton.
  set (keys := flat_map (fun r => [market_key_a r; market_key_b r]) relationships).
  assert (Hlen : length keys = (2 * length relationships)%nat).
  { unfold keys. induction relationships as [| r rest IH]; [reflexivity |].
    cbn [flat_map app length]. rewrite IH. lia. }
  pose proof (size_list_to_set_le keys) as H1.
  pose proof (subseteq_size (list_to_set keys ∖ {[targetMarket]})
                            (list_to_set keys : gset string)) as H2.
  assert (Hs : (list_to_set keys ∖ {[targetMarket]} : gset string) ⊆ list_to_set keys)
    by set_solver.
  specialize (H2 Hs). lia.
Qed.

Lemma neighbor_in_universe targetMarket (relationships : list Rel) node rel :
  In rel relationships -> neighbor_of node rel ∈ universe targetMarket relationships.
Proof.
  intros Hin. unfold universe. apply elem_of_union_r, elem_of_list_to_set.
  apply list_elem_of_In, in_flat_map. exists rel. split; [exact Hin |].
  unfold neighbor_of. destruct (String.eqb _ _); cbn; auto.
Qed.


(** *** The invariant of the traversal *)

Section Traversal.

Variable targetMarket initialDir : string.
Variable relationships : list Rel.

Local Abbreviation origin := (origin targetMarket initialDir).
Local Abbreviation universe := (universe targetMarket relationships).
Local Abbreviation reached := (reached targetMarket initialDir relationships).
Local Abbreviation found := (found targetMarket initialDir relationships).
Local Abbreviation Inv := (Inv targetMarket initialDir relationships).

Lemma start_inv : Inv (start targetMarket initialDir).
Proof.
  unfold Inv, start. cbn [impacts queue visited].
  split; [constructor |]. split.
  - constructor; [| constructor]. exists []. split; [constructor |]. split; [exact I |].
    reflexivity.
  - split; [intros imp [] |]. split; [constructor |].
    split; [set_solver |]. split; [constructor |]. unfold Scenario.universe. set_solver.
Qed.

Lemma visit_inv e st rel :
  Inv st -> reached e -> (depth e < MAX_DEPTH)%nat ->
  In rel relationships -> touches (marketKey e) rel = true ->
  Inv (visit e st rel).
Proof.
  intros (Hf & Hq & Hv & Hnd & Ht & Hne & Hu) (es & Hes & Hl & ->) Hd Hrel Htouch.
  unfold visit. destruct (bool_decide _) eqn:Evis.
  { repeat split; assumption. }
  apply bool_decide_eq_false in Evis.
  assert (Hu' : {[neighbor_of (marketKey (walk es origin)) rel]} ∪ visited st ⊆ universe).
  { pose proof (neighbor_in_universe targetMarket relationships
                  (marketKey (walk es origin)) rel Hrel). set_solver. }
  destruct (ltb _ MIN_PATH_CONF) eqn:Econf; unfold Inv; cbn [impacts queue visited].
  - split; [exact Hf |]. split; [exact Hq |].
    split; [intros imp Hi; apply elem_of_union_r, Hv, Hi |].
    split; [exact Hnd |]. split; [set_solver |]. split; [exact Hne | exact Hu'].
  - assert (Hlinked : linked targetMarket (es ++ [rel])).
    { apply linked_snoc. split; [exact Hl |].
      rewrite marketKey_walk in Htouch. exact Htouch. }
    assert (Hin : Forall (fun r => In r relationships) (es ++ [rel])).
    { apply Forall_app. split; [exact Hes | constructor; [exact Hrel | constructor]]. }
    split.
    { apply Forall_app. split; [exact Hf |]. constructor; [| constructor].
      exists es, rel. split; [exact Hin |]. split; [exact Hlinked |].
      split; [rewrite depth_walk in Hd; cbn in Hd; exact Hd |].
      split; [reflexivity | exact Econf]. }
    split.
    { apply Forall_app. split; [exact Hq |]. constructor; [| constructor].
      exists (es ++ [rel]). split; [exact Hin |]. split; [exact Hlinked |].
      rewrite walk_snoc. reflexivity. }
    split.
    { intros imp Hi. apply in_app_or in Hi as [Hi | [<- | []]].
      - apply elem_of_union_r, Hv, Hi.
      - apply elem_of_union_l, elem_of_singleton. reflexivity. }
    split.
    { rewrite map_app. apply NoDup_app. split; [exact Hnd |]. split.
      - intros k Hk Hk'. apply list_elem_of_In in Hk'. destruct Hk' as [<- | []].
        apply list_elem_of_In, in_map_iff in Hk as (imp & Hkey & Hi).
        apply Evis. cbn [impact_of i_market_key advance marketKey] in Hkey.
        rewrite <- Hkey. apply Hv. exact Hi.
      - apply NoDup_singleton. }
    split; [set_solver |]. split; [| exact Hu'].
    apply Forall_app. split; [exact Hne |]. constructor; [| constructor].
    cbn [impact_of i_market_key advance marketKey]. intros Heq. apply Evis.
    rewrite Heq. exact Ht.
Qed.

(** The queue grows by no more than the visited set. *)
Lemma visit_measure e st rel :
  (length (queue (visit e st rel)) + size (visited st)
   <= length (queue st) + size (visited (visit e st rel)))%nat.
Proof.
  unfold visit. destruct (bool_decide _) eqn:Evis; [lia |].
  apply bool_decide_eq_false in Evis.
  assert (Hsize : size ({[neighbor_of (marketKey e) rel]} ∪ visited st)
                  = S (size (visited st))).
  { rewrite size_union by set_solver. rewrite size_singleton. reflexivity. }
  destruct (ltb _ _); cbn [queue visited]; rewrite Hsize; [lia |].
  rewrite length_app. cbn [length]. lia.
Qed.

Lemma edges_inv e (edges : list Rel) : forall st,
  Inv st -> reached e -> (depth e < MAX_DEPTH)%nat ->
  Forall (fun rel => In rel relationships /\ touches (marketKey e) rel = true) edges ->
  Inv (fold_left (visit e) edges st)
  /\ (length (queue (fold_left (visit e) edges st)) + size (visited st)
      <= length (queue st) + size (visited (fold_left (visit e) edges st)))%nat.
Proof.
  induction edges as [| rel rest IH]; intros st Hinv He Hd Hall; cbn [fold_left].
  - split; [exact Hinv | lia].
  - apply Forall_cons in Hall as [[Hrel Htouch] Hrest].
    pose proof (visit_inv e st rel Hinv He Hd Hrel Htouch) as Hinv'.
    pose proof (visit_measure e st rel) as Hm.
    destruct (IH _ Hinv' He Hd Hrest) as [H1 H2]. split; [exact H1 | lia].
Qed.

Lemma turn_inv e rest st :
  Inv st -> queue st = e :: rest ->
  let st' := turn relationships e (mkBfs (visited st) (impacts st) rest) in
  Inv st'
  /\ (S (length (queue st')) + size (visited st)
      <= length (queue st) + size (visited st'))%nat.
Proof.
  intros (Hf & Hq & Hv & Hnd & Ht & Hne & Hu) Hqueue. rewrite Hqueue in Hq |- *.
  apply Forall_cons in Hq as [He Hq].
  assert (Hinv : Inv (mkBfs (visited st) (impacts st) rest))
    by (repeat split; assumption).
  cbn zeta. unfold turn. destruct (MAX_DEPTH <=? depth e)%nat eqn:Ed.
  - split; [exact Hinv |]. cbn [queue visited length]. lia.
  - apply Nat.leb_gt in Ed.
    assert (Hall : Forall (fun rel => In rel relationships
                                      /\ touches (marketKey e) rel = true)
                          (filter (touches (marketKey e)) relationships)).
    { apply Forall_forall. intros rel Hrel.
      apply list_elem_of_filter in Hrel as [Htouch Hrel].
      split; [apply list_elem_of_In; exact Hrel | apply Is_true_true; exact Htouch]. }
    destruct (edges_inv e _ _ Hinv He Ed Hall) as [H1 H2].
    split; [exact H1 |]. cbn [queue visited length] in H2 |- *. lia.
Qed.

Lemma loop_total fuel : forall st,
  Inv st ->
  (length (queue st) + size universe <= fuel + size (visited st))%nat ->
  exists l, loop fuel relationships st = Some l.
Proof.
  induction fuel as [| fuel IH]; intros st Hinv Hm.
  - assert (Hs : (size (visited st) <= size universe)%nat)
      by (apply subseteq_size, Hinv).
    destruct (queue st) as [| e rest] eqn:Eq; [| cbn [length] in Hm; lia].
    exists (impacts st). cbn [loop]. rewrite Eq. reflexivity.
  - cbn [loop]. destruct (queue st) as [| e rest] eqn:Eq; [eauto |].
    destruct (turn_inv e rest st Hinv Eq) as [Hinv' Hm']. cbn zeta in Hinv', Hm'.
    apply IH; [exact Hinv' |]. rewrite Eq in Hm'. cbn [length] in Hm, Hm'. lia.
Qed.

Lemma loop_inv fuel : forall st l,
  Inv st -> loop fuel relationships st = Some l ->
  Forall found l
  /\ NoDup (map i_market_key l)
  /\ Forall (fun imp => i_market_key imp <> targetMarket) l.
Proof.
  induction fuel as [| fuel IH]; intros st l Hinv Hloop; cbn [loop] in Hloop;
    destruct (queue st) as [| e rest] eqn:Eq; try discriminate.
  - injection Hloop as <-. split; [apply Hinv |]. split; apply Hinv.
  - injection Hloop as <-. split; [apply Hinv |]. split; apply Hinv.
  - destruct (turn_inv e rest st Hinv Eq) as [Hinv' _]. eapply IH; eassumption.
Qed.

End Traversal.


(** *** The sort *)

Lemma insert_sorted_perm x l : insert_sorted x l ≡ₚ x :: l.
Proof.
  induction l as [| y rest IH]; cbn [insert_sorted]; [reflexivity |].
  destruct (gtb _ _); [reflexivity |]. rewrite IH. apply perm_swap.
Qed.

Lemma sort_impacts_perm l : sort_impacts l ≡ₚ l.
Proof.
  unfold sort_impacts.
  assert (H : forall acc, fold_left (fun acc x => insert_sorted x acc) l acc ≡ₚ l ++ acc).
  { induction l as [| x rest IH]; intros acc; cbn [fold_left app]; [reflexivity |].
    rewrite IH, insert_sorted_perm. symmetry. apply Permutation_middle. }
  rewrite H, app_nil_r. reflexivity.
Qed.

Lemma found_sound targetMarket initialDir relationships imp :
  found targetMarket initialDir relationships imp ->
  i_market_key imp <> targetMarket ->
  impact_sound targetMarket initialDir relationships imp.
Proof.
  intros (es & rel & Hin & Hl & Hlen & -> & Hconf) Hne.
  split; [exact Hne |].
  cbn [impact_of order]. rewrite depth_walk. cbn [Scenario.origin depth].
  split; [lia |]. exists (es ++ [rel]).
  split; [exact Hin |]. split; [exact Hl |].
  split; [rewrite length_app; cbn [length]; lia |].
  cbn [impact_of path i_market_key i_direction i_confidence_score] in *.
  rewrite <- walk_snoc in *.
  split; [rewrite path_walk; cbn [Scenario.origin e_path marketKey app];
          symmetry; apply route_head |].
  split; [apply marketKey_walk |]. split; [apply direction_walk |].
  split; [apply conf_walk |].
  pose proof (walk_conf_fin (es ++ [rel]) (origin targetMarket initialDir) I) as Hfin.
  destruct (pathConfidence (walk (es ++ [rel]) (origin targetMarket initialDir)))
    as [| |c|]; try contradiction.
  exists c. split; [reflexivity |]. apply Qltb_ge. exact Hconf.
Qed.

(** The graph O - X - Y - Z shocked UP at O: X at order 1, UP, 0.9; Y at
    order 2, DOWN, 0.72; Z is beyond the depth bound. *)
Example traversal_three_edges :
  map (fun imp => (i_market_key imp, order imp, i_direction imp, path imp))
      (traverseGraph "O" "UP" sample_graph)
  = [("X", 1%nat, "UP", ["O"; "X"]); ("Y", 2%nat, "DOWN", ["O"; "X"; "Y"])]
  /\ Forall2 num_eq (map i_confidence_score (traverseGraph "O" "UP" sample_graph))
                    [Fin (9 # 10); Fin (72 # 100)].
Proof.
  split; [vm_compute; reflexivity |].
  vm_compute. repeat constructor.
Qed.

(** A single neighbour behind an edge of confidence 0.04 is pruned. *)
Example traversal_pruned :
  traverseGraph "O" "UP"
    [mkRel "O" "W" "equivalent" (Some (4 # 100)) None None None None None None None None]
  = [].
Proof. vm_compute. reflexivity. Qed.

(** C5. The traversal, from any target over any relationships, ends
    within the turns it is given; no market key occurs twice among its
    impacts; the order of an impact is 1 or 2; and the cumulative
    confidence of an impact is the product of the edge confidences along
    its path, rounded to four decimals at every edge, and at least 0.05. *)
Theorem C5_traversal_bounded (targetMarket initialDir : string)
    (relationships : list Rel) :
  traverseGraph_run targetMarket initialDir relationships
  = Some (traverseGraph targetMarket initialDir relationships)
  /\ NoDup (map i_market_key (traverseGraph targetMarket initialDir relationships))
  /\ Forall (impact_sound targetMarket initialDir relationships)
            (traverseGraph targetMarket initialDir relationships).
Proof.
  pose proof (start_inv targetMarket initialDir relationships) as Hstart.
  destruct (loop_total targetMarket initialDir relationships
              (turns relationships) _ Hstart) as [l Hl].
  { pose proof (size_universe targetMarket relationships) as Hu.
    unfold turns, start. cbn [queue visited length]. rewrite size_singleton. lia. }
  destruct (loop_inv targetMarket initialDir relationships _ _ _ Hstart Hl)
    as (Hfound & Hnd & Hne).
  unfold traverseGraph, traverseGraph_run. rewrite Hl. cbn [option_map].
  split; [reflexivity |]. split.
  - rewrite (sort_impacts_perm l). exact Hnd.
  - rewrite (sort_impacts_perm l). apply Forall_forall. intros imp Hi.
    rewrite Forall_forall in Hfound, Hne.
    apply found_sound; [apply Hfound | apply Hne]; exact Hi.
Qed.

(** C5, as stated, fails: over the graph of the single edge O - X of
    confidence 0.33333, the impact on X has the cumulative confidence
    0.3333, which is not the product of the edge confidences along its
    path. *)
Lemma C5_counterexample :
  ~ Forall (fun imp =>
              num_eq (i_confidence_score imp) (path_product [sample_edge] (path imp)))
           (traverseGraph "O" "UP" [sample_edge]).
Proof.
  intros H. vm_compute in H. apply Forall_cons in H as [H _].
  vm_compute in H. discriminate H.
Qed.


(** *** The endpoint *)

Lemma saveReport_rows w userQuery targetMarket impacts narratives :
  let out := saveReport w userQuery targetMarket impacts narratives in
  (snd out = [] /\ fst out = None)
  \/ (snd out = [report_row userQuery targetMarket impacts narratives]
      /\ exists id, fst out = Some id).
Proof.
  cbn zeta. unfold saveReport. destruct (insertReport w _); cbn [fst snd]; eauto.
Qed.

Lemma predictScenario_rows w userQuery :
  match predictScenario w userQuery with
  | (inl _, rows) => rows = []
  | (inr report, rows) =>
      (rows = [] /\ report_id report = None)
      \/ (rows = [report_row (user_query report) (r_target_market report)
                             (r_impacts report) (narratives report)]
          /\ exists id, report_id report = Some id)
  end.
Proof.
  unfold predictScenario.
  destruct (loadMarketGraph w) as [err | relationships]; [reflexivity |].
  destruct (parseScenario w userQuery) as [err | parsed]; [reflexivity |].
  destruct (generateNarratives w userQuery parsed _) as [err | narr]; [reflexivity |].
  pose proof (saveReport_rows w userQuery (target_market parsed)
                (traverseGraph (target_market parsed) (p_direction parsed) relationships)
                narr) as H.
  cbn zeta in H. destruct (saveReport w userQuery _ _ narr) as [reportId rows].
  cbn [fst snd report_id user_query r_target_market r_impacts narratives] in *.
  destruct H as [[-> ->] | [-> [id ->]]]; eauto.
Qed.

(** A scenario fails exactly when one of its steps throws, with the error
    of that step. *)
Lemma predictScenario_failure w userQuery :
  match scenario_failure w userQuery with
  | Some err => predictScenario w userQuery = (inl err, [])
  | None => exists report, fst (predictScenario w userQuery) = inr report
  end.
Proof.
  unfold scenario_failure, predictScenario.
  destruct (loadMarketGraph w) as [err | relationships]; [reflexivity |].
  destruct (parseScenario w userQuery) as [err | parsed]; [reflexivity |].
  destruct (traverseGraph _ _ relationships) as [| imp rest] eqn:Et.
  - cbn [generateNarratives]. destruct (saveReport w _ _ _ _). eexists. reflexivity.
  - cbn [generateNarratives].
    destruct (askNarratives w userQuery parsed (imp :: rest)) as [err | narr];
      [reflexivity |].
    destruct (saveReport w _ _ _ _). eexists. reflexivity.
Qed.

(** When every call settles, the client gets the response of the handler. *)
Lemma awaitScenario_settled w userQuery :
  awaitScenario (settled w) userQuery = Settled (fst (predictScenario w userQuery)).
Proof.
  unfold awaitScenario, predictScenario, settled.
  cbn [await_loadMarketGraph await_parseScenario await_askNarratives await_insertReport].
  destruct (loadMarketGraph w) as [err | relationships]; [reflexivity |].
  destruct (parseScenario w userQuery) as [err | parsed]; [reflexivity |].
  destruct (traverseGraph _ _ relationships) as [| imp rest] eqn:Et;
    cbn [generateNarratives].
  - unfold saveReport. destruct (insertReport w _); reflexivity.
  - destruct (askNarratives w userQuery parsed (imp :: rest)) as [err | narr];
      [reflexivity |].
    unfold saveReport. destruct (insertReport w _); reflexivity.
Qed.

Lemma scenarioResponse_settled w body :
  scenarioResponse (settled w) body = Some (fst (postScenario w body)).
Proof.
  unfold scenarioResponse, postScenario. destruct body as [message | | query];
    try reflexivity.
  destruct (trim query) as [| ch q]; [reflexivity |].
  rewrite awaitScenario_settled.
  destruct (predictScenario w (String ch q)) as [[err | report] rows]; reflexivity.
Qed.

Lemma awaitScenario_unsettled c userQuery :
  awaitScenario c userQuery = Unsettled -> awaits_unsettled c userQuery.
Proof.
  unfold awaitScenario, awaits_unsettled.
  destruct (await_loadMarketGraph c) as [[err | relationships] |]; [discriminate | | auto].
  destruct (await_parseScenario c userQuery) as [[err | parsed] |] eqn:Ep;
    [discriminate | | auto].
  destruct (traverseGraph _ _ relationships) as [| imp rest].
  - destruct (await_insertReport c _) eqn:Ei; [discriminate |].
    intros _. right. right. right. eexists. split; [| exact Ei]. reflexivity.
  - destruct (await_askNarratives c userQuery parsed (imp :: rest))
      as [[err | narr] |] eqn:En; [discriminate | | eauto 8].
    destruct (await_insertReport c _) eqn:Ei; [discriminate |].
    intros _. right. right. right. eexists. split; [| exact Ei]. reflexivity.
Qed.




End ScenarioFacts.

(* ===================================================================== *)
(** * Further properties *)
(* ===================================================================== *)

(** ** The records of the aggregator *)

Module FeedFacts.
Import JsNum JsText JsNumFacts Aggregator AggregatorFacts.

Section WithLog10.

Variable log10 : Q -> Q.

Local Abbreviation normalizePolymarketTrade := (normalizePolymarketTrade log10).
Local Abbreviation normalizeKalshiTrade := (normalizeKalshiTrade log10).
Local Abbreviation normalizeKalshiTicker := (normalizeKalshiTicker log10).
Local Abbreviation onFrame := (onFrame log10).
Local Abbreviation run_from := (run_from log10).
Local Abbreviation emitted := (emitted log10).
Local Abbreviation calculateUnifiedConfidence := (calculateUnifiedConfidence log10).

(** Where a record comes from: a frame of the order-book venue whose
    record has a price above 0, a trade of the ticker venue whose record
    has a size or a price above 0, or a ticker. *)
Lemma onFrame_records cache f q :
  In q (snd (onFrame cache f)) ->
  (exists msg, f = FromPolymarket msg /\ q = normalizePolymarketTrade cache msg
               /\ gtb (price q) (Fin 0) = true)
  \/ (exists data, f = FromKalshi data /\ q = normalizeKalshiTrade cache data
                   /\ gtb (size q) (Fin 0) || gtb (price q) (Fin 0) = true)
  \/ (exists data, f = FromKalshi data /\ q = snd (normalizeKalshiTicker cache data)).
Proof.
  destruct f as [msg | data]; cbn [Aggregator.onFrame].
  - unfold polymarketOnMessage.
    destruct (str_in _ ["trade"; "last_trade_price"; "price_change"; "best_bid_ask"]%string).
    + cbn [snd]. destruct (gtb _ _) eqn:E; [| intros []].
      intros [<- | []]. left. exists msg. auto.
    + destruct (str_in _ ["book"; "book_snapshot"]%string); intros [].
  - unfold kalshiOnMessage. destruct (str_in (km_type data) ["trade"]%string).
    + cbn [snd]. destruct (_ || _) eqn:E; [| intros []].
      intros [<- | []]. right. left. exists data. auto.
    + destruct (str_in (km_type data) ["ticker"]%string); [| intros []].
      destruct (normalizeKalshiTicker cache data) as [cache' record] eqn:En.
      cbn [snd]. intros [<- | []]. right. right. exists data. rewrite En. auto.
Qed.

Lemma run_from_source frames : forall cache q,
  In q (snd (run_from cache frames)) ->
  exists cache' f, In f frames /\ In q (snd (onFrame cache' f)).
Proof.
  induction frames as [| f rest IH]; intros cache q; cbn [Aggregator.run_from];
    [intros [] |].
  destruct (onFrame cache f) as [cache' out] eqn:Ef.
  specialize (IH cache' q).
  destruct (run_from cache' rest) as [cache'' outs]. cbn [snd] in *.
  intros Hin. apply in_app_or in Hin as [Hin | Hin].
  - exists cache, f. split; [left; reflexivity |]. rewrite Ef. exact Hin.
  - destruct (IH Hin) as (c & f' & H2 & H3). exists c, f'. auto using in_cons.
Qed.

Lemma emitted_source frames q :
  In q (emitted frames) ->
  exists cache f, In f frames /\ In q (snd (onFrame cache f)).
Proof. apply run_from_source. Qed.

Lemma field_size (x : Field) :
  finite_field x ->
  exists s, parseFloat (Some (nullish x (Fin 0))) = Fin s
            /\ (not_negative x -> 0 <= s).
Proof.
  destruct x as [[| |v|]|]; intros Hx; try contradiction; cbn.
  - exists v. split; [reflexivity |]. apply Qltb_ge.
  - exists 0. split; [reflexivity | intros _; lra].
Qed.

Lemma score_nonneg q :
  record_ok log10 q -> exists l, liquidity_score q = Fin l /\ 0 <= l.
Proof.
  intros ((_ & _ & Hscore & _) & Hsp & _).
  destruct (score_bounded log10 (liquidity_depth_usd q) _ Hsp) as (z & Hz & Hr).
  exists (inject_Z z). rewrite Hscore. split; [exact Hz |].
  change 0 with (inject_Z 0). rewrite <- Zle_Qle. lia.
Qed.

(** X1. Every record enqueued names one of the two platforms, and a record
    of the ticker venue has the side buy.  When the numeric fields of the
    frames are absent or hold finite numbers, and no frame carries a
    negative size, count or volume, every record enqueued passes the CHECK
    constraints of the table [market_signals]: the platform is kalshi or
    polymarket, the price lies in [0, 1], the side is buy or sell, the size
    and the liquidity score are numbers that are not negative. *)
Theorem records_pass_checks (frames : list Frame) (q : Quote) :
  In q (emitted frames) ->
  (platform q = "kalshi" \/ platform q = "polymarket")
  /\ (platform q = "kalshi" -> side q = "buy")
  /\ (Forall frame_finite frames -> Forall frame_sizes_ok frames -> passes_checks q).
Proof.
  intros Hin.
  destruct (emitted_source frames q Hin) as (cache & f & Hf & Hrec).
  assert (Hside : (platform q = "kalshi" \/ platform q = "polymarket")
                  /\ (platform q = "kalshi" -> side q = "buy")
                  /\ (side q = "buy" \/ side q = "sell")
                  /\ (frame_finite f ->
                      exists s, size q = Fin s /\ (frame_sizes_ok f -> 0 <= s))).
  { destruct (onFrame_records cache f q Hrec)
      as [(msg & -> & -> & _) | [(data & -> & -> & _) | (data & -> & ->)]].
    - cbn [Aggregator.normalizePolymarketTrade platform side size].
      split; [right; reflexivity |]. split; [discriminate |].
      split; [destruct (String.eqb _ _); auto |].
      intros (_ & _ & _ & Hfin & _).
      destruct (field_size (pm_size msg) Hfin) as (s & Hs & H0). exists s. auto.
    - cbn [Aggregator.normalizeKalshiTrade platform side size].
      split; [left; reflexivity |]. split; [reflexivity |]. split; [left; reflexivity |].
      intros (_ & _ & Hfin & _).
      destruct (field_size (km_count data) Hfin) as (s & Hs & H0). exists s.
      split; [exact Hs |]. intros [H _]. auto.
    - cbn [Aggregator.normalizeKalshiTicker snd platform side size].
      split; [left; reflexivity |]. split; [reflexivity |]. split; [left; reflexivity |].
      intros (_ & _ & _ & _ & _ & Hfin).
      destruct (field_size (km_volume data) Hfin) as (s & Hs & H0). exists s.
      split; [exact Hs |]. intros [_ H]. auto. }
  destruct Hside as (Hp & Hk & Hs & Hsize).
  split; [exact Hp |]. split; [exact Hk |].
  intros Hfin Hall. pose proof (emitted_ok log10 frames q Hfin Hin) as Hq.
  rewrite Forall_forall in Hfin, Hall.
  destruct (Hsize (Hfin f (proj2 (list_elem_of_In _ _) Hf))) as (s & Es & Hs0).
  split; [exact Hp |]. split; [apply Hq |]. split; [exact Hs |].
  split; [| apply score_nonneg; exact Hq].
  exists s. split; [exact Es |]. apply Hs0, Hall, list_elem_of_In. exact Hf.
Qed.

(** X2. A record of the order-book venue is enqueued only with a price
    above 0: every such record has a price in (0, 1]. *)
Theorem polymarket_price_positive (frames : list Frame) (q : Quote) :
  In q (emitted frames) ->
  platform q = "polymarket" ->
  exists p, price q = Fin p /\ 0 < p <= 1.
Proof.
  intros Hin Hp.
  pose proof (emitted_quote_ok log10 frames q Hin) as ((p & Hprice & Hr) & _).
  destruct (emitted_source frames q Hin) as (cache & f & Hf & Hrec).
  destruct (onFrame_records cache f q Hrec)
    as [(msg & -> & _ & Hpos) | [(data & -> & -> & _) | (data & -> & ->)]];
    try discriminate Hp.
  exists p. split; [exact Hprice |]. rewrite Hprice in Hpos.
  unfold gtb in Hpos. cbn [ltb] in Hpos. apply Qltb_lt in Hpos. lra.
Qed.

(** X3. A trade of the ticker venue that follows a ticker of the same
    market takes its [volume_24h] from it, and its spread too when both
    sides of the ticker were quoted: it is then the spread of the record
    of the ticker.  After a ticker with one side only, the spread of the
    trade is unknown. *)
Theorem kalshi_trade_inherits (cache : gmap string CacheEntry) (ticker trade : KalshiMsg) :
  km_market_ticker trade = km_market_ticker ticker ->
  let tick := normalizeKalshiTicker cache ticker in
  let q := normalizeKalshiTrade (fst tick) trade in
  volume_24h q = volume_24h (snd tick)
  /\ bid_ask_spread_pct q
     = (if two_sided ticker then bid_ask_spread_pct (snd tick) else None).
Proof.
  intros Hk. cbn zeta.
  unfold Aggregator.normalizeKalshiTicker, Aggregator.normalizeKalshiTrade, two_sided.
  cbn [fst snd volume_24h bid_ask_spread_pct]. rewrite Hk, lookup_insert_eq.
  cbn [state_volume state_spread state_yesBid state_yesAsk truthy_opt nullish parseFloat].
  split; [reflexivity |].
  destruct (km_yes_bid ticker) as [b |], (km_yes_ask ticker) as [a |];
    cbn [nullish truthy_opt];
    try (destruct b as [| |b|]); try (destruct a as [| |a|]);
    cbn [truthy andb];
    try (destruct (negb (Qeq_bool b 0))); try (destruct (negb (Qeq_bool a 0)));
    cbn [andb]; nsimpl; reflexivity.
Qed.

Lemma book_not_trade (t : option string) :
  str_in t ["book"; "book_snapshot"]%string = true ->
  str_in t ["trade"; "last_trade_price"; "price_change"; "best_bid_ask"]%string = false.
Proof.
  destruct t as [x |]; [| discriminate]. cbn [str_in existsb].
  rewrite !orb_false_r. intros H. apply orb_true_iff in H as [H | H];
    apply String.eqb_eq in H; subst x; reflexivity.
Qed.

(** X4. A record of the order-book venue that follows a book snapshot of
    the same asset carries the depth computed from that book around the
    mid of its best bid and best ask, and, for a best bid [b] and a best
    ask [a] with 0 < b <= a, the spread 200 (a - b) / (a + b), the gap
    relative to the mid in percent: a number in [0, 200). *)
Theorem polymarket_trade_reads_book (cache : gmap string CacheEntry)
    (book trade : PolyMsg) (key : string) (b a : Q) (sb sa : Field)
    (bids asks : list Level) :
  str_in (or_else (pm_event_type book) (pm_type book)) ["book"; "book_snapshot"]%string
  = true ->
  or_else (pm_asset_id book) (pm_market book) = Some key ->
  key <> ""%string ->
  or_else (pm_asset_id trade) (pm_market trade) = Some key ->
  pm_bids book = mkLevel (Some (Fin b)) sb :: bids ->
  pm_asks book = mkLevel (Some (Fin a)) sa :: asks ->
  0 < b <= a ->
  let q := normalizePolymarketTrade (fst (polymarketOnMessage log10 cache book)) trade in
  liquidity_depth_usd q
  = computePolymarketBookDepth (pm_bids book) (pm_asks book) (Fin ((b + a) / 2))
  /\ exists s, bid_ask_spread_pct q = Some (Fin s)
               /\ s == 200 * (a - b) / (a + b)
               /\ 0 <= s < 200.
Proof.
  intros Hty Hkey Hne Htrade Hbids Hasks [Hb Hab]. cbn zeta.
  unfold polymarketOnMessage. rewrite (book_not_trade _ Hty), Hty, Hkey.
  assert (Hts : truthy_str (Some key) = true) by (destruct key; [congruence | reflexivity]).
  rewrite Hts. cbn [fst nullish].
  unfold Aggregator.normalizePolymarketTrade.
  cbn [liquidity_depth_usd bid_ask_spread_pct]. rewrite Htrade.
  cbn [cache_get]. rewrite lookup_insert_eq.
  cbn [state_depth state_bestBid state_bestAsk nullish].
  rewrite Hbids, Hasks. cbn [getPrice lv_price parseFloat].
  assert (Tb : truthy (Fin b) = true) by (apply truthy_fin; lra).
  assert (Ta : truthy (Fin a) = true) by (apply truthy_fin; lra).
  rewrite Tb, Ta. cbn [andb add]. rewrite div_fin by reflexivity.
  split; [reflexivity |].
  cbn [sub neg add]. rewrite (div_fin (a + b) 2) by reflexivity.
  assert (Hsum : 0 < a + b) by lra.
  assert (Hmid : 0 < (a + b) / 2) by (apply Qlt_shift_div_l; lra).
  rewrite div_fin by (apply Qeq_bool_false; lra).
  cbn [mul]. eexists. split; [reflexivity |].
  split; [field; lra |].
  split.
  - apply Qmult_le_0_compat; [| lra]. apply Qle_shift_div_l; lra.
  - assert (H : (a + - b) / ((a + b) / 2) < 2).
    { apply Qlt_shift_div_r; [exact Hmid |].
      assert (Hd : 2 * ((a + b) / 2) == a + b) by field. rewrite Hd. lra. }
    lra.
Qed.

End WithLog10.

(** *** The depth of a book *)

Lemma geb_fin p lb : geb (Fin p) (Fin lb) = Qle_bool lb p.
Proof.
  unfold geb, leb. cbn [isNaN negb andb ltb].
  destruct (Qltb p lb) eqn:E, (Qle_bool lb p) eqn:E'; try reflexivity.
  - apply Qltb_lt in E. apply Qle_bool_iff in E'. lra.
  - apply Qltb_ge in E. apply Qle_bool_iff in E. congruence.
Qed.

Lemma leb_fin p ub : leb (Fin p) (Fin ub) = Qle_bool p ub.
Proof. apply (geb_fin ub p). Qed.

Lemma getPrice_complete e : complete e -> getPrice e = Fin (level_price e).
Proof.
  intros [[p Hp] _]. unfold getPrice, level_price. rewrite Hp. reflexivity.
Qed.

Lemma getSize_complete e : complete e -> getSize e = Fin (level_size e).
Proof.
  intros [_ [z Hz]]. unfold getSize, level_size. rewrite Hz. reflexivity.
Qed.

Lemma filter_bids (lb : Q) (l : list Level) :
  Forall complete l ->
  filter (fun e => geb (getPrice e) (Fin lb)) l
  = filter (fun e => Qle_bool lb (level_price e)) l.
Proof.
  induction 1 as [| e l He _ IH]; [reflexivity |].
  rewrite !filter_cons, IH, (getPrice_complete e He), geb_fin. reflexivity.
Qed.

Lemma filter_asks (ub : Q) (l : list Level) :
  Forall complete l ->
  filter (fun e => leb (getPrice e) (Fin ub)) l
  = filter (fun e => Qle_bool (level_price e) ub) l.
Proof.
  induction 1 as [| e l He _ IH]; [reflexivity |].
  rewrite !filter_cons, IH, (getPrice_complete e He), leb_fin. reflexivity.
Qed.

Lemma sum_levels_from (l : list Level) :
  Forall complete l ->
  forall acc, exists d,
    fold_left (fun sum e => add sum (mul (getPrice e) (getSize e))) l (Fin acc) = Fin d
    /\ d == acc + ladder_value l.
Proof.
  induction 1 as [| e l He _ IH]; intros acc; cbn [fold_left ladder_value fold_right].
  - exists acc. split; [reflexivity | ring].
  - rewrite (getPrice_complete e He), (getSize_complete e He). cbn [mul add].
    destruct (IH (acc + level_price e * level_size e)) as (d & Hd & Hv).
    exists d. split; [exact Hd |]. rewrite Hv.
    fold (ladder_value l). ring.
Qed.

Lemma sum_levels_value (l : list Level) :
  Forall complete l -> exists d, sum_levels l = Fin d /\ d == ladder_value l.
Proof.
  intros Hl. destruct (sum_levels_from l Hl 0) as (d & Hd & Hv).
  exists d. split; [exact Hd |]. rewrite Hv. ring.
Qed.

Lemma Forall_filter_complete (P : Level -> Prop) `{!forall e, Decision (P e)} l :
  Forall complete l -> Forall complete (filter P l).
Proof.
  induction 1 as [| e l He _ IH]; [constructor |].
  rewrite filter_cons. destruct (decide (P e)); [constructor |]; assumption.
Qed.

Lemma ladder_value_nonneg l : Forall not_negative_level l -> 0 <= ladder_value l.
Proof.
  induction 1 as [| e l [Hp Hs] _ IH]; cbn [ladder_value fold_right]; [lra |].
  fold (ladder_value l). pose proof (Qmult_le_0_compat _ _ Hp Hs). lra.
Qed.

Lemma ladder_value_filter (P : Level -> Prop) `{!forall e, Decision (P e)} l :
  Forall not_negative_level l ->
  0 <= ladder_value (filter P l) <= ladder_value l.
Proof.
  induction 1 as [| e l [Hp Hs] Hl IH]; [cbn; lra |].
  rewrite filter_cons. pose proof (Qmult_le_0_compat _ _ Hp Hs) as Hn.
  destruct (decide (P e)); cbn [ladder_value fold_right];
    fold (ladder_value l); fold (ladder_value (filter P l)); lra.
Qed.

(** X5. For a book whose levels all carry a price and a size, the depth
    is the sum of price times size over the bids priced at 98% of the mid
    or more and the asks priced at 102% of the mid or less, and 0 when the
    mid is 0; when no price and no size is negative, it lies between 0 and
    the value of the whole book. *)
Theorem book_depth_value (bids asks : list Level) (mid : Q) :
  Forall complete bids -> Forall complete asks ->
  (exists d, computePolymarketBookDepth bids asks (Fin mid) = Fin d
             /\ d == (if Qeq_bool mid 0 then 0 else value_near bids asks mid))
  /\ (Forall not_negative_level (bids ++ asks) ->
      exists d, computePolymarketBookDepth bids asks (Fin mid) = Fin d
                /\ 0 <= d <= ladder_value bids + ladder_value asks).
Proof.
  intros Hb Ha.
  assert (Hval : exists d, computePolymarketBookDepth bids asks (Fin mid) = Fin d
             /\ d == (if Qeq_bool mid 0 then 0 else value_near bids asks mid)
             /\ (Forall not_negative_level (bids ++ asks) ->
                 0 <= d <= ladder_value bids + ladder_value asks)).
  { unfold computePolymarketBookDepth. cbn [truthy].
    destruct (Qeq_bool mid 0) eqn:Em; cbn [negb].
    { exists 0. split; [reflexivity |]. split; [reflexivity |].
      intros Hn. apply Forall_app in Hn as [Hn1 Hn2].
      pose proof (ladder_value_nonneg _ Hn1). pose proof (ladder_value_nonneg _ Hn2). lra. }
    destruct (Nat.eqb (length bids) 0 && Nat.eqb (length asks) 0)%bool eqn:Ee.
    { apply andb_true_iff in Ee as [E1 E2]. apply Nat.eqb_eq in E1, E2.
      destruct bids; [| discriminate]. destruct asks; [| discriminate].
      exists 0. split; [reflexivity |].
      split; [vm_compute; reflexivity | intros _; vm_compute; split; discriminate]. }
    cbn [mul]. rewrite (filter_bids _ _ Hb), (filter_asks _ _ Ha).
    destruct (sum_levels_value
                (filter (fun e => Qle_bool (mid * (49 # 50)) (level_price e)) bids))
      as (d1 & Hd1 & Hv1); [apply Forall_filter_complete; exact Hb |].
    destruct (sum_levels_value
                (filter (fun e => Qle_bool (level_price e) (mid * (51 # 50))) asks))
      as (d2 & Hd2 & Hv2); [apply Forall_filter_complete; exact Ha |].
    rewrite Hd1, Hd2. cbn [add]. exists (d1 + d2). split; [reflexivity |].
    split; [unfold value_near; rewrite Hv1, Hv2; reflexivity |].
    intros Hn. apply Forall_app in Hn as [Hn1 Hn2]. rewrite Hv1, Hv2.
    pose proof (ladder_value_filter
                  (fun e => Qle_bool (mid * (49 # 50)) (level_price e)) bids Hn1).
    pose proof (ladder_value_filter
                  (fun e => Qle_bool (level_price e) (mid * (51 # 50))) asks Hn2).
    lra. }
  destruct Hval as (d & Hd & Hv & Hn). split; [exists d; auto |].
  intros H. exists d. auto.
Qed.

(** *** The scale of the spread component *)

Lemma Math_max_fin x y : exists m, Math_max (Fin x) (Fin y) = Fin m /\ m == Qmax x y.
Proof.
  cbn [Math_max ltb]. destruct (Qltb x y) eqn:E.
  - apply Qltb_lt in E. exists y. split; [reflexivity |]. rewrite Q.max_r; lra.
  - apply Qltb_ge in E. exists x. split; [reflexivity |]. rewrite Q.max_l; lra.
Qed.

Lemma Math_min_fin x y : exists m, Math_min (Fin x) (Fin y) = Fin m /\ m == Qmin x y.
Proof.
  cbn [Math_min ltb]. destruct (Qltb y x) eqn:E.
  - apply Qltb_lt in E. exists y. split; [reflexivity |]. rewrite Q.min_r; lra.
  - apply Qltb_ge in E. exists x. split; [reflexivity |]. rewrite Q.min_l; lra.
Qed.

Lemma spread_component_value s :
  exists c, spread_component (Some (Fin s)) = Fin c /\ c == Qmax 0 (40 - 2 * s).
Proof.
  unfold spread_component. cbn [mul sub neg add].
  destruct (Math_max_fin 0 (40 + - (s * 2))) as (m & Hm & Hv).
  exists m. split; [exact Hm |]. rewrite Hv.
  apply Q.max_compat; [reflexivity | ring].
Qed.

Section Scale.

Variable log10 : Q -> Q.

Lemma score_value depth d s :
  depth_component log10 depth = Fin d ->
  calculateUnifiedConfidence log10 depth (Some (Fin s)) = Fin (inject_Z (score_of d s)).
Proof.
  intros Hd. rewrite score_is_round, Hd.
  destruct (spread_component_value s) as (c & Hc & Hcv). rewrite Hc. cbn [add].
  destruct (Math_max_fin (d + c) 0) as (m & Hm & Hmv). rewrite Hm.
  destruct (Math_min_fin m 100) as (n & Hn & Hnv). rewrite Hn.
  cbn [Math_round]. do 2 f_equal. unfold score_of. apply Qfloor_comp.
  rewrite Hnv, Hmv, Hcv. reflexivity.
Qed.

Lemma score_of_antitone d s1 s2 : s1 <= s2 -> (score_of d s2 <= score_of d s1)%Z.
Proof.
  intros Hs. unfold score_of. apply Qfloor_resp_le.
  apply Qplus_le_compat; [| lra].
  apply Q.min_le_compat_r, Q.max_le_compat_r.
  apply Qplus_le_compat; [lra |]. apply Q.max_le_compat_l. lra.
Qed.

(** X6. The spread component follows the scale of the documentation: for a
    spread [s] it is max(0, 40 - 2 s), that is 40 at 0%, 20 at 10% and 0
    from 20% on, and it is 20 when the spread is unknown.  For a given
    depth, a wider spread never gives a higher score, and an unknown spread
    scores as a spread of 10%. *)
Theorem spread_scale (depth : num) (s1 s2 : Q) :
  s1 <= s2 ->
  (exists c, spread_component (Some (Fin s1)) = Fin c /\ c == Qmax 0 (40 - 2 * s1))
  /\ spread_component None = Fin 20
  /\ (20 <= s2 -> num_eq (spread_component (Some (Fin s2))) (Fin 0))
  /\ (exists z1 z2,
        calculateUnifiedConfidence log10 depth (Some (Fin s1)) = Fin (inject_Z z1)
        /\ calculateUnifiedConfidence log10 depth (Some (Fin s2)) = Fin (inject_Z z2)
        /\ (z2 <= z1)%Z)
  /\ calculateUnifiedConfidence log10 depth None
     = calculateUnifiedConfidence log10 depth (Some (Fin 10)).
Proof.
  intros Hs. split; [apply spread_component_value |]. split; [reflexivity |].
  split.
  { intros H20. destruct (spread_component_value s2) as (c & -> & Hc). cbn [num_eq].
    rewrite Hc. apply Q.max_l. lra. }
  destruct (depth_component_fin log10 depth) as [d Hd].
  split.
  { exists (score_of d s1), (score_of d s2).
    split; [apply score_value; exact Hd |]. split; [apply score_value; exact Hd |].
    apply score_of_antitone. exact Hs. }
  rewrite !score_is_round. reflexivity.
Qed.

End Scale.

(** *** Reconnection *)

Lemma nextDelay_value base max random attempt :
  exists d, nextDelay base max random attempt = Fin d
            /\ d == Qmin (base * inject_Z (2 ^ Z.of_nat attempt) + random * 500) max.
Proof.
  unfold nextDelay. cbn [mul add]. apply Math_min_fin.
Qed.

(** X7. The delay before a reconnection, for a draw of [Math.random] in
    [0, 1): it never exceeds the maximum delay; it is at least the base
    delay doubled [attempt] times, or the maximum if that is less; it is
    the maximum as soon as the doubled base delay reaches it; and below
    that it exceeds the doubled base delay by a jitter of less than
    500 ms. *)
Theorem next_delay_capped (base max random : Q) (attempt : nat) :
  0 <= random < 1 ->
  let grown := base * inject_Z (2 ^ Z.of_nat attempt) in
  exists d, nextDelay base max random attempt = Fin d
            /\ d <= max
            /\ Qmin grown max <= d
            /\ (max <= grown -> d == max)
            /\ (grown + 500 <= max -> grown <= d < grown + 500).
Proof.
  intros [Hr0 Hr1]. cbn zeta.
  destruct (nextDelay_value base max random attempt) as (d & Hd & Hv).
  exists d. split; [exact Hd |]. rewrite Hv.
  set (grown := base * inject_Z (2 ^ Z.of_nat attempt)).
  destruct (Q.min_spec (grown + random * 500) max) as [[H1 H2] | [H1 H2]];
    destruct (Q.min_spec grown max) as [[H3 H4] | [H3 H4]];
    rewrite H2, ?H4; repeat split; intros; try lra.
Qed.

Lemma connector_app base max passes1 : forall attempt passes2,
  connector base max attempt (passes1 ++ passes2)
  = connector base max attempt passes1
    ++ connector base max
         (fold_left (fun a (p : bool * Q) => S (if fst p then 0%nat else a)) passes1 attempt)
         passes2.
Proof.
  induction passes1 as [| [o r] rest IH]; intros attempt passes2; [reflexivity |].
  cbn [app connector reconnect fold_left fst]. rewrite IH. reflexivity.
Qed.

Lemma connector_failures base max (fails : list Q) : forall attempt,
  connector base max attempt (map (fun r => (false, r)) fails)
  = imap (fun j r => nextDelay base max r (attempt + j)) fails.
Proof.
  induction fails as [| r rest IH]; intros attempt; [reflexivity |].
  cbn [map connector reconnect imap]. rewrite Nat.add_0_r. f_equal.
  rewrite IH. apply imap_ext. intros j x _. unfold compose.
  replace (S attempt + j)%nat with (attempt + S j)%nat by lia. reflexivity.
Qed.

(** X8. In the loop of a connector, the exponent of the backoff is the
    number of passes since the socket last opened: after a pass in which
    it opened the delay is drawn with exponent 0, hence below the base
    delay plus 500 ms, and the [j]-th failed pass after it draws its delay
    with exponent [j]; whatever the passes, no delay exceeds the maximum. *)
Theorem reconnect_backoff (base max : Q) (attempt : nat) (before : list (bool * Q))
    (random : Q) (fails : list Q) :
  0 <= random < 1 ->
  let passes := before ++ (true, random) :: map (fun r => (false, r)) fails in
  connector base max attempt passes
  = connector base max attempt before
    ++ nextDelay base max random 0
    :: imap (fun j r => nextDelay base max r (S j)) fails
  /\ (exists d, nextDelay base max random 0 = Fin d /\ d < base + 500)
  /\ Forall (fun delay => exists d, delay = Fin d /\ d <= max)
            (connector base max attempt passes).
Proof.
  intros Hr. cbn zeta. split; [| split].
  - rewrite connector_app. f_equal. cbn [connector reconnect]. f_equal.
    apply connector_failures.
  - destruct (nextDelay_value base max random 0) as (d & Hd & Hv).
    exists d. split; [exact Hd |]. rewrite Hv. change (inject_Z (2 ^ Z.of_nat 0)) with 1.
    eapply Qle_lt_trans; [apply Q.le_min_l |]. lra.
  - generalize (before ++ (true, random) :: map (fun r => (false, r)) fails).
    intros passes. revert attempt.
    induction passes as [| [o r] rest IH]; intros attempt; [constructor |].
    cbn [connector reconnect]. constructor; [| apply IH].
    destruct (nextDelay_value base max r (if o then 0%nat else attempt)) as (d & Hd & Hv).
    exists d. split; [exact Hd |]. rewrite Hv. apply Q.le_min_r.
Qed.

End FeedFacts.

Module FeedWitnesses.
Import JsNum Aggregator AggregatorFacts FeedFacts.

Lemma records_pass_checks_witness :
  (platform sample_quote = "kalshi" \/ platform sample_quote = "polymarket")
  /\ (platform sample_quote = "kalshi" -> side sample_quote = "buy")
  /\ passes_checks sample_quote.
Proof.
  destruct (records_pass_checks log10_floor (sample_frames ++ [FromKalshi sample_trade])
              sample_quote) as (H1 & H2 & H3).
  - vm_compute. right. right. right. left. reflexivity.
  - split; [exact H1 |]. split; [exact H2 |].
    apply H3; repeat constructor.
Defined.

Lemma polymarket_price_positive_witness :
  exists p, price sample_poly_quote = Fin p /\ 0 < p <= 1.
Proof.
  apply (polymarket_price_positive log10_floor sample_frames).
  - vm_compute. left. reflexivity.
  - reflexivity.
Defined.

Lemma kalshi_trade_inherits_witness :
  let tick := normalizeKalshiTicker log10_floor ∅ sample_ticker in
  let q := normalizeKalshiTrade log10_floor (fst tick) sample_trade in
  volume_24h q = volume_24h (snd tick)
  /\ bid_ask_spread_pct q
     = (if two_sided sample_ticker then bid_ask_spread_pct (snd tick) else None).
Proof.
  apply (kalshi_trade_inherits log10_floor ∅ sample_ticker sample_trade).
  reflexivity.
Defined.

Lemma polymarket_trade_reads_book_witness :
  let q := normalizePolymarketTrade log10_floor
             (fst (polymarketOnMessage log10_floor ∅ sample_book)) sample_poly_trade in
  liquidity_depth_usd q
  = computePolymarketBookDepth (pm_bids sample_book) (pm_asks sample_book)
      (Fin (((63 # 100) + (65 # 100)) / 2))
  /\ exists s, bid_ask_spread_pct q = Some (Fin s)
               /\ s == 200 * ((65 # 100) - (63 # 100)) / ((65 # 100) + (63 # 100))
               /\ 0 <= s < 200.
Proof.
  apply (polymarket_trade_reads_book log10_floor ∅ sample_book sample_poly_trade "X"
           (63 # 100) (65 # 100) (Some (Fin 100)) (Some (Fin 100)) [] []).
  - reflexivity.
  - reflexivity.
  - discriminate.
  - reflexivity.
  - reflexivity.
  - reflexivity.
  - split; [reflexivity | discriminate].
Defined.

Lemma book_depth_value_witness :
  (exists d, computePolymarketBookDepth (pm_bids sample_book) (pm_asks sample_book)
               (Fin (64 # 100)) = Fin d
             /\ d == (if Qeq_bool (64 # 100) 0 then 0
                      else value_near (pm_bids sample_book) (pm_asks sample_book) (64 # 100)))
  /\ (Forall not_negative_level (pm_bids sample_book ++ pm_asks sample_book) ->
      exists d, computePolymarketBookDepth (pm_bids sample_book) (pm_asks sample_book)
                  (Fin (64 # 100)) = Fin d
                /\ 0 <= d <= ladder_value (pm_bids sample_book)
                              + ladder_value (pm_asks sample_book)).
Proof.
  apply (book_depth_value (pm_bids sample_book) (pm_asks sample_book) (64 # 100)).
  - constructor; [split; eexists; reflexivity | constructor].
  - constructor; [split; eexists; reflexivity | constructor].
Defined.

Lemma spread_scale_witness :
  (exists c, spread_component (Some (Fin 2)) = Fin c /\ c == Qmax 0 (40 - 2 * 2))
  /\ spread_component None = Fin 20
  /\ (20 <= 25 -> num_eq (spread_component (Some (Fin 25))) (Fin 0))
  /\ (exists z1 z2,
        calculateUnifiedConfidence log10_floor (Fin 1000) (Some (Fin 2)) = Fin (inject_Z z1)
        /\ calculateUnifiedConfidence log10_floor (Fin 1000) (Some (Fin 25))
           = Fin (inject_Z z2)
        /\ (z2 <= z1)%Z)
  /\ calculateUnifiedConfidence log10_floor (Fin 1000) None
     = calculateUnifiedConfidence log10_floor (Fin 1000) (Some (Fin 10)).
Proof.
  apply (spread_scale log10_floor (Fin 1000) 2 25). discriminate.
Defined.

Lemma next_delay_capped_witness :
  let grown := 1000 * inject_Z (2 ^ Z.of_nat 3) in
  exists d, nextDelay 1000 30000 (1 # 2) 3 = Fin d
            /\ d <= 30000
            /\ Qmin grown 30000 <= d
            /\ (30000 <= grown -> d == 30000)
            /\ (grown + 500 <= 30000 -> grown <= d < grown + 500).
Proof.
  apply (next_delay_capped 1000 30000 (1 # 2) 3).
  split; [discriminate | reflexivity].
Defined.

Lemma reconnect_backoff_witness :
  let passes := [(false, 1 # 4)] ++ (true, 1 # 2) :: map (fun r => (false, r)) [3 # 4; 0] in
  connector 1000 30000 0 passes
  = connector 1000 30000 0 [(false, 1 # 4)]
    ++ nextDelay 1000 30000 (1 # 2) 0
    :: imap (fun j r => nextDelay 1000 30000 r (S j)) [3 # 4; 0]
  /\ (exists d, nextDelay 1000 30000 (1 # 2) 0 = Fin d /\ d < 1000 + 500)
  /\ Forall (fun delay => exists d, delay = Fin d /\ d <= 30000)
            (connector 1000 30000 0 passes).
Proof.
  apply (reconnect_backoff 1000 30000 0 [(false, 1 # 4)] (1 # 2) [3 # 4; 0]).
  split; [discriminate | reflexivity].
Defined.

End FeedWitnesses.

(** ** The ledger of the batching queue *)

Module BatchLedgerFacts.
Import BatchWriter BatchWriterFacts.

Lemma pending_flush_begin {A : Type} (st : State A) :
  pending (flush_begin st) = pending st.
Proof.
  unfold flush_begin, pending. destruct (queue st) as [| r q] eqn:E; [rewrite E; reflexivity |].
  cbn [inflight queue]. rewrite concat_app. cbn [concat]. rewrite !app_nil_r. reflexivity.
Qed.

Lemma counters_flush_begin {A : Type} (st : State A) :
  totalInserted (flush_begin st) = totalInserted st
  /\ totalErrors (flush_begin st) = totalErrors st.
Proof. unfold flush_begin. destruct (queue st); split; reflexivity. Qed.

Lemma nth_error_remove {A : Type} (l : list A) i x :
  nth_error l i = Some x ->
  exists l1 l2, l = l1 ++ x :: l2 /\ remove_nth i l = l1 ++ l2.
Proof.
  intros H. apply nth_error_split in H as (l1 & l2 & -> & <-).
  exists l1, l2. split; [reflexivity |]. unfold remove_nth.
  rewrite firstn_app, Nat.sub_diag, firstn_all. cbn [firstn]. rewrite app_nil_r.
  replace (S (length l1)) with (length l1 + 1)%nat by lia.
  rewrite skipn_app. rewrite skipn_all2 by lia.
  replace (length l1 + 1 - length l1)%nat with 1%nat by lia. reflexivity.
Qed.

(** What one event does to the records. *)
Lemma step_ledger {A : Type} (batchSize : nat) (st : State A) (e : Event A) :
  let st' := step batchSize st e in
  accepted st e ++ pending st' ⊆+ pending st ++ arrival e
  /\ totalInserted st' = (totalInserted st + length (accepted st e))%nat
  /\ (totalErrors st <= totalErrors st')%nat
  /\ (length (pending st) + length (arrival e) + totalErrors st
      <= length (accepted st e) + length (pending st') + totalErrors st')%nat
  /\ (no_failure e = true ->
      accepted st e ++ pending st' ≡ₚ pending st ++ arrival e
      /\ totalErrors st' = totalErrors st).
Proof.
  cbn zeta. destruct e as [r | | i o]; cbn [step accepted arrival no_failure].
  - assert (Hp : pending (enqueue batchSize r st) = pending st ++ [r]).
    { unfold enqueue. destruct (_ <=? _)%nat; [rewrite pending_flush_begin |];
        unfold pending; cbn [inflight queue]; rewrite app_assoc; reflexivity. }
    assert (Hc : totalInserted (enqueue batchSize r st) = totalInserted st
                 /\ totalErrors (enqueue batchSize r st) = totalErrors st).
    { unfold enqueue. destruct (_ <=? _)%nat; [| split; reflexivity].
      apply (counters_flush_begin (mkState (queue st ++ [r]) (inflight st)
                                           (totalInserted st) (totalErrors st))). }
    destruct Hc as [Hi He]. rewrite Hp, Hi, He. cbn [app length].
    repeat split; try reflexivity; try (rewrite ?length_app; cbn [length]; lia).
  - rewrite pending_flush_begin. destruct (counters_flush_begin st) as [-> ->].
    rewrite app_nil_r. cbn [app length]. repeat split; try reflexivity; try lia.
  - destruct (nth_error (inflight st) i) as [batch |] eqn:En.
    + destruct (nth_error_remove _ _ _ En) as (l1 & l2 & Hl & Hr).
      assert (Hst : pending st = concat l1 ++ batch ++ concat l2 ++ queue st).
      { unfold pending. rewrite Hl, concat_app. cbn [concat].
        rewrite <- !app_assoc. reflexivity. }
      rewrite Hr, Hst, !app_nil_r.
      destruct o; unfold flush_end, pending;
        cbn [queue inflight totalInserted totalErrors app length].
      * rewrite concat_app, <- !app_assoc.
        assert (Hperm : batch ++ concat l1 ++ concat l2 ++ queue st
                        ≡ₚ concat l1 ++ batch ++ concat l2 ++ queue st).
        { rewrite !app_assoc. apply Permutation_app; [| reflexivity].
          apply Permutation_app; [| reflexivity]. apply Permutation_app_comm. }
        split; [rewrite Hperm; reflexivity |].
        split; [reflexivity |]. split; [lia |].
        split; [rewrite !length_app; lia |].
        intros _. split; [exact Hperm | reflexivity].
      * split.
        { destruct (_ <? _)%nat.
          - rewrite concat_app, <- !app_assoc.
            apply submseteq_app; [reflexivity |].
            rewrite (app_assoc batch), (app_assoc (concat l2)).
            rewrite (Permutation_app_comm batch). rewrite <- app_assoc. reflexivity.
          - rewrite concat_app, <- !app_assoc.
            apply submseteq_app; [reflexivity |].
            apply submseteq_inserts_l. reflexivity. }
        split; [lia |]. split; [lia |].
        split; [| discriminate].
        destruct (_ <? _)%nat; rewrite concat_app, !length_app; lia.
      * split.
        { rewrite concat_app, <- !app_assoc.
          apply submseteq_app; [reflexivity |]. apply submseteq_inserts_l. reflexivity. }
        split; [lia |]. split; [lia |].
        split; [| discriminate].
        rewrite concat_app, !length_app. lia.
    + rewrite !app_nil_r. destruct o; cbn [app length];
        repeat split; try reflexivity; try lia.
Qed.

Lemma arrivals_cons {A : Type} (e : Event A) (rest : list (Event A)) :
  arrivals (e :: rest) = arrival e ++ arrivals rest.
Proof. destruct e; reflexivity. Qed.

Lemma arrivals_snoc {A : Type} (events : list (Event A)) (e : Event A) :
  arrivals (events ++ [e]) = arrivals events ++ arrival e.
Proof.
  unfold arrivals. rewrite omap_app. f_equal. destruct e; reflexivity.
Qed.

Lemma ledger_from {A : Type} (batchSize : nat) (events : list (Event A)) :
  forall st : State A,
    let st' := fold_left (step batchSize) events st in
    let out := delivered_from batchSize st events in
    out ++ pending st' ⊆+ pending st ++ arrivals events
    /\ totalInserted st' = (totalInserted st + length out)%nat
    /\ (totalErrors st <= totalErrors st')%nat
    /\ (length (pending st) + length (arrivals events) + totalErrors st
        <= length out + length (pending st') + totalErrors st')%nat
    /\ (forallb no_failure events = true ->
        out ++ pending st' ≡ₚ pending st ++ arrivals events
        /\ totalErrors st' = totalErrors st).
Proof.
  induction events as [| e rest IH]; intros st; cbn zeta.
  - cbn [fold_left delivered_from arrivals omap list_omap app length].
    rewrite app_nil_r. repeat split; try reflexivity; lia.
  - cbn [fold_left delivered_from forallb]. rewrite arrivals_cons.
    destruct (step_ledger batchSize st e) as (S1 & S2 & S3 & S4 & S5).
    destruct (IH (step batchSize st e)) as (I1 & I2 & I3 & I4 & I5).
    cbn zeta in *.
    set (st1 := step batchSize st e) in *.
    set (st' := fold_left (step batchSize) rest st1) in *.
    set (out := delivered_from batchSize st1 rest) in *.
    split.
    { rewrite <- app_assoc.
      transitivity (accepted st e ++ pending st1 ++ arrivals rest).
      - apply submseteq_app; [reflexivity | exact I1].
      - rewrite !app_assoc. apply submseteq_app; [exact S1 | reflexivity]. }
    split; [rewrite I2, S2, length_app; lia |].
    split; [lia |].
    split.
    { rewrite !length_app in *. lia. }
    intros Hok. apply andb_true_iff in Hok as [He Hrest].
    destruct (S5 He) as [P1 E1]. destruct (I5 Hrest) as [P2 E2].
    split; [| congruence].
    rewrite <- app_assoc, P2, (app_assoc (accepted st e)), P1, <- !app_assoc. reflexivity.
Qed.

(** X9. The ledger of the inserter, for every sequence of arrivals, timer
    ticks and insert results.  The records accepted by the store and the
    records held (in flight or queued) are among the records that arrived,
    each as often as it arrived at most: nothing is inserted twice and
    nothing is made up.  [totalInserted] counts the records accepted, and
    every record that is neither accepted nor held was counted in
    [totalErrors].  As long as no insert call fails, the records accepted
    and held are exactly the records that arrived. *)
Theorem batch_ledger {A : Type} (batchSize : nat) (events : list (Event A)) :
  let st := run batchSize events in
  delivered batchSize events ++ pending st ⊆+ arrivals events
  /\ totalInserted st = length (delivered batchSize events)
  /\ (length (arrivals events)
      <= totalInserted st + length (pending st) + totalErrors st)%nat
  /\ (forallb no_failure events = true ->
      delivered batchSize events ++ pending st ≡ₚ arrivals events
      /\ totalErrors st = 0%nat).
Proof.
  destruct (ledger_from batchSize events init) as (H1 & H2 & _ & H4 & H5).
  cbn zeta in *. fold (run batchSize events) in *. fold (delivered batchSize events) in *.
  change (pending init) with (@nil A) in *. cbn [app length] in *.
  change (totalInserted init) with 0%nat in *. change (totalErrors init) with 0%nat in *.
  split; [exact H1 |]. split; [exact H2 |]. split; [lia |]. exact H5.
Qed.

Lemma flush_begin_batches {A : Type} (lo hi : nat) (st : State A) :
  Forall (fun batch => (lo <= length batch <= hi)%nat) (inflight st) ->
  (queue st = [] \/ (lo <= length (queue st) <= hi)%nat) ->
  Forall (fun batch => (lo <= length batch <= hi)%nat) (inflight (flush_begin st))
  /\ queue (flush_begin st) = [].
Proof.
  intros Hf Hq. unfold flush_begin. destruct (queue st) as [| r q] eqn:E.
  - split; [exact Hf | exact E].
  - cbn [inflight queue]. split; [| reflexivity].
    apply Forall_app. split; [exact Hf |]. constructor; [| constructor].
    destruct Hq as [Hq | Hq]; [discriminate | exact Hq].
Qed.

(** X10. While no insert call has returned, the batches sent and the
    queue, put end to end, are the records in their order of arrival; a
    batch is never empty and never longer than the batch size, and the
    queue stays shorter than the batch size.  With arrivals only (no timer
    tick), every batch has exactly the batch size: after [n] arrivals,
    [n / batchSize] batches are in flight and [n mod batchSize] records
    are queued. *)
Theorem batches_in_arrival_order {A : Type} (batchSize : nat) (events : list (Event A)) :
  (0 < batchSize)%nat ->
  forallb no_settle events = true ->
  let st := run batchSize events in
  concat (inflight st) ++ queue st = arrivals events
  /\ Forall (fun batch => (1 <= length batch <= batchSize)%nat) (inflight st)
  /\ (length (queue st) < batchSize)%nat
  /\ (forallb is_enqueue events = true ->
      Forall (fun batch => length batch = batchSize) (inflight st)
      /\ length (inflight st) = (length events / batchSize)%nat
      /\ length (queue st) = (length events mod batchSize)%nat).
Proof.
  intros Hpos. induction events as [| e events IH] using rev_ind; intros Hns; cbn zeta.
  - cbn. repeat split; try constructor; try lia.
    + rewrite Nat.Div0.div_0_l. reflexivity.
    + rewrite Nat.Div0.mod_0_l. reflexivity.
  - rewrite forallb_app in Hns. apply andb_true_iff in Hns as [Hns He].
    specialize (IH Hns). cbn zeta in IH. rewrite run_snoc, arrivals_snoc.
    destruct IH as (P & F & Q & E).
    destruct (run batchSize events) as [q fl ins errs].
    cbn [queue inflight] in P, F, Q, E.
    destruct e as [r | | i o]; [| | discriminate]; cbn [step arrival].
    + unfold enqueue. cbn [queue inflight totalInserted totalErrors].
      rewrite length_app. cbn [length].
      destruct (batchSize <=? length q + 1)%nat eqn:Eb.
      * apply Nat.leb_le in Eb. assert (Hlen : (length q + 1 = batchSize)%nat) by lia.
        unfold flush_begin. cbn [queue inflight totalInserted totalErrors].
        destruct (q ++ [r]) as [| x rest] eqn:Eq;
          [apply app_eq_nil in Eq as [_ Eq]; discriminate |].
        rewrite <- Eq. cbn [queue inflight]. clear x rest Eq.
        split; [rewrite concat_app; cbn [concat]; rewrite !app_nil_r, <- P, app_assoc;
                reflexivity |].
        split.
        { apply Forall_app. split; [exact F |]. constructor; [| constructor].
          rewrite length_app. cbn [length]. lia. }
        split; [cbn [length]; lia |].
        intros Hall. rewrite forallb_app in Hall. apply andb_true_iff in Hall as [Hall _].
        destruct (E Hall) as (E1 & E2 & E3).
        split.
        { apply Forall_app. split; [exact E1 |]. constructor; [| constructor].
          rewrite length_app. cbn [length]. lia. }
        rewrite !length_app. cbn [length].
        pose proof (Nat.div_mod_eq (length events) batchSize) as Hdm.
        rewrite <- E2, <- E3 in Hdm.
        split.
        { apply (Nat.div_unique _ _ _ 0); [lia | nia]. }
        { apply (Nat.mod_unique _ _ (length fl + 1)); [lia | nia]. }
      * apply Nat.leb_gt in Eb. cbn [queue inflight].
        split; [rewrite <- P, app_assoc; reflexivity |].
        split; [exact F |]. split; [rewrite length_app; cbn [length]; lia |].
        intros Hall. rewrite forallb_app in Hall. apply andb_true_iff in Hall as [Hall _].
        destruct (E Hall) as (E1 & E2 & E3). split; [exact E1 |].
        rewrite !length_app. cbn [length].
        pose proof (Nat.div_mod_eq (length events) batchSize) as Hdm.
        rewrite <- E2, <- E3 in Hdm.
        split.
        { apply (Nat.div_unique _ _ _ (length q + 1)); [lia | nia]. }
        { apply (Nat.mod_unique _ _ (length fl)); [lia | nia]. }
    + rewrite app_nil_r.
      destruct (flush_begin_batches 1 batchSize (mkState q fl ins errs)) as [F' Q'].
      { exact F. }
      { cbn [queue]. destruct q; [left; reflexivity | right; cbn [length] in *; lia]. }
      split.
      { pose proof (pending_flush_begin (mkState q fl ins errs)) as Hp.
        unfold pending in Hp. cbn [queue inflight] in Hp. rewrite Hp. exact P. }
      split; [exact F' |]. split; [rewrite Q'; cbn [length]; lia |].
      intros Hall. rewrite forallb_app in Hall. apply andb_true_iff in Hall as [_ Hall].
      discriminate.
Qed.

Lemma batches_in_arrival_order_witness :
  let st := run 2 [Enqueue 1%nat; Enqueue 2%nat; Enqueue 3%nat; Enqueue 4%nat; Enqueue 5%nat] in
  concat (inflight st) ++ queue st
  = arrivals [Enqueue 1%nat; Enqueue 2%nat; Enqueue 3%nat; Enqueue 4%nat; Enqueue 5%nat]
  /\ Forall (fun batch => (1 <= length batch <= 2)%nat) (inflight st)
  /\ (length (queue st) < 2)%nat
  /\ (forallb is_enqueue
        [Enqueue 1%nat; Enqueue 2%nat; Enqueue 3%nat; Enqueue 4%nat; Enqueue 5%nat] = true ->
      Forall (fun batch => length batch = 2%nat) (inflight st)
      /\ length (inflight st) = (5 / 2)%nat
      /\ length (queue st) = (5 mod 2)%nat).
Proof.
  apply (batches_in_arrival_order 2
           [Enqueue 1%nat; Enqueue 2%nat; Enqueue 3%nat; Enqueue 4%nat; Enqueue 5%nat]).
  - lia.
  - reflexivity.
Defined.

End BatchLedgerFacts.

(** ** The scan of the hunter *)

Module HunterScanFacts.
Import JsNum JsNumFacts Hunter HunterFacts.

(** X11. The metadata map of the hunter.  An entry is never the empty
    string, and it comes from a row of its market key; a market key
    without a row has no entry.  When the market keys of the rows are
    distinct, the entry of a row is its [polymarket_token_id] when that is
    not null, and its [kalshi_ticker] otherwise; a token that is the empty
    string gives no entry, even when the row has a ticker. *)
Theorem metadata_lookup (data : list MetaRow) :
  (forall k id,
     fetchMetadataMap data !! k = Some id ->
     id <> ""%string
     /\ exists row, In row data /\ mr_market_key row = k /\ eventId_of row = Some id)
  /\ (forall k, ~ In k (map mr_market_key data) -> fetchMetadataMap data !! k = None)
  /\ (NoDup (map mr_market_key data) ->
      forall row, In row data ->
        fetchMetadataMap data !! mr_market_key row
        = match polymarket_token_id row with
          | Some token => if nonempty token then Some token else None
          | None =>
              match kalshi_ticker row with
              | Some ticker => if nonempty ticker then Some ticker else None
              | None => None
              end
          end).
Proof.
  split; [| split].
  - intros k id H. apply fetchMetadataMap_sound, H.
  - intros k Hk. rewrite fetchMetadataMap_fold, meta_fold_absent by exact Hk.
    apply lookup_empty.
  - intros Hnd row Hin. rewrite (fetchMetadataMap_row data row Hnd Hin).
    unfold eventId_of. destruct (polymarket_token_id row); [reflexivity |].
    destruct (kalshi_ticker row); reflexivity.
Qed.


(** *** The query *)

Lemma find_app_none {A : Type} (f : A -> bool) (l1 l2 : list A) :
  find f l1 = None -> find f (l1 ++ l2) = find f l2.
Proof.
  induction l1 as [| x l1 IH]; [reflexivity |]. cbn [find app].
  destruct (f x); [discriminate | exact IH].
Qed.

Lemma find_none_Forall (id : string) (l : list SignalRow) :
  Forall (fun r => sr_event_id r <> id) l ->
  find (fun row => String.eqb (sr_event_id row) id) l = None.
Proof.
  induction 1 as [| r l Hr _ IH]; [reflexivity |]. cbn [find].
  destruct (String.eqb_spec (sr_event_id r) id); [contradiction | exact IH].
Qed.

(** The first row of a needed id survives the filter. *)
Lemma find_filter (ids : gset string) id (l : list SignalRow) :
  id ∈ ids ->
  find (fun row => String.eqb (sr_event_id row) id)
       (filter (fun row => sr_event_id row ∈ ids) l)
  = find (fun row => String.eqb (sr_event_id row) id) l.
Proof.
  intros Hid. induction l as [| r l IH]; [reflexivity |].
  rewrite filter_cons. cbn [find].
  destruct (String.eqb_spec (sr_event_id r) id) as [He | Hne].
  - rewrite decide_True by (rewrite He; exact Hid). cbn [find].
    rewrite He, String.eqb_refl. reflexivity.
  - destruct (decide (sr_event_id r ∈ ids)); [| exact IH].
    cbn [find]. destruct (String.eqb_spec (sr_event_id r) id); [contradiction | exact IH].
Qed.

Lemma scanPair_ext metaMap (sm1 sm2 : gmap string Signal) p :
  (forall k id, k = market_key_a p \/ k = market_key_b p ->
                metaMap !! k = Some id -> sm1 !! id = sm2 !! id) ->
  scanPair metaMap sm1 p = scanPair metaMap sm2 p.
Proof.
  intros H. unfold scanPair.
  assert (Hr : forall k, k = market_key_a p \/ k = market_key_b p ->
                         resolveSignal k metaMap sm1 = resolveSignal k metaMap sm2).
  { intros k Hk. unfold resolveSignal. destruct (metaMap !! k) as [id |] eqn:E; [| reflexivity].
    rewrite (H k id Hk E). reflexivity. }
  rewrite (Hr _ (or_introl eq_refl)), (Hr _ (or_intror eq_refl)). reflexivity.
Qed.

Lemma omap_ext_in {A B : Type} (f g : A -> option B) (l : list A) :
  (forall x, In x l -> f x = g x) -> omap f l = omap g l.
Proof.
  induction l as [| x l IH]; intros H; [reflexivity |]. cbn [omap list_omap].
  rewrite (H x (or_introl eq_refl)), IH; [reflexivity |].
  intros y Hy. apply H. right. exact Hy.
Qed.

(** X12. What a scan sees of the table of signals, given newest first.
    For the event id of a side of a pair, the scan reads the newest row of
    that id when fewer than 1000 rows of the event ids of the pairs are
    newer than it, and no row of that id otherwise.  When the event ids of
    the pairs have at most 1000 rows, the alerts are those computed from
    the whole table: restricting the query to these ids changes nothing. *)
Theorem scan_reads_newest_rows (pairs : list Pair) (metadata : list MetaRow)
    (table : list SignalRow) :
  let metaMap := fetchMetadataMap metadata in
  let needed := neededIds pairs metaMap in
  let signalMap := fetchLatestSignalsOf table needed in
  let watched := filter (fun row => sr_event_id row ∈ needed) in
  (forall p k id newer row older,
     In p pairs -> k = market_key_a p \/ k = market_key_b p ->
     metaMap !! k = Some id ->
     table = newer ++ row :: older ->
     sr_event_id row = id ->
     Forall (fun r => sr_event_id r <> id) newer ->
     signalMap !! id
     = if decide (length (watched newer) < SIGNAL_LIMIT)%nat
       then Some (signal_of_row row) else None)
  /\ ((length (watched table) <= SIGNAL_LIMIT)%nat ->
      runScanOver pairs metadata table = runScan pairs metadata table).
Proof.
  intros metaMap needed signalMap watched.
  assert (Hneeded : forall p k id, In p pairs ->
            k = market_key_a p \/ k = market_key_b p ->
            metaMap !! k = Some id -> id ∈ needed).
  { intros p k id Hp Hk Hm. eapply neededIds_in; try eassumption.
    destruct (fetchMetadataMap_sound metadata k id Hm) as [Hne _]. exact Hne. }
  split.
  - intros p k id newer row older Hp Hk Hm Ht Hrow Hnewer.
    pose proof (Hneeded p k id Hp Hk Hm) as Hid.
    unfold signalMap, fetchLatestSignalsOf.
    destruct (decide (needed = ∅)) as [He | _]; [rewrite He in Hid; set_solver |].
    rewrite fetchLatestSignals_first. unfold selectSignals. rewrite Ht, filter_app, filter_cons.
    rewrite decide_True by (rewrite Hrow; exact Hid).
    fold (watched newer). fold (watched older).
    destruct (decide (length (watched newer) < SIGNAL_LIMIT)%nat) as [Hlt | Hge].
    + rewrite take_app_ge by lia.
      rewrite find_app_none
        by (apply find_none_Forall, Forall_forall; intros r Hr;
            apply list_elem_of_filter in Hr as [_ Hr];
            rewrite Forall_forall in Hnewer; auto).
      destruct (SIGNAL_LIMIT - length (watched newer))%nat as [| n] eqn:En; [lia |].
      cbn [take find]. rewrite Hrow, String.eqb_refl. reflexivity.
    + rewrite take_app_le by lia.
      rewrite find_none_Forall; [reflexivity |].
      apply Forall_take, Forall_forall. intros r Hr.
      apply list_elem_of_filter in Hr as [_ Hr]. rewrite Forall_forall in Hnewer. auto.
  - intros Hlen. unfold runScanOver, runScan. fold metaMap needed.
    apply omap_ext_in. intros p Hp. apply scanPair_ext. intros k id Hk Hm.
    pose proof (Hneeded p k id Hp Hk Hm) as Hid.
    unfold fetchLatestSignalsOf.
    destruct (decide (needed = ∅)) as [He | _]; [rewrite He in Hid; set_solver |].
    rewrite !fetchLatestSignals_first. unfold selectSignals.
    rewrite take_ge by exact Hlen. rewrite find_filter by exact Hid. reflexivity.
Qed.


(** *** Rounding *)

Lemma pow10_pos d : 0 < pow10 d.
Proof.
  unfold pow10. change 0 with (inject_Z 0). rewrite <- Zlt_Qlt.
  apply Z.pow_pos_nonneg; lia.
Qed.

Lemma Qabs_nonneg_eq x : 0 <= x -> Qabs x == x.
Proof. intros H. apply Qabs_pos. exact H. Qed.

(** [toFixed] of a number that is not negative. *)
Lemma toFixed_value_pos d x :
  0 <= x ->
  exists m, toFixed_value d (Fin x) = Fin m
            /\ ((pow10 21 <= x /\ m == x)
                \/ (x < pow10 21
                    /\ m == inject_Z (Qfloor (x * pow10 d + (1 # 2))) / pow10 d)).
Proof.
  intros Hx. unfold toFixed_value. pose proof (Qabs_nonneg_eq x Hx) as Ha.
  destruct (Qle_bool (pow10 21) (Qabs x)) eqn:Eb.
  - exists x. split; [reflexivity |]. left. apply Qle_bool_iff in Eb.
    rewrite Ha in Eb. split; [exact Eb | reflexivity].
  - assert (E : Qltb x 0 = false) by (apply Qltb_ge; exact Hx). rewrite E.
    eexists. split; [reflexivity |]. right. split.
    + apply Qnot_le_lt. intros H. rewrite <- Ha in H. apply Qle_bool_iff in H. congruence.
    + rewrite Qred_correct, Ha. reflexivity.
Qed.

Lemma toFixed_value_between d x (lo hi : Z) :
  0 <= x -> inject_Z lo / pow10 d <= x <= inject_Z hi / pow10 d ->
  exists m, toFixed_value d (Fin x) = Fin m
            /\ inject_Z lo / pow10 d <= m <= inject_Z hi / pow10 d.
Proof.
  intros Hx [Hlo Hhi]. destruct (toFixed_value_pos d x Hx) as (m & Hm & [[_ Hv] | [_ Hv]]);
    exists m; (split; [exact Hm |]); rewrite Hv; [auto |].
  pose proof (pow10_pos d) as Hp.
  assert (Hb : inject_Z lo <= x * pow10 d <= inject_Z hi).
  { assert (Hne : ~ pow10 d == 0) by lra.
    pose proof (Qmult_div_r (inject_Z lo) (pow10 d) Hne) as E1.
    pose proof (Qmult_div_r (inject_Z hi) (pow10 d) Hne) as E2.
    split.
    - rewrite <- E1, (Qmult_comm x). apply Qmult_le_l; assumption.
    - rewrite <- E2, (Qmult_comm x). apply Qmult_le_l; assumption. }
  destruct (round_between lo hi _ Hb) as [H1 H2].
  rewrite Zle_Qle in H1, H2.
  split.
  - apply Qle_shift_div_l; [exact Hp |].
    unfold Qdiv. rewrite <- Qmult_assoc, (Qmult_comm (/ pow10 d)), Qmult_inv_r by lra. lra.
  - apply Qle_shift_div_r; [exact Hp |].
    unfold Qdiv. rewrite <- Qmult_assoc, (Qmult_comm (/ pow10 d)), Qmult_inv_r by lra. lra.
Qed.


(** *** The alerts *)

Lemma DEMO_PROBS_percent k p : DEMO_PROBS !! k = Some p -> 0 <= p <= 100.
Proof.
  unfold DEMO_PROBS. intros H. apply elem_of_list_to_map_2, list_elem_of_In in H.
  cbn [In] in H.
  repeat (destruct H as [H | H]; [injection H as _ <-; lra |]). destruct H.
Qed.

Lemma resolved_probability metadata signals k r :
  resolveSignal k (fetchMetadataMap metadata) (fetchLatestSignals signals) = Some r ->
  exists q, r_probability_pct r = Fin q /\ (Forall percent signals -> 0 <= q <= 100).
Proof.
  rewrite resolveSignal_spec. unfold live_signal.
  destruct (fetchMetadataMap metadata !! k) as [id |].
  - rewrite fetchLatestSignals_first.
    destruct (find _ signals) as [row |] eqn:Ef; cbn [option_map].
    + apply find_some in Ef as [Hin _]. unfold signal_of_row.
      destruct (sr_probability_pct row) as [q |] eqn:Eq; cbn [option_map].
      * intros [= <-]. exists q. split; [reflexivity |]. intros Hall.
        rewrite Forall_forall in Hall. apply list_elem_of_In, Hall in Hin.
        unfold percent in Hin. rewrite Eq in Hin. exact Hin.
      * destruct (DEMO_PROBS !! k) as [p |] eqn:Ed; [| discriminate].
        intros [= <-]. exists p. split; [reflexivity |]. intros _.
        eapply DEMO_PROBS_percent; exact Ed.
    + destruct (DEMO_PROBS !! k) as [p |] eqn:Ed; [| discriminate].
      intros [= <-]. exists p. split; [reflexivity |]. intros _.
      eapply DEMO_PROBS_percent; exact Ed.
  - destruct (DEMO_PROBS !! k) as [p |] eqn:Ed; [| discriminate].
    intros [= <-]. exists p. split; [reflexivity |]. intros _.
    eapply DEMO_PROBS_percent; exact Ed.
Qed.

(** X13. The spread stored with an alert is a number of at least 3 (the
    rounding to three decimals can bring a spread just above the threshold
    down to 3), and the potential profit stored is the same number.  When
    the probabilities of the rows are percentages, the spread is at most
    100 and a multiple of 0.001, so that it fits the column
    [numeric(6,3)]. *)
Theorem alert_spread_stored (pairs : list Pair) (metadata : list MetaRow)
    (signals : list SignalRow) (alert : Alert) :
  In alert (runScan pairs metadata signals) ->
  exists s, spread alert = Fin s
            /\ potential_profit_pct alert = Fin s
            /\ 3 <= s
            /\ (Forall percent signals ->
                s <= 100 /\ exists n : Z, s == inject_Z n / 1000).
Proof.
  unfold runScan. rewrite <- list_elem_of_In, list_elem_of_omap.
  intros (p & _ & Hs). unfold scanPair in Hs.
  destruct (resolveSignal (market_key_a p) _ _) as [sigA |] eqn:EA; [| discriminate].
  destruct (resolveSignal (market_key_b p) _ _) as [sigB |] eqn:EB; [| discriminate].
  destruct (resolved_probability _ _ _ _ EA) as (a & Ha & Hra).
  destruct (resolved_probability _ _ _ _ EB) as (b & Hb & Hrb).
  rewrite Ha, Hb in Hs. cbn [sub neg add Math_abs] in Hs.
  destruct (gtb (Fin (Qabs (a + - b))) SPREAD_THRESHOLD) eqn:E1; [| discriminate].
  cbn [andb] in Hs.
  destruct (gtb (r_liquidity_depth_usd sigA) LIQUIDITY_THRESHOLD
            && gtb (r_liquidity_depth_usd sigB) LIQUIDITY_THRESHOLD); [| discriminate].
  injection Hs as <-. cbn [spread potential_profit_pct].
  unfold gtb, SPREAD_THRESHOLD in E1. cbn [ltb] in E1. apply Qltb_lt in E1.
  set (x := Qabs (a + - b)) in *.
  assert (Hx : 0 <= x) by apply Qabs_nonneg.
  destruct (toFixed_value_pos 3 x Hx) as (m & Hm & Hcase).
  exists m. split; [exact Hm |]. split; [exact Hm |].
  change (pow10 3) with 1000 in Hcase.
  assert (Hlow : (3000 <= Qfloor (x * 1000 + (1 # 2)))%Z).
  { rewrite <- (Qfloor_Z 3000). apply Qfloor_resp_le.
    change (inject_Z 3000) with 3000. lra. }
  rewrite Zle_Qle in Hlow. change (inject_Z 3000) with 3000 in Hlow.
  split.
  - destruct Hcase as [[_ ->] | [_ ->]]; [lra |].
    apply Qle_shift_div_l; [reflexivity | lra].
  - intros Hall. specialize (Hra Hall). specialize (Hrb Hall).
    assert (Hx100 : x <= 100).
    { unfold x. apply Qabs_Qle_condition. lra. }
    destruct Hcase as [[Hbig _] | [_ Hv]].
    + exfalso. assert (H : 100 < pow10 21) by reflexivity. lra.
    + split; [| eexists; exact Hv].
      rewrite Hv. apply Qle_shift_div_r; [reflexivity |].
      assert (Hhi : (Qfloor (x * 1000 + (1 # 2)) <= 100000)%Z).
      { apply (round_between 0 100000). change (inject_Z 0) with 0.
        change (inject_Z 100000) with 100000. lra. }
      rewrite Zle_Qle in Hhi. change (inject_Z 100000) with 100000 in Hhi. lra.
Qed.

Lemma alert_spread_stored_witness :
  exists s, spread sample_alert = Fin s
            /\ potential_profit_pct sample_alert = Fin s
            /\ 3 <= s
            /\ (Forall percent sample_signals ->
                s <= 100 /\ exists n : Z, s == inject_Z n / 1000).
Proof.
  apply (alert_spread_stored [mkPair "wti" "demo_fed_hold_v1"] sample_metadata
           sample_signals sample_alert).
  vm_compute. left. reflexivity.
Defined.

End HunterScanFacts.

(** ** The current probability of a market *)

Module PricesFacts.
Import JsNum JsNumFacts Hunter HunterFacts Prices.

Lemma latestByEventId_from (data : list SignalRow) :
  forall (acc : gmap string Q) (id : string),
    fold_left
      (fun latest row =>
         match latest !! sr_event_id row with
         | Some _ => latest
         | None =>
             match sr_probability_pct row with
             | Some p => <[sr_event_id row := p]> latest
             | None => latest
             end
         end) data acc !! id
    = match acc !! id with
      | Some p => Some p
      | None =>
          match find (fun row => String.eqb (sr_event_id row) id
                                 && bool_decide (is_Some (sr_probability_pct row))) data with
          | Some row => sr_probability_pct row
          | None => None
          end
      end.
Proof.
  induction data as [| row rest IH]; intros acc id; cbn [fold_left find].
  - destruct (acc !! id); reflexivity.
  - rewrite IH. destruct (String.eqb_spec (sr_event_id row) id) as [-> | Hne]; cbn [andb].
    + destruct (acc !! id) eqn:E; [rewrite E; reflexivity |].
      destruct (sr_probability_pct row) as [p |] eqn:Ep.
      * rewrite lookup_insert_eq, bool_decide_eq_true_2 by eauto. symmetry. exact Ep.
      * rewrite E, bool_decide_eq_false_2 by (intros [? ?]; discriminate). reflexivity.
    + destruct (acc !! sr_event_id row); [reflexivity |].
      destruct (sr_probability_pct row); [| reflexivity].
      rewrite lookup_insert_ne by exact Hne. reflexivity.
Qed.

(** The probability kept for an event id is that of its first row that
    has one. *)
Lemma latestByEventId_first (signals : list SignalRow) (id : string) :
  latestByEventId signals !! id
  = match find (fun row => String.eqb (sr_event_id row) id
                           && bool_decide (is_Some (sr_probability_pct row))) signals with
    | Some row => sr_probability_pct row
    | None => None
    end.
Proof.
  unfold latestByEventId. rewrite (latestByEventId_from signals ∅ id), lookup_empty.
  reflexivity.
Qed.

Lemma priceMap_row markets : forall (latest : gmap string Q) (acc : gmap string (option Q)) m,
  NoDup (map mr_market_key markets) -> In m markets ->
  fold_left (fun map m => <[mr_market_key m := probabilityOf latest m]> map) markets acc
  !! mr_market_key m = Some (probabilityOf latest m).
Proof.
  induction markets as [| r rest IH]; intros latest acc m Hnd Hin; [destruct Hin |].
  cbn [map] in Hnd. apply NoDup_cons in Hnd as [Hr Hnd]. cbn [fold_left].
  destruct Hin as [-> | Hin]; [| apply IH; assumption].
  clear IH. revert acc. induction rest as [| r rest IH]; intros acc; cbn [fold_left].
  - apply lookup_insert_eq.
  - cbn [map] in Hr, Hnd. apply not_elem_of_cons in Hr as [Hne Hr].
    apply NoDup_cons in Hnd as [_ Hnd].
    rewrite insert_insert_ne by congruence. apply IH; assumption.
Qed.

Lemma first_with_probability (signals : list SignalRow) id row p :
  find (fun row => String.eqb (sr_event_id row) id) signals = Some row ->
  sr_probability_pct row = Some p ->
  latestByEventId signals !! id = Some p.
Proof.
  intros Hf Hp. rewrite latestByEventId_first.
  induction signals as [| r rest IH]; [discriminate |]. cbn [find] in *.
  destruct (String.eqb (sr_event_id r) id); cbn [andb].
  - injection Hf as ->. rewrite bool_decide_eq_true_2 by eauto. exact Hp.
  - apply IH. exact Hf.
Qed.

(** X14. The hunter against the scenario engine and the graph API, over
    the same rows of signals and a catalog with distinct market keys.
    Whenever the hunter resolves a market to a live quote, the engine's
    [priceMap] and the node of the graph give the same probability.  The
    converse fails for a market listed on both venues: when its token has
    no row with a probability and its ticker has one, the engine and the
    graph show the probability of the ticker, and the hunter has no live
    quote for the market. *)
Theorem hunter_quote_is_engine_price (metadata : list MetaRow)
    (signals : list SignalRow) (m : MetaRow) :
  NoDup (map mr_market_key metadata) ->
  In m metadata ->
  (forall r,
     resolveSignal (mr_market_key m) (fetchMetadataMap metadata)
                   (fetchLatestSignals signals) = Some r ->
     isDemo r = false ->
     exists p, r_probability_pct r = Fin p
               /\ current_probability_pct metadata signals (mr_market_key m) = Some p
               /\ node_probability_pct signals m = Some p)
  /\ (forall token ticker p,
        polymarket_token_id m = Some token ->
        latestByEventId signals !! token = None ->
        kalshi_ticker m = Some ticker -> ticker <> ""%string ->
        latestByEventId signals !! ticker = Some p ->
        current_probability_pct metadata signals (mr_market_key m) = Some p
        /\ node_probability_pct signals m = Some p
        /\ live_signal (fetchMetadataMap metadata) (fetchLatestSignals signals)
                       (mr_market_key m) = None).
Proof.
  intros Hnd Hin.
  assert (Hprice : current_probability_pct metadata signals (mr_market_key m)
                   = node_probability_pct signals m).
  { unfold current_probability_pct, priceMap.
    rewrite (priceMap_row metadata _ ∅ m Hnd Hin). reflexivity. }
  rewrite Hprice.
  assert (Hmeta : fetchMetadataMap metadata !! mr_market_key m
                  = match polymarket_token_id m with
                    | Some token => if nonempty token then Some token else None
                    | None =>
                        match kalshi_ticker m with
                        | Some ticker => if nonempty ticker then Some ticker else None
                        | None => None
                        end
                    end).
  { rewrite (HunterFacts.fetchMetadataMap_row metadata m Hnd Hin).
    unfold eventId_of. destruct (polymarket_token_id m); [reflexivity |].
    destruct (kalshi_ticker m); reflexivity. }
  split.
  - intros r Hr Hdemo. rewrite resolveSignal_spec in Hr.
    destruct (live_signal _ _ _) as [[p d] |] eqn:El.
    2:{ destruct (DEMO_PROBS !! mr_market_key m); [| discriminate].
        injection Hr as <-. discriminate Hdemo. }
    injection Hr as <-. cbn [r_probability_pct]. unfold live_signal in El.
    destruct (fetchMetadataMap metadata !! mr_market_key m) as [id |] eqn:Em; [| discriminate].
    rewrite fetchLatestSignals_first in El.
    destruct (find _ signals) as [row |] eqn:Ef; [| discriminate]. cbn [option_map] in El.
    unfold signal_of_row in El.
    destruct (sr_probability_pct row) as [q |] eqn:Eq; [| discriminate].
    cbn [option_map] in El. injection El as <- _.
    pose proof (first_with_probability signals id row q Ef Eq) as Hlatest.
    exists q. split; [reflexivity |].
    assert (Hnode : node_probability_pct signals m = Some q); [| split; exact Hnode].
    unfold node_probability_pct, probabilityOf, live_of.
    destruct (polymarket_token_id m) as [token |].
    + destruct (nonempty token); [| discriminate]. injection Hmeta as ->.
      rewrite Hlatest. reflexivity.
    + destruct (kalshi_ticker m) as [ticker |]; [| discriminate].
      destruct (nonempty ticker); [| discriminate]. injection Hmeta as ->.
      rewrite Hlatest. reflexivity.
  - intros token ticker p Ht Hnone Hk Hne Hp.
    assert (Hnode : node_probability_pct signals m = Some p).
    { unfold node_probability_pct, probabilityOf, live_of. rewrite Ht, Hk, Hnone, Hp.
      destruct (nonempty token); destruct ticker; try congruence; reflexivity. }
    split; [exact Hnode |]. split; [exact Hnode |].
    unfold live_signal. rewrite Hmeta, Ht.
    destruct (nonempty token); [| reflexivity].
    rewrite fetchLatestSignals_first.
    destruct (find _ signals) as [row |] eqn:Ef; [| reflexivity]. cbn [option_map].
    unfold signal_of_row.
    destruct (sr_probability_pct row) as [q |] eqn:Eq; [| reflexivity].
    rewrite (first_with_probability signals token row q Ef Eq) in Hnone. discriminate.
Qed.

Lemma hunter_quote_is_engine_price_witness :
  (forall r,
     resolveSignal (mr_market_key sample_market) (fetchMetadataMap sample_metadata)
                   (fetchLatestSignals sample_signals) = Some r ->
     isDemo r = false ->
     exists p, r_probability_pct r = Fin p
               /\ current_probability_pct sample_metadata sample_signals
                    (mr_market_key sample_market) = Some p
               /\ node_probability_pct sample_signals sample_market = Some p)
  /\ (forall token ticker p,
        polymarket_token_id sample_market = Some token ->
        latestByEventId sample_signals !! token = None ->
        kalshi_ticker sample_market = Some ticker -> ticker <> ""%string ->
        latestByEventId sample_signals !! ticker = Some p ->
        current_probability_pct sample_metadata sample_signals
          (mr_market_key sample_market) = Some p
        /\ node_probability_pct sample_signals sample_market = Some p
        /\ live_signal (fetchMetadataMap sample_metadata)
                       (fetchLatestSignals sample_signals)
                       (mr_market_key sample_market) = None).
Proof.
  apply (hunter_quote_is_engine_price sample_metadata sample_signals sample_market).
  - cbn. apply NoDup_cons_2; [set_solver |]. apply NoDup_singleton.
  - left. reflexivity.
Defined.

(** The market [fed] of the sample: the graph shows 80, the quote of its
    ticker; the hunter has no live quote for it. *)
Example engine_price_without_hunter_quote :
  node_probability_pct sample_signals sample_market = Some 80
  /\ live_signal (fetchMetadataMap sample_metadata) (fetchLatestSignals sample_signals)
                 "fed" = None.
Proof. split; vm_compute; reflexivity. Qed.

End PricesFacts.

(** ** The tree of the impacts and the report *)

Module ScenarioTreeFacts.
Import JsNum JsText JsNumFacts Scenario ScenarioFacts.

Section Tree.

Variable targetMarket initialDir : string.
Variable relationships : list Rel.

Local Abbreviation origin := (origin targetMarket initialDir).
Local Abbreviation from_impacts := (from_impacts targetMarket initialDir).
Local Abbreviation grown := (grown targetMarket initialDir relationships).
Local Abbreviation Tree := (Tree targetMarket initialDir relationships).
Local Abbreviation traversal := (traverseGraph targetMarket initialDir relationships).

(** The traversal is the sort of what the loop returns. *)
Lemma traversal_loop :
  exists l,
    loop (turns relationships) relationships (start targetMarket initialDir) = Some l
    /\ traversal = sort_impacts l.
Proof.
  pose proof (start_inv targetMarket initialDir relationships) as Hstart.
  destruct (loop_total targetMarket initialDir relationships
              (turns relationships) _ Hstart) as [l Hl].
  { pose proof (size_universe targetMarket relationships) as Hu.
    unfold turns, start. cbn [queue visited length]. rewrite size_singleton. lia. }
  exists l. split; [exact Hl |].
  unfold traverseGraph, traverseGraph_run. rewrite Hl. reflexivity.
Qed.

(** An invariant kept by every turn holds of the state the loop ends in. *)
Lemma loop_invariant (J : Bfs -> Prop) :
  (forall st e rest,
     J st -> queue st = e :: rest ->
     J (turn relationships e (mkBfs (visited st) (impacts st) rest))) ->
  forall fuel st l,
    J st -> loop fuel relationships st = Some l ->
    exists st', J st' /\ queue st' = [] /\ impacts st' = l.
Proof.
  intros Hturn. induction fuel as [| fuel IH]; intros st l HJ Hloop; cbn [loop] in Hloop;
    destruct (queue st) as [| e rest] eqn:Eq; try discriminate.
  - injection Hloop as <-. exists st. auto.
  - injection Hloop as <-. exists st. auto.
  - eapply IH; [| exact Hloop]. apply Hturn; assumption.
Qed.

(** A property of the visited set and the impacts that every visit keeps. *)
Lemma loop_keeps (P : gset string -> list Impact -> Prop) :
  (forall e st rel, P (visited st) (impacts st) ->
                    P (visited (visit e st rel)) (impacts (visit e st rel))) ->
  forall fuel st l,
    P (visited st) (impacts st) -> loop fuel relationships st = Some l ->
    exists v, P v l.
Proof.
  intros Hvisit fuel st l HP Hloop.
  destruct (loop_invariant (fun st => P (visited st) (impacts st))) with (2 := HP) (3 := Hloop)
    as (st' & HP' & _ & <-); [| eauto].
  clear HP Hloop. intros st0 e rest HP _. unfold turn.
  destruct (MAX_DEPTH <=? depth e)%nat; [exact HP |].
  generalize (filter (touches (marketKey e)) relationships). intros edges.
  assert (H : forall s, P (visited s) (impacts s) ->
                        P (visited (fold_left (visit e) edges s))
                          (impacts (fold_left (visit e) edges s))).
  { induction edges as [| rel edges IH]; intros s H0; [exact H0 |].
    cbn [fold_left]. apply IH, Hvisit, H0. }
  apply (H (mkBfs (visited st0) (impacts st0) rest)). exact HP.
Qed.

Lemma traversal_sound imp :
  In imp traversal -> impact_sound targetMarket initialDir relationships imp.
Proof.
  destruct traversal_loop as (l & Hl & ->).
  pose proof (start_inv targetMarket initialDir relationships) as Hstart.
  destruct (loop_inv targetMarket initialDir relationships _ _ _ Hstart Hl)
    as (Hfound & _ & Hne).
  intros Hin. apply list_elem_of_In in Hin. rewrite (sort_impacts_perm l) in Hin.
  rewrite Forall_forall in Hfound, Hne. apply found_sound; [apply Hfound | apply Hne]; exact Hin.
Qed.

Lemma traversal_finite imp :
  In imp traversal -> exists c, i_confidence_score imp = Fin c /\ 5 # 100 <= c.
Proof.
  intros Hin. destruct (traversal_sound imp Hin) as (_ & _ & es & H).
  decompose [and] H. assumption.
Qed.

End Tree.

(** *** The order of the impacts *)

Lemma gtb_sub_fin x y : gtb (sub (Fin x) (Fin y)) (Fin 0) = Qltb 0 (x + - y).
Proof. reflexivity. Qed.

Lemma insert_sorted_falling x l :
  finite (i_confidence_score x) ->
  Forall (fun imp => finite (i_confidence_score imp)) l ->
  StronglySorted falling l ->
  StronglySorted falling (insert_sorted x l).
Proof.
  intros Hx Hl Hs. destruct (i_confidence_score x) as [| |cx|] eqn:Ex; try contradiction.
  induction l as [| y rest IH]; cbn [insert_sorted].
  - constructor; constructor.
  - apply Forall_cons in Hl as [Hy Hl]. apply StronglySorted_inv in Hs as [Hs Hrest].
    destruct (i_confidence_score y) as [| |cy|] eqn:Ey; try contradiction.
    rewrite Ex, gtb_sub_fin. destruct (Qltb 0 (cx + - cy)) eqn:E.
    + apply Qltb_lt in E. constructor; [constructor; assumption |].
      constructor.
      * exists cx, cy. repeat split; try assumption. lra.
      * rewrite Forall_forall in Hrest |- *. intros z Hz.
        destruct (Hrest z Hz) as (a & b & Ha & Hb & Hab).
        rewrite Ey in Ha. injection Ha as <-.
        exists cx, b. repeat split; try assumption. lra.
    + apply Qltb_ge in E. constructor; [apply IH; assumption |].
      rewrite Forall_forall. intros z Hz.
      rewrite (insert_sorted_perm x rest) in Hz. apply elem_of_cons in Hz as [-> | Hz].
      * exists cy, cx. repeat split; try assumption. lra.
      * rewrite Forall_forall in Hrest. apply Hrest, Hz.
Qed.

Lemma sort_impacts_falling l :
  Forall (fun imp => finite (i_confidence_score imp)) l ->
  StronglySorted falling (sort_impacts l).
Proof.
  unfold sort_impacts.
  assert (H : forall acc,
             Forall (fun imp => finite (i_confidence_score imp)) l ->
             Forall (fun imp => finite (i_confidence_score imp)) acc ->
             StronglySorted falling acc ->
             StronglySorted falling (fold_left (fun acc x => insert_sorted x acc) l acc)).
  { induction l as [| x rest IH]; intros acc Hl Hacc Hs; [exact Hs |].
    apply Forall_cons in Hl as [Hx Hl]. cbn [fold_left]. apply IH; [exact Hl | |].
    - rewrite (insert_sorted_perm x acc). constructor; assumption.
    - apply insert_sorted_falling; assumption. }
  intros Hl. apply H; [exact Hl | constructor | constructor].
Qed.

(** X15. The impacts are returned by falling confidence: every impact
    has a confidence that is a number, and no impact has a higher
    confidence than one listed before it; the first impact has the highest
    confidence of all. *)
Theorem impacts_by_falling_confidence (targetMarket initialDir : string)
    (relationships : list Rel) :
  StronglySorted falling (traverseGraph targetMarket initialDir relationships)
  /\ forall first rest,
       traverseGraph targetMarket initialDir relationships = first :: rest ->
       Forall (falling first) rest.
Proof.
  assert (Hs : StronglySorted falling (traverseGraph targetMarket initialDir relationships)).
  { destruct (traversal_loop targetMarket initialDir relationships) as (l & Hl & Heq).
    rewrite Heq. apply sort_impacts_falling. rewrite Forall_forall. intros imp Hin.
    rewrite <- (sort_impacts_perm l), <- Heq in Hin. apply list_elem_of_In in Hin.
    destruct (traversal_finite _ _ _ imp Hin) as (c & -> & _). exact I. }
  split; [exact Hs |]. intros first rest Heq. rewrite Heq in Hs.
  apply StronglySorted_inv in Hs as [_ H]. exact H.
Qed.

(** *** The tree of the impacts *)

Section TreeInvariant.

Variable targetMarket initialDir : string.
Variable relationships : list Rel.

Local Abbreviation origin := (origin targetMarket initialDir).
Local Abbreviation from_impacts := (from_impacts targetMarket initialDir).
Local Abbreviation grown := (grown targetMarket initialDir relationships).
Local Abbreviation Tree := (Tree targetMarket initialDir relationships).
Local Abbreviation traversal := (traverseGraph targetMarket initialDir relationships).

Lemma from_impacts_more imps more e :
  from_impacts imps e -> from_impacts (imps ++ more) e.
Proof.
  intros [H | (p & Hp & He)]; [left; exact H |].
  right. exists p. split; [apply in_or_app; left; exact Hp | exact He].
Qed.

Lemma grown_more imps more imp : grown imps imp -> grown (imps ++ more) imp.
Proof.
  intros (e & rel & He & H). exists e, rel. split; [apply from_impacts_more, He | exact H].
Qed.

Lemma advance_entry e rel : advance e rel = entry_of (impact_of e rel).
Proof. reflexivity. Qed.

Lemma visit_tree e st rel :
  Tree st -> from_impacts (impacts st) e -> (depth e < MAX_DEPTH)%nat ->
  In rel relationships -> touches (marketKey e) rel = true ->
  Tree (visit e st rel)
  /\ exists more, impacts (visit e st rel) = impacts st ++ more.
Proof.
  intros [Hq Hi] He Hd Hrel Htouch. unfold visit.
  destruct (bool_decide _); [split; [split; assumption | exists []; symmetry; apply app_nil_r] |].
  destruct (ltb _ _);
    [split; [split; assumption | exists []; symmetry; apply app_nil_r] |].
  split; [| eexists; reflexivity]. unfold Scenario.Tree. cbn [queue impacts]. split.
  - apply Forall_app. split.
    + eapply Forall_impl; [exact Hq |]. intros e' He'. apply from_impacts_more, He'.
    + constructor; [| constructor]. right. exists (impact_of e rel).
      split; [apply in_or_app; right; left; reflexivity | apply advance_entry].
  - apply Forall_app. split.
    + eapply Forall_impl; [exact Hi |]. intros imp Himp. apply grown_more, Himp.
    + constructor; [| constructor]. exists e, rel.
      split; [apply from_impacts_more, He |]. auto.
Qed.

Lemma edges_tree e (edges : list Rel) : forall st,
  Tree st -> from_impacts (impacts st) e -> (depth e < MAX_DEPTH)%nat ->
  Forall (fun rel => In rel relationships /\ touches (marketKey e) rel = true) edges ->
  Tree (fold_left (visit e) edges st).
Proof.
  induction edges as [| rel rest IH]; intros st Ht He Hd Hall; cbn [fold_left]; [exact Ht |].
  apply Forall_cons in Hall as [[Hrel Htouch] Hrest].
  destruct (visit_tree e st rel Ht He Hd Hrel Htouch) as [Ht' [more Hmore]].
  apply IH; [exact Ht' | | exact Hd | exact Hrest].
  rewrite Hmore. apply from_impacts_more, He.
Qed.

Lemma turn_tree st e rest :
  Tree st -> queue st = e :: rest ->
  Tree (turn relationships e (mkBfs (visited st) (impacts st) rest)).
Proof.
  intros [Hq Hi] Hqueue. rewrite Hqueue in Hq. apply Forall_cons in Hq as [He Hq].
  assert (Ht : Tree (mkBfs (visited st) (impacts st) rest)) by (split; assumption).
  unfold turn. destruct (MAX_DEPTH <=? depth e)%nat eqn:Ed; [exact Ht |].
  apply Nat.leb_gt in Ed. apply edges_tree; [exact Ht | exact He | exact Ed |].
  apply Forall_forall. intros rel Hrel.
  apply list_elem_of_filter in Hrel as [Htouch Hrel].
  split; [apply list_elem_of_In; exact Hrel | apply Is_true_true; exact Htouch].
Qed.

(** Every impact of the traversal was recorded from the origin or from
    the entry of another impact of the traversal. *)
Lemma traversal_tree imp : In imp traversal -> grown traversal imp.
Proof.
  destruct (traversal_loop targetMarket initialDir relationships) as (l & Hl & ->).
  assert (Hstart : Tree (start targetMarket initialDir)).
  { split; [| constructor]. constructor; [left; reflexivity | constructor]. }
  destruct (loop_invariant relationships Tree turn_tree _ _ _ Hstart Hl)
    as (st' & [_ Hi] & _ & <-).
  intros Hin. apply list_elem_of_In in Hin. rewrite sort_impacts_perm in Hin.
  rewrite Forall_forall in Hi. destruct (Hi imp Hin) as (e & rel & He & H).
  exists e, rel. split; [| exact H].
  destruct He as [He | (p & Hp & He)]; [left; exact He |].
  right. exists p. split; [| exact He].
  apply list_elem_of_In. rewrite sort_impacts_perm. apply list_elem_of_In. exact Hp.
Qed.

End TreeInvariant.

(** X17. The impacts form a tree rooted at the target.  An impact of
    order 1 was recorded across a relationship that touches the target.
    An impact of order 2 extends an impact of order 1 that is itself in the
    result, across a relationship that touches its market: its path is the
    path of that impact followed by its own market, its confidence is the
    confidence of that impact times the confidence of the edge, rounded to
    four decimals, and its direction is propagated from the direction of
    that impact. *)
Theorem second_order_extends_first (targetMarket initialDir : string)
    (relationships : list Rel) (imp : Impact) :
  In imp (traverseGraph targetMarket initialDir relationships) ->
  (order imp = 1%nat
   /\ exists rel,
        In rel relationships /\ touches targetMarket rel = true
        /\ imp = impact_of (origin targetMarket initialDir) rel
        /\ path imp = [targetMarket; i_market_key imp])
  \/ (order imp = 2%nat
      /\ exists parent rel,
           In parent (traverseGraph targetMarket initialDir relationships)
           /\ order parent = 1%nat
           /\ In rel relationships /\ touches (i_market_key parent) rel = true
           /\ imp = impact_of (entry_of parent) rel
           /\ path imp = path parent ++ [i_market_key imp]
           /\ i_confidence_score imp
              = toFixed_value 4 (mul (i_confidence_score parent) (edge_confidence imp))
           /\ i_direction imp
              = propagateDirection (i_direction parent) (i_relationship_type imp)
                                   (m_impact_direction (meta imp))).
Proof.
  intros Hin.
  destruct (traversal_tree _ _ _ imp Hin) as (e & rel & He & Hrel & Htouch & Hd & ->).
  destruct He as [-> | (parent & Hp & ->)].
  - left. split; [reflexivity |]. exists rel. auto.
  - right. destruct (traversal_sound _ _ _ parent Hp) as (_ & Hord & _).
    cbn [entry_of depth] in Hd. unfold MAX_DEPTH in *.
    assert (Ho : order parent = 1%nat) by lia.
    split; [cbn [impact_of order entry_of depth]; lia |].
    exists parent, rel. cbn [entry_of marketKey] in Htouch.
    repeat split; assumption.
Qed.

(** *** The first edge to a neighbour *)

Lemma edges_keep (P : gset string -> list Impact -> Prop) e :
  (forall st rel, P (visited st) (impacts st) ->
                  P (visited (visit e st rel)) (impacts (visit e st rel))) ->
  forall edges st,
    P (visited st) (impacts st) ->
    P (visited (fold_left (visit e) edges st)) (impacts (fold_left (visit e) edges st)).
Proof.
  intros Hvisit. induction edges as [| rel edges IH]; intros st H0; [exact H0 |].
  cbn [fold_left]. apply IH, Hvisit, H0.
Qed.

(** The market key of an impact is visited. *)
Lemma visit_keys_visited e st rel :
  (forall imp, In imp (impacts st) -> i_market_key imp ∈ visited st) ->
  forall imp, In imp (impacts (visit e st rel)) ->
              i_market_key imp ∈ visited (visit e st rel).
Proof.
  intros H imp. unfold visit. destruct (bool_decide _); [apply H |].
  destruct (ltb _ _); cbn [impacts visited].
  - intros Hin. apply elem_of_union_r, H, Hin.
  - intros Hin. apply in_app_or in Hin as [Hin | [<- | []]].
    + apply elem_of_union_r, H, Hin.
    + apply elem_of_union_l, elem_of_singleton. reflexivity.
Qed.

(** A market that is visited without an impact stays so. *)
Lemma visit_keeps_unreported n e st rel :
  n ∈ visited st /\ ~ In n (map i_market_key (impacts st)) ->
  n ∈ visited (visit e st rel) /\ ~ In n (map i_market_key (impacts (visit e st rel))).
Proof.
  intros [Hv Hi]. unfold visit. destruct (bool_decide _) eqn:Evis; [auto |].
  apply bool_decide_eq_false in Evis.
  destruct (ltb _ _); cbn [impacts visited]; (split; [set_solver |]); [exact Hi |].
  rewrite map_app, in_app_iff. intros [H | [H | []]]; [auto |].
  cbn [impact_of i_market_key advance marketKey] in H. congruence.
Qed.

Lemma visit_keeps_impact imp0 e st rel :
  In imp0 (impacts st) -> In imp0 (impacts (visit e st rel)).
Proof.
  intros H. unfold visit. destruct (bool_decide _); [exact H |].
  destruct (ltb _ _); cbn [impacts]; [exact H |]. apply in_or_app. left. exact H.
Qed.

Lemma visit_keeps_unvisited n e st rel :
  n ∉ visited st -> neighbor_of (marketKey e) rel <> n -> n ∉ visited (visit e st rel).
Proof.
  intros Hn Hne. unfold visit. destruct (bool_decide _); [exact Hn |].
  destruct (ltb _ _); cbn [visited]; set_solver.
Qed.

Lemma edges_keep_unvisited n e edges : forall st,
  n ∉ visited st -> Forall (fun r => neighbor_of (marketKey e) r <> n) edges ->
  n ∉ visited (fold_left (visit e) edges st).
Proof.
  induction edges as [| rel rest IH]; intros st Hn Hall; [exact Hn |].
  apply Forall_cons in Hall as [Hrel Hrest]. cbn [fold_left].
  apply IH; [apply visit_keeps_unvisited; assumption | exact Hrest].
Qed.

Lemma loop_start targetMarket initialDir relationships fuel :
  loop (S fuel) relationships (start targetMarket initialDir)
  = loop fuel relationships
      (fold_left (visit (origin targetMarket initialDir))
                 (filter (touches targetMarket) relationships)
                 (mkBfs {[targetMarket]} [] [])).
Proof. reflexivity. Qed.

(** X16. The first relationship that links the target to a neighbour
    decides for that neighbour.  When the confidence of this edge, rounded
    to four decimals, is below 0.05, the neighbour is marked visited
    without an impact and is reported nowhere, whatever other edges or
    two-hop paths lead to it.  Otherwise the neighbour is reported with the
    impact of this edge: order 1, the direction propagated across this
    edge, its confidence. *)
Theorem first_edge_decides (targetMarket initialDir : string) (relationships : list Rel)
    (before after : list Rel) (rel : Rel) :
  let neighbor := neighbor_of targetMarket rel in
  let conf := pathConfidence (advance (origin targetMarket initialDir) rel) in
  filter (touches targetMarket) relationships = before ++ rel :: after ->
  Forall (fun r => neighbor_of targetMarket r <> neighbor) before ->
  neighbor <> targetMarket ->
  (ltb conf MIN_PATH_CONF = true ->
   ~ In neighbor (map i_market_key (traverseGraph targetMarket initialDir relationships)))
  /\ (ltb conf MIN_PATH_CONF = false ->
      In (impact_of (origin targetMarket initialDir) rel)
         (traverseGraph targetMarket initialDir relationships)).
Proof.
  intros neighbor conf Hedges Hbefore Hne.
  destruct (traversal_loop targetMarket initialDir relationships) as (l & Hl & ->).
  unfold turns in Hl. rewrite loop_start, Hedges, fold_left_app in Hl.
  cbn [fold_left] in Hl.
  set (st0 := mkBfs {[targetMarket]} [] []) in Hl.
  set (st1 := fold_left (visit (Scenario.origin targetMarket initialDir)) before st0) in Hl.
  assert (Hn1 : neighbor ∉ visited st1).
  { apply edges_keep_unvisited; [cbn; set_solver | exact Hbefore]. }
  assert (Hk1 : forall imp, In imp (impacts st1) -> i_market_key imp ∈ visited st1).
  { apply (edges_keep (fun v l => forall imp, In imp l -> i_market_key imp ∈ v)).
    - intros st r. apply visit_keys_visited.
    - intros imp []. }
  set (st2 := visit (Scenario.origin targetMarket initialDir) st1 rel) in Hl.
  assert (Hst2 : st2 = if ltb conf MIN_PATH_CONF
                       then mkBfs ({[neighbor]} ∪ visited st1) (impacts st1) (queue st1)
                       else mkBfs ({[neighbor]} ∪ visited st1)
                                  (impacts st1
                                   ++ [impact_of (Scenario.origin targetMarket initialDir) rel])
                                  (queue st1
                                   ++ [advance (Scenario.origin targetMarket initialDir) rel])).
  { unfold st2, visit. cbn [Scenario.origin marketKey]. fold neighbor.
    rewrite bool_decide_eq_false_2 by exact Hn1. reflexivity. }
  split; intros Hconf; rewrite Hconf in Hst2.
  - destruct (loop_keeps relationships
                (fun v l => neighbor ∈ v /\ ~ In neighbor (map i_market_key l))
                (fun e st r => visit_keeps_unreported neighbor e st r) _ _ _
                (edges_keep (fun v l => neighbor ∈ v /\ ~ In neighbor (map i_market_key l))
                   (Scenario.origin targetMarket initialDir)
                   (fun st r => visit_keeps_unreported neighbor _ st r) after st2
                   ltac:(rewrite Hst2; cbn [visited impacts]; split;
                         [set_solver |];
                         intros H; apply in_map_iff in H as (imp & <- & H);
                         apply Hn1, Hk1, H)) Hl)
      as (v & _ & Hnot).
    intros Hin. apply Hnot. apply in_map_iff in Hin as (imp & Hk & Hin).
    apply in_map_iff. exists imp. split; [exact Hk |].
    apply list_elem_of_In. rewrite <- (sort_impacts_perm l). apply list_elem_of_In, Hin.
  - destruct (loop_keeps relationships
                (fun _ l => In (impact_of (Scenario.origin targetMarket initialDir) rel) l)
                (fun e st r => visit_keeps_impact _ e st r) _ _ _
                (edges_keep
                   (fun _ l => In (impact_of (Scenario.origin targetMarket initialDir) rel) l)
                   (Scenario.origin targetMarket initialDir)
                   (fun st r => visit_keeps_impact _ _ st r) after st2
                   ltac:(rewrite Hst2; cbn [impacts]; apply in_or_app; right; left;
                         reflexivity)) Hl)
      as (_ & Hin).
    apply list_elem_of_In. rewrite (sort_impacts_perm l). apply list_elem_of_In, Hin.
Qed.

(** *** Directions *)

Lemma propagate_flips d rel :
  propagateDirection d (relationship_type rel) (impact_direction rel)
  = if flips rel then flip d else d.
Proof.
  unfold propagateDirection, flips.
  destruct (String.eqb_spec (relationship_type rel) "equivalent") as [-> | _];
    [reflexivity |].
  destruct (String.eqb_spec (relationship_type rel) "implied") as [-> | _];
    [reflexivity |].
  destruct (String.eqb_spec (relationship_type rel) "implied_conditional") as [-> | _];
    [reflexivity |].
  cbn [orb].
  destruct (String.eqb_spec (relationship_type rel) "mutually_exclusive") as [-> | _];
    [reflexivity |].
  cbn [orb].
  destruct (String.eqb (relationship_type rel) "correlated"); [| reflexivity].
  cbn [andb]. destruct (impact_direction rel) as [i |]; reflexivity.
Qed.

Lemma flip_direction d : is_direction d -> is_direction (flip d) /\ flip (flip d) = d.
Proof. intros [-> | ->]; split; (reflexivity || (left; reflexivity) || (right; reflexivity)). Qed.

Lemma direction_along_parity es : forall d,
  is_direction d ->
  direction_along es d = if Nat.even (flip_count es) then d else flip d.
Proof.
  induction es as [| rel rest IH]; intros d Hd; [reflexivity |].
  change (direction_along (rel :: rest) d)
    with (direction_along rest
            (propagateDirection d (relationship_type rel) (impact_direction rel))).
  rewrite propagate_flips. unfold flip_count. cbn [List.filter].
  destruct (flips rel); cbn [length].
  - destruct (flip_direction d Hd) as [Hf Hff]. rewrite (IH _ Hf). fold (flip_count rest).
    rewrite Nat.even_succ, <- Nat.negb_even, Hff.
    destruct (Nat.even (flip_count rest)); reflexivity.
  - apply IH, Hd.
Qed.

(** X19. For a shock UP or DOWN, the direction of every impact is UP or
    DOWN: it is the direction of the shock when the edges along the path of
    the impact that turn the direction round (mutually exclusive edges, and
    correlated edges with a Negative impact direction) are even in number,
    and the opposite direction when they are odd. *)
Theorem direction_parity (targetMarket initialDir : string) (relationships : list Rel)
    (imp : Impact) :
  is_direction initialDir ->
  In imp (traverseGraph targetMarket initialDir relationships) ->
  is_direction (i_direction imp)
  /\ exists es,
       Forall (fun r => In r relationships) es
       /\ linked targetMarket es
       /\ path imp = route targetMarket es
       /\ i_direction imp
          = if Nat.even (flip_count es) then initialDir else flip initialDir.
Proof.
  intros Hd Hin.
  destruct (traversal_sound _ _ _ imp Hin)
    as (_ & _ & es & Hes & Hl & _ & Hpath & _ & Hdir & _).
  rewrite (direction_along_parity es initialDir Hd) in Hdir. split.
  - rewrite Hdir. destruct (Nat.even _); [exact Hd | apply flip_direction, Hd].
  - exists es. auto.
Qed.

(** *** The rounding of the confidence *)

(** Four decimals of a number of [0, 1]: a number of [0, 1] again, at
    most 0.00005 away. *)
Lemma toFixed4_unit x :
  0 <= x <= 1 ->
  exists m, toFixed_value 4 (Fin x) = Fin m
            /\ 0 <= m <= 1 /\ Qabs (m - x) <= 1 # 20000.
Proof.
  intros [H0 H1]. unfold toFixed_value.
  assert (Ha : Qabs x == x) by (apply Qabs_pos; exact H0).
  assert (Eb : Qle_bool (pow10 21) (Qabs x) = false).
  { destruct (Qle_bool (pow10 21) (Qabs x)) eqn:E; [| reflexivity].
    apply Qle_bool_iff in E. rewrite Ha in E.
    assert (H : 1 < pow10 21) by reflexivity. lra. }
  rewrite Eb. assert (E0 : Qltb x 0 = false) by (apply Qltb_ge; exact H0). rewrite E0.
  eexists. split; [reflexivity |]. rewrite Qred_correct.
  change (pow10 4) with 10000.
  set (n := Qfloor (Qabs x * 10000 + (1 # 2))).
  pose proof (Qfloor_le (Qabs x * 10000 + (1 # 2))) as Hle.
  pose proof (Qlt_floor (Qabs x * 10000 + (1 # 2))) as Hlt.
  fold n in Hle, Hlt. rewrite inject_Z_plus in Hlt. change (inject_Z 1) with 1 in Hlt.
  rewrite Ha in Hle, Hlt.
  assert (Hn : (0 <= n <= 10000)%Z).
  { apply (round_between 0 10000). rewrite Ha.
    change (inject_Z 0) with 0. change (inject_Z 10000) with 10000. lra. }
  destruct Hn as [Hn0 Hn1]. rewrite Zle_Qle in Hn0, Hn1.
  change (inject_Z 0) with 0 in Hn0. change (inject_Z 10000) with 10000 in Hn1.
  assert (Hdiv : inject_Z n / 10000 == inject_Z n * (1 # 10000)) by (field).
  rewrite Hdiv. split; [lra |].
  apply Qabs_Qle_condition. lra.
Qed.

Lemma exact_product_snoc es rel :
  exact_product (es ++ [rel]) = exact_product es * confidence_of rel.
Proof. unfold exact_product. rewrite fold_left_app. reflexivity. Qed.

Lemma edgeConfidence_of_fin rel : edgeConfidence_of rel = Fin (confidence_of rel).
Proof. unfold edgeConfidence_of, confidence_of. destruct (confidence_score rel); reflexivity. Qed.

Lemma cumulative_error es :
  Forall unit_confidence es ->
  exists c, cumulative (map edgeConfidence_of es) = Fin c
            /\ 0 <= c <= 1
            /\ 0 <= exact_product es <= 1
            /\ Qabs (c - exact_product es) <= inject_Z (Z.of_nat (length es)) * (1 # 20000).
Proof.
  induction es as [| rel es IH] using rev_ind; intros Hall.
  - exists 1. cbn. repeat split; try discriminate. 
  - apply Forall_app in Hall as [Hes Hrel]. apply Forall_cons in Hrel as [[Hk0 Hk1] _].
    destruct (IH Hes) as (c & Hc & [Hc0 Hc1] & [Hp0 Hp1] & Herr).
    unfold cumulative in *. rewrite map_app, fold_left_app, Hc. cbn [map fold_left].
    rewrite edgeConfidence_of_fin. cbn [mul].
    set (k := confidence_of rel) in *.
    assert (Hck : 0 <= c * k <= 1) by nra.
    destruct (toFixed4_unit (c * k) Hck) as (m & Hm & Hm01 & Hmerr).
    exists m. split; [exact Hm |]. split; [exact Hm01 |].
    rewrite exact_product_snoc. fold k. split; [nra |].
    rewrite length_app, Nat2Z.inj_add, inject_Z_plus. cbn [length].
    change (inject_Z (Z.of_nat 1)) with 1.
    apply Qabs_Qle_condition in Herr, Hmerr. apply Qabs_Qle_condition.
    set (n := inject_Z (Z.of_nat (length es))) in *.
    set (P := exact_product es) in *. nra.
Qed.

(** X20. When the confidence of every relationship lies in [0, 1] (the
    CHECK constraint of the table), the confidence reported for an impact
    lies in [0.05, 1] and differs from the exact product of the edge
    confidences along its path by at most 0.00005 per edge, hence by at
    most 0.0001. *)
Theorem confidence_within_rounding (targetMarket initialDir : string)
    (relationships : list Rel) (imp : Impact) :
  Forall unit_confidence relationships ->
  In imp (traverseGraph targetMarket initialDir relationships) ->
  exists es c,
    Forall (fun r => In r relationships) es
    /\ linked targetMarket es
    /\ path imp = route targetMarket es
    /\ length es = order imp
    /\ i_confidence_score imp = Fin c
    /\ 5 # 100 <= c <= 1
    /\ Qabs (c - exact_product es) <= inject_Z (Z.of_nat (order imp)) * (1 # 20000)
    /\ Qabs (c - exact_product es) <= 1 # 10000.
Proof.
  intros Hunit Hin.
  destruct (traversal_sound _ _ _ imp Hin)
    as (_ & Hord & es & Hes & Hl & Hlen & Hpath & _ & _ & Hconf & c0 & Hc0 & Hmin).
  assert (Hall : Forall unit_confidence es).
  { rewrite Forall_forall in Hes, Hunit |- *. intros r Hr.
    apply Hunit, list_elem_of_In, Hes, Hr. }
  destruct (cumulative_error es Hall) as (c & Hc & [_ Hc1] & _ & Herr).
  rewrite Hconf, Hc in Hc0. injection Hc0 as <-.
  exists es, c. rewrite Hconf, <- Hlen.
  repeat split; try assumption.
  eapply Qle_trans; [exact Herr |].
  unfold MAX_DEPTH in Hord.
  assert (Hle : inject_Z (Z.of_nat (length es)) <= 2).
  { change 2 with (inject_Z 2). rewrite <- Zle_Qle. lia. }
  lra.
Qed.

(** *** The report *)

Lemma traversal_keys targetMarket initialDir relationships :
  NoDup (map i_market_key (traverseGraph targetMarket initialDir relationships))
  /\ ~ In targetMarket
         (map i_market_key (traverseGraph targetMarket initialDir relationships)).
Proof.
  destruct (traversal_loop targetMarket initialDir relationships) as (l & Hl & ->).
  pose proof (start_inv targetMarket initialDir relationships) as Hstart.
  destruct (loop_inv targetMarket initialDir relationships _ _ _ Hstart Hl)
    as (_ & Hnd & Hne).
  rewrite (sort_impacts_perm l). split; [exact Hnd |].
  intros Hin. apply in_map_iff in Hin as (imp & Hk & Hin).
  rewrite Forall_forall in Hne. apply (Hne imp); [apply list_elem_of_In, Hin | exact Hk].
Qed.

Lemma same_key_same_impact (l : list Impact) a b :
  NoDup (map i_market_key l) -> In a l -> In b l -> i_market_key a = i_market_key b -> a = b.
Proof.
  induction l as [| x l IH]; intros Hnd Ha Hb Hk; [destruct Ha |].
  cbn [map] in Hnd. apply NoDup_cons in Hnd as [Hx Hnd].
  destruct Ha as [-> | Ha], Hb as [-> | Hb]; [reflexivity | | | apply IH; assumption].
  - exfalso. apply Hx. rewrite Hk. apply list_elem_of_In, in_map, Hb.
  - exfalso. apply Hx. rewrite <- Hk. apply list_elem_of_In, in_map, Ha.
Qed.

(** Every hop of the path of an impact is the hop that enters an impact
    of the traversal, and it leaves the target or another impact. *)
Lemma hops_enter targetMarket initialDir relationships imp :
  In imp (traverseGraph targetMarket initialDir relationships) ->
  Forall (fun h =>
            (fst h = targetMarket
             \/ In (fst h)
                   (map i_market_key (traverseGraph targetMarket initialDir relationships)))
            /\ exists imp',
                 In imp' (traverseGraph targetMarket initialDir relationships)
                 /\ i_market_key imp' = snd h
                 /\ last (hops (path imp')) = Some h)
         (hops (path imp)).
Proof.
  intros Hin.
  destruct (traversal_tree _ _ _ imp Hin) as (e & rel & He & _ & _ & Hd & Himp).
  destruct He as [-> | (p & Hp & ->)].
  - subst imp. cbn [impact_of path advance e_path Scenario.origin app hops marketKey].
    constructor; [| constructor]. cbn [fst snd]. split; [left; reflexivity |].
    eexists. split; [exact Hin |]. split; reflexivity.
  - destruct (traversal_tree _ _ _ p Hp) as (e' & rel' & He' & _ & _ & Hd' & Hpimp).
    cbn [entry_of depth] in Hd.
    assert (He0 : e' = Scenario.origin targetMarket initialDir).
    { destruct He' as [-> | (p' & Hp' & ->)]; [reflexivity |].
      destruct (traversal_sound _ _ _ p' Hp') as (_ & Hord & _).
      rewrite Hpimp in Hd. cbn [impact_of order entry_of depth] in Hd.
      unfold MAX_DEPTH in *. lia. }
    subst e'.
    assert (Hpath : path p = [targetMarket; i_market_key p]) by (rewrite Hpimp; reflexivity).
    assert (Hpath' : path imp = [targetMarket; i_market_key p; i_market_key imp]).
    { rewrite Himp. cbn [impact_of path advance e_path entry_of i_market_key marketKey].
      rewrite Hpath. reflexivity. }
    rewrite Hpath'. cbn [hops]. constructor; [| constructor; [| constructor]]; cbn [fst snd].
    + split; [left; reflexivity |]. exists p. split; [exact Hp |].
      split; [reflexivity |]. rewrite Hpath. reflexivity.
    + split; [right; apply in_map, Hp |]. exists imp. split; [exact Hin |].
      split; [reflexivity |]. rewrite Hpath'. reflexivity.
Qed.

Lemma add_edges_inv (processed : list Impact) imp :
  In imp processed ->
  forall (hs : list (string * string)) (acc : gset string * list AffectedEdge),
    Forall (fun h => In h (hops (path imp))) hs ->
    NoDup (map edge_pair (snd acc)) ->
    (forall e, In e (snd acc) -> edge_key (edge_pair e) ∈ fst acc) ->
    (forall e, In e (snd acc) ->
               exists imp', In imp' processed /\ In (edge_pair e) (hops (path imp'))) ->
    let acc' :=
      fold_left
        (fun '(edgeSet, affected) '(a, b) =>
           let key := a +:+ "→" +:+ b in
           if bool_decide (key ∈ edgeSet) then (edgeSet, affected)
           else ({[key]} ∪ edgeSet,
                 affected ++ [ {| source := a; target := b;
                                  ae_relationship_type := i_relationship_type imp;
                                  ae_direction := i_direction imp;
                                  ae_confidence_score := edge_confidence imp |} ]))
        hs acc in
    NoDup (map edge_pair (snd acc'))
    /\ (forall e, In e (snd acc') -> edge_key (edge_pair e) ∈ fst acc')
    /\ (forall e, In e (snd acc') ->
                  exists imp', In imp' processed /\ In (edge_pair e) (hops (path imp'))).
Proof.
  intros Himp. induction hs as [| [a b] hs IH]; intros [edgeSet affected] Hhs Hnd Hkeys Hsrc;
    cbn [fold_left]; [auto |].
  apply Forall_cons in Hhs as [Hh Hhs]. cbn [fst snd] in *.
  destruct (bool_decide _) eqn:Ek; apply IH; try assumption; cbn [fst snd].
  - apply bool_decide_eq_false in Ek. rewrite map_app. apply NoDup_app.
    split; [exact Hnd |]. split; [| apply NoDup_singleton].
    intros h Hin Hh'. apply list_elem_of_In in Hin, Hh'. destruct Hh' as [<- | []].
    apply in_map_iff in Hin as (e & He & Hin). apply Ek.
    specialize (Hkeys e Hin). rewrite He in Hkeys. exact Hkeys.
  - intros e Hin. apply in_app_or in Hin as [Hin | [<- | []]].
    + apply elem_of_union_r, Hkeys, Hin.
    + apply elem_of_union_l, elem_of_singleton. reflexivity.
  - intros e Hin. apply in_app_or in Hin as [Hin | [<- | []]]; [apply Hsrc, Hin |].
    exists imp. split; [exact Himp | exact Hh].
Qed.

Lemma affected_edges_inv (processed : list Impact) (imps : list Impact) :
  (forall imp, In imp imps -> In imp processed) ->
  forall acc : gset string * list AffectedEdge,
    NoDup (map edge_pair (snd acc)) ->
    (forall e, In e (snd acc) -> edge_key (edge_pair e) ∈ fst acc) ->
    (forall e, In e (snd acc) ->
               exists imp', In imp' processed /\ In (edge_pair e) (hops (path imp'))) ->
    let acc' := fold_left (fun acc imp => add_edges imp acc) imps acc in
    NoDup (map edge_pair (snd acc'))
    /\ (forall e, In e (snd acc') ->
                  exists imp', In imp' processed /\ In (edge_pair e) (hops (path imp'))).
Proof.
  induction imps as [| imp imps IH]; intros Hsub acc Hnd Hkeys Hsrc; cbn [fold_left];
    [auto |].
  destruct (add_edges_inv processed imp (Hsub imp (or_introl eq_refl))
              (hops (path imp)) acc) as (H1 & H2 & H3); try assumption.
  { apply Forall_forall. intros h Hh. apply list_elem_of_In, Hh. }
  apply IH; try assumption. intros i Hi. apply Hsub. right. exact Hi.
Qed.

(** X18. The row of a report built from a traversal.  The affected nodes
    are distinct and the trigger market is not among them.  No two
    affected edges have the same source and target; every affected edge
    ends at an affected node, it is the last hop of the path of the impact
    on that node, and it starts at the trigger market or at an affected
    node; hence there are no more affected edges than affected nodes. *)
Theorem report_edges_enter_nodes (userQuery targetMarket initialDir : string)
    (relationships : list Rel) (narratives : Narratives) :
  let impacts := traverseGraph targetMarket initialDir relationships in
  let row := report_row userQuery targetMarket impacts narratives in
  NoDup (affected_nodes row)
  /\ ~ In (trigger_market row) (affected_nodes row)
  /\ NoDup (map edge_pair (affected_edges row))
  /\ Forall (fun e =>
               In (target e) (affected_nodes row)
               /\ (source e = trigger_market row \/ In (source e) (affected_nodes row))
               /\ exists imp,
                    In imp impacts /\ i_market_key imp = target e
                    /\ last (hops (path imp)) = Some (source e, target e))
            (affected_edges row)
  /\ (length (affected_edges row) <= length (affected_nodes row))%nat.
Proof.
  intros impacts row.
  destruct (traversal_keys targetMarket initialDir relationships) as [Hnd Hne].
  fold impacts in Hnd, Hne.
  cbn [row report_row affected_nodes affected_edges trigger_market].
  destruct (affected_edges_inv impacts impacts (fun _ H => H) (∅, []))
    as [Hpairs Hsrc]; cbn [fst snd]; [constructor | intros e [] | intros e [] |].
  cbn zeta in Hpairs, Hsrc.
  set (edges := snd (fold_left (fun acc imp => add_edges imp acc) impacts (∅, []))) in *.
  assert (Henter : forall e, In e edges ->
            In (target e) (map i_market_key impacts)
            /\ (source e = targetMarket \/ In (source e) (map i_market_key impacts))
            /\ exists imp, In imp impacts /\ i_market_key imp = target e
                           /\ last (hops (path imp)) = Some (source e, target e)).
  { intros e He. destruct (Hsrc e He) as (imp' & Himp' & Hhop).
    pose proof (hops_enter _ _ _ imp' Himp') as Hall. rewrite Forall_forall in Hall.
    destruct (Hall _ (proj2 (list_elem_of_In _ _) Hhop)) as (Hfst & imp & Hin & Hk & Hlast).
    cbn [edge_pair fst snd] in *. split; [rewrite <- Hk; apply in_map, Hin |].
    split; [exact Hfst |]. exists imp. auto. }
  split; [exact Hnd |]. split; [exact Hne |]. split; [exact Hpairs |].
  split; [apply Forall_forall; intros e He; apply Henter, list_elem_of_In, He |].
  assert (Htargets : NoDup (map target edges)).
  { replace (map target edges) with (snd <$> (edge_pair <$> edges))
      by (rewrite <- list_fmap_compose; reflexivity).
    apply NoDup_fmap_2_strong; [| exact Hpairs].
    intros x y Hx Hy Hxy.
    apply list_elem_of_fmap in Hx as (e1 & -> & He1), Hy as (e2 & -> & He2).
    destruct (Henter e1 (proj1 (list_elem_of_In _ _) He1)) as (_ & _ & i1 & Hi1 & Hk1 & Hl1).
    destruct (Henter e2 (proj1 (list_elem_of_In _ _) He2)) as (_ & _ & i2 & Hi2 & Hk2 & Hl2).
    cbn [edge_pair snd] in Hxy.
    assert (i1 = i2).
    { apply (same_key_same_impact impacts); try assumption. congruence. }
    subst i2. unfold edge_pair. congruence. }
  rewrite <- (length_map target edges).
  apply submseteq_length, NoDup_submseteq; [exact Htargets |].
  intros x Hx. apply list_elem_of_fmap in Hx as (e & -> & He).
  apply list_elem_of_In, Henter, list_elem_of_In, He.
Qed.

(** *** The path of an impact *)

(** X30. The path of an impact is a simple path: it starts at the target,
    ends at the market of the impact, names [order + 1] markets, no market
    twice, and every market on it other than the target has an impact of
    its own in the result. *)
Theorem path_is_simple (targetMarket initialDir : string) (relationships : list Rel)
    (imp : Impact) :
  In imp (traverseGraph targetMarket initialDir relationships) ->
  NoDup (path imp)
  /\ head (path imp) = Some targetMarket
  /\ last (path imp) = Some (i_market_key imp)
  /\ length (path imp) = S (order imp)
  /\ Forall (fun node =>
               node = targetMarket
               \/ In node (map i_market_key
                             (traverseGraph targetMarket initialDir relationships)))
            (path imp).
Proof.
  intros Hin.
  destruct (traversal_keys targetMarket initialDir relationships) as [Hnd Hne].
  assert (Hkey : forall i, In i (traverseGraph targetMarket initialDir relationships) ->
                           i_market_key i <> targetMarket).
  { intros i Hi Heq. apply Hne, in_map_iff. exists i. auto. }
  destruct (traversal_tree _ _ _ imp Hin) as (e & rel & He & _ & _ & Hd & Himp).
  destruct He as [-> | (p & Hp & ->)].
  - assert (Hpath : path imp = [targetMarket; i_market_key imp])
      by (rewrite Himp; reflexivity).
    assert (Hord : order imp = 1%nat) by (rewrite Himp; reflexivity).
    rewrite Hpath, Hord. split.
    { apply NoDup_cons_2; [| apply NoDup_singleton].
      intros H. apply list_elem_of_In in H. destruct H as [H | []].
      apply (Hkey imp Hin H). }
    repeat split. constructor; [left; reflexivity |].
    constructor; [right; apply in_map, Hin | constructor].
  - destruct (traversal_tree _ _ _ p Hp) as (e' & rel' & He' & _ & _ & Hd' & Hpimp).
    cbn [entry_of depth] in Hd.
    assert (He0 : e' = origin targetMarket initialDir).
    { destruct He' as [-> | (p' & Hp' & ->)]; [reflexivity |].
      destruct (traversal_sound _ _ _ p' Hp') as (_ & Hord & _).
      rewrite Hpimp in Hd. cbn [impact_of order entry_of depth] in Hd.
      unfold MAX_DEPTH in *. lia. }
    subst e'.
    assert (Hppath : path p = [targetMarket; i_market_key p]) by (rewrite Hpimp; reflexivity).
    assert (Hpord : order p = 1%nat) by (rewrite Hpimp; reflexivity).
    assert (Hpath : path imp = [targetMarket; i_market_key p; i_market_key imp]).
    { rewrite Himp. cbn [impact_of path advance e_path entry_of i_market_key marketKey].
      rewrite Hppath. reflexivity. }
    assert (Hord : order imp = 2%nat).
    { rewrite Himp. cbn [impact_of order entry_of depth]. lia. }
    assert (Hdiff : i_market_key p <> i_market_key imp).
    { intros Heq.
      assert (H : p = imp) by (eapply same_key_same_impact; eassumption).
      rewrite H in Hpord. lia. }
    rewrite Hpath, Hord. split.
    { apply NoDup_cons_2.
      - intros H. apply list_elem_of_In in H. destruct H as [H | [H | []]].
        + apply (Hkey p Hp H).
        + apply (Hkey imp Hin H).
      - apply NoDup_cons_2; [| apply NoDup_singleton].
        intros H. apply list_elem_of_In in H. destruct H as [H | []].
        apply Hdiff. symmetry. exact H. }
    repeat split. constructor; [left; reflexivity |].
    constructor; [right; apply in_map, Hp |].
    constructor; [right; apply in_map, Hin | constructor].
Qed.

(** *** A target without neighbours *)

Lemma filter_touches_nil t (relationships : list Rel) :
  Forall (fun r => touches t r = false) relationships ->
  filter (touches t) relationships = [].
Proof.
  induction 1 as [| r l Hr _ IH]; [reflexivity |].
  rewrite filter_cons, IH. destruct (decide (touches t r)) as [H | _]; [| reflexivity].
  rewrite Hr in H. destruct H.
Qed.

Lemma loop_done fuel relationships v i :
  loop fuel relationships (mkBfs v i []) = Some i.
Proof. destruct fuel; reflexivity. Qed.

(** X21. A scenario whose target market is touched by no relationship:
    the traversal finds no impact; the request succeeds without the
    narrative model being asked (whatever it would answer); the summary is
    the fixed sentence about a market without connections; and the row
    written, if the store takes it, has an empty causal chain and no
    affected node or edge. *)
Theorem isolated_target_report (w : World) (userQuery : string)
    (relationships : list Rel) (parsed : Parse) :
  loadMarketGraph w = inr relationships ->
  parseScenario w userQuery = inr parsed ->
  Forall (fun r => touches (target_market parsed) r = false) relationships ->
  traverseGraph (target_market parsed) (p_direction parsed) relationships = []
  /\ exists report rows,
       predictScenario w userQuery = (inr report, rows)
       /\ r_impacts report = []
       /\ narratives report
          = {| executive_summary :=
                 Some ("Scenario " +:+ dquote +:+ userQuery +:+ dquote +:+ " targets "
                       +:+ target_market parsed
                       +:+ ", which has no connected markets in the current relationship graph.");
               market_impacts := Some [] |}
       /\ Forall (fun row =>
                    trigger_market row = target_market parsed
                    /\ causal_chain row = [] /\ affected_nodes row = []
                    /\ affected_edges row = [] /\ status row = "completed") rows.
Proof.
  intros Hload Hparse Hnone.
  assert (Hempty : traverseGraph (target_market parsed) (p_direction parsed) relationships
                   = []).
  { destruct (traversal_loop (target_market parsed) (p_direction parsed) relationships)
      as (l & Hl & ->).
    unfold turns in Hl. rewrite loop_start, (filter_touches_nil _ _ Hnone) in Hl.
    cbn [fold_left] in Hl. rewrite loop_done in Hl. injection Hl as <-. reflexivity. }
  split; [exact Hempty |].
  unfold predictScenario. rewrite Hload, Hparse, Hempty. cbn [generateNarratives].
  unfold saveReport. destruct (insertReport w _) as [id |];
    eexists; eexists; (split; [reflexivity |]); cbn [r_impacts narratives];
    (split; [reflexivity |]); (split; [reflexivity |]).
  - constructor; [| constructor]. repeat split; reflexivity.
  - constructor.
Qed.

End ScenarioTreeFacts.

Module ScenarioTreeWitnesses.
Import JsNum JsText Scenario ScenarioTreeFacts.

Lemma first_edge_decides_witness :
  let neighbor := neighbor_of "O" sample_first in
  let conf := pathConfidence (advance (origin "O" "UP") sample_first) in
  (ltb conf MIN_PATH_CONF = true ->
   ~ In neighbor (map i_market_key (traverseGraph "O" "UP" sample_graph)))
  /\ (ltb conf MIN_PATH_CONF = false ->
      In (impact_of (origin "O" "UP") sample_first) (traverseGraph "O" "UP" sample_graph)).
Proof.
  apply (first_edge_decides "O" "UP" sample_graph [] [] sample_first).
  - vm_compute. reflexivity.
  - constructor.
  - discriminate.
Defined.

Lemma sample_impact_found : In sample_impact (traverseGraph "O" "UP" sample_graph).
Proof. vm_compute. left. reflexivity. Qed.

Lemma second_order_extends_first_witness :
  (order sample_impact = 1%nat
   /\ exists rel,
        In rel sample_graph /\ touches "O" rel = true
        /\ sample_impact = impact_of (origin "O" "UP") rel
        /\ path sample_impact = ["O"; i_market_key sample_impact])
  \/ (order sample_impact = 2%nat
      /\ exists parent rel,
           In parent (traverseGraph "O" "UP" sample_graph)
           /\ order parent = 1%nat
           /\ In rel sample_graph /\ touches (i_market_key parent) rel = true
           /\ sample_impact = impact_of (entry_of parent) rel
           /\ path sample_impact = path parent ++ [i_market_key sample_impact]
           /\ i_confidence_score sample_impact
              = toFixed_value 4 (mul (i_confidence_score parent)
                                     (edge_confidence sample_impact))
           /\ i_direction sample_impact
              = propagateDirection (i_direction parent)
                  (i_relationship_type sample_impact)
                  (m_impact_direction (meta sample_impact))).
Proof.
  apply (second_order_extends_first "O" "UP" sample_graph sample_impact).
  exact sample_impact_found.
Defined.

Lemma direction_parity_witness :
  is_direction (i_direction sample_impact)
  /\ exists es,
       Forall (fun r => In r sample_graph) es
       /\ linked "O" es
       /\ path sample_impact = route "O" es
       /\ i_direction sample_impact = if Nat.even (flip_count es) then "UP" else flip "UP".
Proof.
  apply (direction_parity "O" "UP" sample_graph sample_impact).
  - left. reflexivity.
  - exact sample_impact_found.
Defined.

Lemma confidence_within_rounding_witness :
  exists es c,
    Forall (fun r => In r sample_graph) es
    /\ linked "O" es
    /\ path sample_impact = route "O" es
    /\ length es = order sample_impact
    /\ i_confidence_score sample_impact = Fin c
    /\ 5 # 100 <= c <= 1
    /\ Qabs (c - exact_product es)
       <= inject_Z (Z.of_nat (order sample_impact)) * (1 # 20000)
    /\ Qabs (c - exact_product es) <= 1 # 10000.
Proof.
  apply (confidence_within_rounding "O" "UP" sample_graph sample_impact).
  - repeat (constructor; [split; vm_compute; discriminate |]). constructor.
  - exact sample_impact_found.
Defined.

Lemma isolated_target_report_witness :
  traverseGraph "Q" "UP" sample_graph = []
  /\ exists report rows,
       predictScenario world_isolated "Quotas are lifted" = (inr report, rows)
       /\ r_impacts report = []
       /\ narratives report
          = {| executive_summary :=
                 Some ("Scenario " +:+ dquote +:+ "Quotas are lifted" +:+ dquote
                       +:+ " targets " +:+ "Q"
                       +:+ ", which has no connected markets in the current relationship graph.");
               market_impacts := Some [] |}
       /\ Forall (fun row =>
                    trigger_market row = "Q"
                    /\ causal_chain row = [] /\ affected_nodes row = []
                    /\ affected_edges row = [] /\ status row = "completed") rows.
Proof.
  apply (isolated_target_report world_isolated "Quotas are lifted" sample_graph
           (mkParse "Q" "Quotas are lifted" "UP")).
  - reflexivity.
  - reflexivity.
  - repeat constructor.
Defined.

Lemma path_is_simple_witness :
  NoDup (path sample_impact)
  /\ head (path sample_impact) = Some "O"
  /\ last (path sample_impact) = Some (i_market_key sample_impact)
  /\ length (path sample_impact) = S (order sample_impact)
  /\ Forall (fun node =>
               node = "O"
               \/ In node (map i_market_key (traverseGraph "O" "UP" sample_graph)))
            (path sample_impact).
Proof.
  apply (path_is_simple "O" "UP" sample_graph sample_impact).
  exact sample_impact_found.
Defined.

End ScenarioTreeWitnesses.

(** ** The run of the agent *)

Module AgentRunFacts.
Import JsNum JsText Classifier ClassifierFacts.

Lemma all_pairs_length (markets : list Market) :
  (2 * length (all_pairs markets) = length markets * (length markets - 1))%nat.
Proof.
  induction markets as [| m rest IH]; [reflexivity |].
  cbn [all_pairs length]. rewrite length_app, length_map.
  destruct rest as [| m' rest']; [reflexivity |]. cbn [length] in *. nia.
Qed.

(** The pairs are the pairs of catalog positions [i < j]. *)
Lemma all_pairs_positions (markets : list Market) a b :
  In (a, b) (all_pairs markets)
  <-> exists i j, (i < j)%nat /\ markets !! i = Some a /\ markets !! j = Some b.
Proof.
  induction markets as [| m rest IH]; cbn [all_pairs].
  - split; [intros [] | intros (i & j & _ & H & _); discriminate].
  - rewrite in_app_iff, in_map_iff, IH. split.
    + intros [(m' & [= <- <-] & Hin) | (i & j & Hlt & Hi & Hj)].
      * apply list_elem_of_In, list_elem_of_lookup in Hin as [j Hj].
        exists 0%nat, (S j). split; [lia | auto].
      * exists (S i), (S j). split; [lia | auto].
    + intros (i & j & Hlt & Hi & Hj). destruct i as [| i].
      * left. injection Hi as <-. destruct j as [| j]; [lia |]. exists b.
        split; [reflexivity |]. apply list_elem_of_In, list_elem_of_lookup. eauto.
      * right. destruct j as [| j]; [lia |]. exists i, j. split; [lia | auto].
Qed.

Section WithText.

Variable toFixed : nat -> num -> string.
Variable analyst : Market -> Market -> option num -> option num -> option Parsed.
Variable store_accepts : Relationship -> bool.

Local Abbreviation classifyPair := (classifyPair toFixed analyst).
Local Abbreviation runAgent := (runAgent toFixed analyst store_accepts).
Local Abbreviation produced := (produced toFixed analyst).
Local Abbreviation stored := (stored toFixed analyst store_accepts).

Lemma classifyPair_probabilities a b pA pB rel :
  classifyPair a b pA pB = Some rel ->
  probability_a rel = pA /\ probability_b rel = pB.
Proof.
  unfold Classifier.classifyPair. destruct (analyst a b pA pB); [| discriminate].
  destruct (postProcess _ _ _ _ _ _ _) as [[[f al] sp] j].
  destruct (sort2 _ _) as [keyA keyB]. intros H. injection H as <-. split; reflexivity.
Qed.

(** X23. In a row built by the agent, [probability_a] and
    [probability_b] are the probabilities of the two markets in the order
    of the catalog, while [market_key_a] and [market_key_b] are their keys
    in alphabetical order: when the market that comes first in the catalog
    has the greater key, [probability_a] is the probability of the market
    under [market_key_b], and conversely. *)
Theorem probability_columns_follow_catalog (markets : list Market)
    (liveProbMap : gmap string num) (rel : Relationship) :
  In rel (produced markets liveProbMap) ->
  let probMap := liveProbMap ∪ DEMO_PROBS in
  exists i j a b,
    (i < j)%nat /\ markets !! i = Some a /\ markets !! j = Some b
    /\ probability_a rel = probMap !! market_key a
    /\ probability_b rel = probMap !! market_key b
    /\ (if String.ltb (market_key b) (market_key a)
        then market_key_a rel = market_key b /\ market_key_b rel = market_key a
        else market_key_a rel = market_key a /\ market_key_b rel = market_key b).
Proof.
  intros Hin probMap. unfold Classifier.produced in Hin.
  apply list_elem_of_In, list_elem_of_omap in Hin as ([a b] & Hab & Hc).
  apply list_elem_of_In, all_pairs_positions in Hab as (i & j & Hlt & Hi & Hj).
  exists i, j, a, b. split; [exact Hlt |]. split; [exact Hi |]. split; [exact Hj |].
  destruct (classifyPair_probabilities _ _ _ _ _ Hc) as [Ha Hb].
  split; [exact Ha |]. split; [exact Hb |].
  apply (classifyPair_keys toFixed analyst) in Hc. unfold pair_key, sort2 in Hc.
  destruct (String.ltb (market_key b) (market_key a)); injection Hc as -> ->; auto.
Qed.

Lemma length_upsert r table : (length (upsert r table) <= S (length table))%nat.
Proof.
  induction table as [| row rest IH]; cbn [upsert length]; [lia |].
  destruct (same_pair row r); cbn [length]; lia.
Qed.

Lemma length_upserts rels : forall table,
  (length (upserts rels table) <= length table + length rels)%nat.
Proof.
  unfold upserts. induction rels as [| r rest IH]; intros table; cbn [fold_left length]; [lia |].
  pose proof (IH (upsert r table)). pose proof (length_upsert r table). lia.
Qed.

End WithText.

Section Tally.

Variable toFixed : nat -> num -> string.
Variable reply : Market -> Market -> option num -> option num -> Reply.
Variable store_accepts : Relationship -> bool.

Local Abbreviation analyst := (analyst_of reply).
Local Abbreviation classifyPair := (classifyPair toFixed analyst).
Local Abbreviation runAgent := (runAgent toFixed analyst store_accepts).
Local Abbreviation produced := (produced toFixed analyst).
Local Abbreviation stored := (stored toFixed analyst store_accepts).
Local Abbreviation task := (task toFixed reply).
Local Abbreviation throwing := (throwing reply).
Local Abbreviation runAgent_tally := (runAgent_tally toFixed reply).

(** A task stores what [classifyPair] returns, skips when it returns
    nothing, and throws on the JSON [null]. *)
Lemma task_cases (probMap : gmap string num) (a b : Market) :
  let rel := classifyPair a b (probMap !! market_key a) (probMap !! market_key b) in
  (throwing probMap (a, b) = true /\ task probMap a b = Threw /\ rel = None)
  \/ (throwing probMap (a, b) = false /\ task probMap a b = Skipped /\ rel = None)
  \/ (throwing probMap (a, b) = false
      /\ exists r, task probMap a b = Stored r /\ rel = Some r).
Proof.
  cbn zeta. unfold Classifier.task, Classifier.throwing, Classifier.classifyPair, analyst_of.
  cbn [fst snd].
  destruct (reply a b (probMap !! market_key a) (probMap !! market_key b)) as [| | parsed].
  - right. left. auto.
  - left. auto.
  - right. right. split; [reflexivity |].
    destruct (postProcess _ _ _ _ _ _ _) as [[[f al] sp] j].
    destruct (sort2 _ _) as [keyA keyB]. eexists. split; reflexivity.
Qed.

Lemma tally_from (ended : list (Market * Market)) (probMap : gmap string num) :
  forall t,
    let t' := fold_left (fun t '(a, b) => tally_step t (task probMap a b)) ended t in
    let out := omap (fun '(a, b) =>
                       classifyPair a b (probMap !! market_key a) (probMap !! market_key b))
                    ended in
    storedResults t' = storedResults t ++ out
    /\ t_stored t' = (t_stored t + length out)%nat
    /\ (t_stored t' + t_skipped t' + length (List.filter (throwing probMap) ended)
        = t_stored t + t_skipped t + length ended)%nat
    /\ t_arbitrage t'
       = (t_arbitrage t + length (List.filter (fun r => flagged (arbitrage_flag r)) out))%nat
    /\ t_divergence t'
       = (t_divergence t + length (List.filter (fun r => flagged (risk_alert r)) out))%nat.
Proof.
  induction ended as [| [a b] rest IH]; intros t; cbn zeta.
  - cbn [fold_left omap list_omap List.filter length]. rewrite app_nil_r.
    repeat split; lia.
  - cbn [fold_left omap list_omap List.filter].
    destruct (IH (tally_step t (task probMap a b))) as (H1 & H2 & H3 & H4 & H5).
    cbn zeta in *. clear IH.
    destruct (task_cases probMap a b)
      as [(Ht & E1 & E2) | [(Ht & E1 & E2) | (Ht & rel & E1 & E2)]];
      cbn zeta in E2; rewrite Ht, E2; rewrite E1 in *;
      cbn [tally_step storedResults t_stored t_skipped t_arbitrage t_divergence
           length List.filter] in *.
    + repeat split; try lia; assumption.
    + repeat split; try lia. exact H1.
    + split; [rewrite H1, <- app_assoc; reflexivity |].
      destruct (flagged (arbitrage_flag rel)), (flagged (risk_alert rel));
        cbn [length]; repeat split; lia.
Qed.

Lemma filter_length_perm {A : Type} (f : A -> bool) (l l' : list A) :
  l ≡ₚ l' -> length (List.filter f l) = length (List.filter f l').
Proof.
  induction 1 as [| x l l' _ IH | x y l | l l' l'' _ IH1 _ IH2]; cbn [List.filter].
  - reflexivity.
  - destruct (f x); cbn [length]; lia.
  - destruct (f x), (f y); reflexivity.
  - lia.
Qed.

(** X22. The counters of a run of the agent over a catalog of [n]
    markets, in whatever order the tasks end.  There are n(n-1)/2 pairs;
    a pair is counted as skipped when [classifyPair] returns nothing, as
    stored when it returns a relationship, and not at all when the answer
    is the JSON [null], on which its task throws: [stored], [skipped] and
    the number of such pairs add up to the number of pairs.  [stored]
    counts the relationships built from an answer, whether or not the
    store took them, so that the rows taken by the store and the growth of
    the table are bounded by it; the arbitrage flags and the divergences
    counted are among the stored. *)
Theorem agent_tally (markets : list Market) (liveProbMap : gmap string num)
    (table : list Relationship) (ended : list (Market * Market)) :
  ended ≡ₚ all_pairs markets ->
  let t := runAgent_tally liveProbMap ended in
  let n := length markets in
  let thrown :=
    length (List.filter (throwing (liveProbMap ∪ DEMO_PROBS)) (all_pairs markets)) in
  (2 * length (all_pairs markets) = n * (n - 1))%nat
  /\ (t_stored t + t_skipped t + thrown = length (all_pairs markets))%nat
  /\ storedResults t ≡ₚ produced markets liveProbMap
  /\ (ended = all_pairs markets -> storedResults t = produced markets liveProbMap)
  /\ t_stored t = length (produced markets liveProbMap)
  /\ (length (stored markets liveProbMap) <= t_stored t)%nat
  /\ (length (runAgent markets liveProbMap table) <= length table + t_stored t)%nat
  /\ (t_arbitrage t <= t_stored t)%nat
  /\ (t_divergence t <= t_stored t)%nat.
Proof.
  intros Hperm t n thrown. split; [apply all_pairs_length |].
  set (probMap := liveProbMap ∪ DEMO_PROBS) in *.
  set (out := omap (fun '(a, b) =>
                      classifyPair a b (probMap !! market_key a) (probMap !! market_key b))
                   ended).
  destruct (tally_from ended probMap (mkTally 0 0 0 0 [])) as (H1 & H2 & H3 & H4 & H5).
  cbn zeta in *. cbn [storedResults t_stored t_skipped t_arbitrage t_divergence app] in *.
  assert (T1 : storedResults t = out) by exact H1.
  assert (T2 : t_stored t = (0 + length out)%nat) by exact H2.
  assert (T3 : (t_stored t + t_skipped t + length (List.filter (throwing probMap) ended)
                = 0 + 0 + length ended)%nat) by exact H3.
  assert (T4 : t_arbitrage t
               = (0 + length (List.filter (fun r => flagged (arbitrage_flag r)) out))%nat)
    by exact H4.
  assert (T5 : t_divergence t
               = (0 + length (List.filter (fun r => flagged (risk_alert r)) out))%nat)
    by exact H5.
  clear H1 H2 H3 H4 H5. clearbody t.
  assert (Hout : out ≡ₚ produced markets liveProbMap).
  { unfold out, Classifier.produced. fold probMap. rewrite Hperm. reflexivity. }
  assert (Hlen : length out = length (produced markets liveProbMap))
    by (apply Permutation_length; exact Hout).
  assert (Hstored : (length (stored markets liveProbMap)
                     <= length (produced markets liveProbMap))%nat).
  { unfold Classifier.stored. apply length_filter. }
  split.
  { unfold thrown. rewrite <- (filter_length_perm _ _ _ Hperm).
    rewrite <- (Permutation_length Hperm). lia. }
  split; [rewrite T1; exact Hout |].
  split; [intros ->; exact T1 |].
  split; [lia |]. split; [lia |].
  split.
  { rewrite (runAgent_upserts toFixed analyst store_accepts).
    pose proof (length_upserts (stored markets liveProbMap) table). lia. }
  pose proof (filter_length_le (fun r => flagged (arbitrage_flag r)) out).
  pose proof (filter_length_le (fun r => flagged (risk_alert r)) out).
  split; lia.
Qed.

End Tally.

End AgentRunFacts.

Module AgentRunWitnesses.
Import JsNum Classifier AgentRunFacts.

Lemma agent_tally_witness :
  let t := runAgent_tally sample_toFixed sample_reply sample_live (all_pairs sample_markets) in
  (t_stored t + t_skipped t + 2 = 3)%nat
  /\ t_stored t = 1%nat.
Proof.
  destruct (agent_tally sample_toFixed sample_reply (fun _ => true) sample_markets
              sample_live [] (all_pairs sample_markets)) as (_ & H & _ & _ & Hs & _).
  - reflexivity.
  - split; [exact H | exact Hs].
Defined.

Lemma probability_columns_follow_catalog_witness :
  let probMap := sample_live ∪ DEMO_PROBS in
  exists i j a b,
    (i < j)%nat /\ sample_markets !! i = Some a /\ sample_markets !! j = Some b
    /\ probability_a sample_row = probMap !! market_key a
    /\ probability_b sample_row = probMap !! market_key b
    /\ (if String.ltb (market_key b) (market_key a)
        then market_key_a sample_row = market_key b
             /\ market_key_b sample_row = market_key a
        else market_key_a sample_row = market_key a
             /\ market_key_b sample_row = market_key b).
Proof.
  apply (probability_columns_follow_catalog sample_toFixed sample_analyst
           sample_markets sample_live sample_row).
  vm_compute. right. left. reflexivity.
Defined.

End AgentRunWitnesses.

(** ** Link counts and hubs *)

Module HubsFacts.
Import Hubs.

Lemma count_of_bump k counts k' :
  count_of (bump k counts) k'
  = (count_of counts k' + if String.eqb k k' then 1 else 0)%nat.
Proof.
  unfold count_of. induction counts as [| [k0 n] rest IH]; cbn [bump find fst snd].
  - destruct (String.eqb k k'); reflexivity.
  - destruct (String.eqb_spec k0 k) as [-> | Hne]; cbn [find fst snd].
    + destruct (String.eqb k k'); cbn [snd]; lia.
    + destruct (String.eqb_spec k0 k') as [-> | Hne'].
      * cbn [snd]. destruct (String.eqb_spec k k'); [congruence | lia].
      * exact IH.
Qed.

Lemma keys_bump k counts :
  map fst (bump k counts)
  = if existsb (fun e => String.eqb (fst e) k) counts
    then map fst counts else map fst counts ++ [k].
Proof.
  induction counts as [| [k0 n] rest IH]; cbn [bump existsb map fst app]; [reflexivity |].
  destruct (String.eqb k0 k); cbn [orb map fst]; [reflexivity |].
  rewrite IH. destruct (existsb _ rest); reflexivity.
Qed.

Lemma existsb_key k counts :
  existsb (fun e : string * nat => String.eqb (fst e) k) counts = true
  <-> In k (map fst counts).
Proof.
  rewrite existsb_exists, in_map_iff. split.
  - intros (e & He & Hk). apply String.eqb_eq in Hk. eauto.
  - intros (e & Hk & He). exists e. split; [exact He | apply String.eqb_eq, Hk].
Qed.

Lemma NoDup_bump k counts : NoDup (map fst counts) -> NoDup (map fst (bump k counts)).
Proof.
  intros Hnd. rewrite keys_bump.
  destruct (existsb _ counts) eqn:E; [exact Hnd |].
  apply NoDup_app. split; [exact Hnd |]. split; [| apply NoDup_singleton].
  intros x Hx Hk. apply list_elem_of_In in Hk. destruct Hk as [<- | []].
  apply list_elem_of_In, existsb_key in Hx. congruence.
Qed.

Lemma total_bump k counts : total (bump k counts) = S (total counts).
Proof.
  induction counts as [| [k0 n] rest IH]; cbn [bump total fold_right snd]; [reflexivity |].
  destruct (String.eqb k0 k); cbn [total fold_right snd]; [lia |].
  fold (total (bump k rest)). fold (total rest). rewrite IH. lia.
Qed.

Lemma positive_bump k counts :
  Forall (fun e => (1 <= snd e)%nat) counts ->
  Forall (fun e => (1 <= snd e)%nat) (bump k counts).
Proof.
  induction 1 as [| [k0 n] rest Hn Hrest IH]; cbn [bump].
  - constructor; [cbn; lia | constructor].
  - destruct (String.eqb k0 k); constructor; cbn [snd] in *; try assumption; lia.
Qed.

Section Counting.

Variable counts : Link -> bool.

Lemma countLinks_from (relationships : list Link) : forall acc,
  NoDup (map fst acc) ->
  Forall (fun e => (1 <= snd e)%nat) acc ->
  let out := fold_left
               (fun acc r => if counts r then bump (link_b r) (bump (link_a r) acc) else acc)
               relationships acc in
  NoDup (map fst out)
  /\ Forall (fun e => (1 <= snd e)%nat) out
  /\ (forall k, count_of out k = (count_of acc k + degree counts relationships k)%nat)
  /\ total out = (total acc + 2 * length (List.filter counts relationships))%nat
  /\ (forall k, In k (map fst out)
                <-> In k (map fst acc)
                    \/ exists r, In r relationships /\ counts r = true
                                 /\ (k = link_a r \/ k = link_b r)).
Proof.
  induction relationships as [| r rest IH]; intros acc Hnd Hpos; cbn zeta; cbn [fold_left].
  - unfold degree. cbn [List.filter length]. repeat split; try assumption; try lia.
    + intros H. left. exact H.
    + intros [H | (r & [] & _)]. exact H.
  - destruct (counts r) eqn:Ec.
    + destruct (IH (bump (link_b r) (bump (link_a r) acc)))
        as (H1 & H2 & H3 & H4 & H5);
        [apply NoDup_bump, NoDup_bump, Hnd | apply positive_bump, positive_bump, Hpos |].
      cbn zeta in *. split; [exact H1 |]. split; [exact H2 |]. split; [| split].
      * intros k. rewrite H3, !count_of_bump. unfold degree. cbn [List.filter].
        rewrite Ec. cbn [andb]. rewrite (String.eqb_sym (link_a r) k), (String.eqb_sym (link_b r) k).
        destruct (String.eqb k (link_a r)), (String.eqb k (link_b r)); cbn [length]; lia.
      * rewrite H4, !total_bump. cbn [List.filter]. rewrite Ec. cbn [length]. lia.
      * intros k. rewrite H5, !keys_bump.
        assert (Hb : forall (l : list (string * nat)) x,
                   In k (if existsb (fun e => String.eqb (fst e) x) l
                         then map fst l else map fst l ++ [x])
                   <-> In k (map fst l) \/ k = x).
        { intros l x. destruct (existsb _ l) eqn:E.
          - split; [auto |]. intros [H | ->]; [exact H | apply existsb_key, E].
          - rewrite in_app_iff. cbn [In]. intuition congruence. }
        rewrite <- keys_bump, Hb, keys_bump, Hb. split.
        -- intros [[[H | ->] | ->] | (r' & Hr' & Hc' & Hk)]; auto.
           ++ right. exists r. split; [left; reflexivity | auto].
           ++ right. exists r. split; [left; reflexivity | auto].
           ++ right. exists r'. split; [right; exact Hr' | auto].
        -- intros [H | (r' & [<- | Hr'] & Hc' & Hk)]; auto.
           ++ destruct Hk as [-> | ->]; auto.
           ++ right. exists r'. auto.
    + destruct (IH acc Hnd Hpos) as (H1 & H2 & H3 & H4 & H5). cbn zeta in *.
      split; [exact H1 |]. split; [exact H2 |]. split; [| split].
      * intros k. rewrite H3. unfold degree. cbn [List.filter]. rewrite Ec. reflexivity.
      * rewrite H4. cbn [List.filter]. rewrite Ec. reflexivity.
      * intros k. rewrite H5. split.
        -- intros [H | (r' & Hr' & Hc' & Hk)]; [auto |]. right. exists r'.
           split; [right; exact Hr' | auto].
        -- intros [H | (r' & [<- | Hr'] & Hc' & Hk)]; [auto | congruence |].
           right. exists r'. auto.
Qed.

Lemma countLinks_spec (relationships : list Link) :
  NoDup (map fst (countLinks counts relationships))
  /\ Forall (fun e => (1 <= snd e)%nat) (countLinks counts relationships)
  /\ (forall k, count_of (countLinks counts relationships) k = degree counts relationships k)
  /\ total (countLinks counts relationships)
     = (2 * length (List.filter counts relationships))%nat
  /\ (forall k, In k (map fst (countLinks counts relationships))
                <-> exists r, In r relationships /\ counts r = true
                              /\ (k = link_a r \/ k = link_b r)).
Proof.
  destruct (countLinks_from relationships []) as (H1 & H2 & H3 & H4 & H5);
    [constructor | constructor |].
  cbn zeta in *. fold (countLinks counts relationships) in *.
  split; [exact H1 |]. split; [exact H2 |]. split; [exact H3 |]. split; [exact H4 |].
  intros k. rewrite H5. cbn [map In]. tauto.
Qed.

End Counting.

Lemma count_of_entry (l : list (string * nat)) k n :
  NoDup (map fst l) -> In (k, n) l -> count_of l k = n.
Proof.
  unfold count_of. induction l as [| [k0 n0] rest IH]; intros Hnd Hin; [destruct Hin |].
  cbn [map fst] in Hnd. apply NoDup_cons in Hnd as [Hk Hnd]. cbn [find fst].
  destruct Hin as [[= -> ->] | Hin].
  - rewrite String.eqb_refl. reflexivity.
  - destruct (String.eqb_spec k0 k) as [-> | _]; [| apply IH; assumption].
    exfalso. apply Hk, list_elem_of_In, in_map_iff. exists (k, n). auto.
Qed.

(** *** The sort *)

Lemma insert_entry_perm x l : insert_entry x l ≡ₚ x :: l.
Proof.
  induction l as [| y rest IH]; cbn [insert_entry]; [reflexivity |].
  destruct (_ <? _)%nat; [reflexivity |]. rewrite IH. apply perm_swap.
Qed.

Lemma sort_entries_perm l : sort_entries l ≡ₚ l.
Proof.
  unfold sort_entries.
  assert (H : forall acc, fold_left (fun acc x => insert_entry x acc) l acc ≡ₚ l ++ acc).
  { induction l as [| x rest IH]; intros acc; cbn [fold_left app]; [reflexivity |].
    rewrite IH, insert_entry_perm. symmetry. apply Permutation_middle. }
  rewrite H, app_nil_r. reflexivity.
Qed.

Lemma insert_entry_sorted x l :
  StronglySorted falling_count l -> StronglySorted falling_count (insert_entry x l).
Proof.
  induction l as [| y rest IH]; intros Hs; cbn [insert_entry].
  - constructor; constructor.
  - apply StronglySorted_inv in Hs as [Hs Hrest].
    destruct (snd y <? snd x)%nat eqn:E.
    + apply Nat.ltb_lt in E. constructor; [constructor; assumption |].
      constructor; [unfold falling_count; lia |].
      eapply Forall_impl; [exact Hrest |]. unfold falling_count. intros z Hz. lia.
    + apply Nat.ltb_ge in E. constructor; [apply IH, Hs |].
      rewrite Forall_forall. intros z Hz. rewrite (insert_entry_perm x rest) in Hz.
      apply elem_of_cons in Hz as [-> | Hz]; [exact E |].
      rewrite Forall_forall in Hrest. apply Hrest, Hz.
Qed.

Lemma sort_entries_sorted l : StronglySorted falling_count (sort_entries l).
Proof.
  unfold sort_entries.
  assert (H : forall acc, StronglySorted falling_count acc ->
                          StronglySorted falling_count
                            (fold_left (fun acc x => insert_entry x acc) l acc)).
  { induction l as [| x rest IH]; intros acc Hs; [exact Hs |].
    cbn [fold_left]. apply IH, insert_entry_sorted, Hs. }
  apply H. constructor.
Qed.

Lemma total_perm l1 l2 : l1 ≡ₚ l2 -> total l1 = total l2.
Proof.
  induction 1 as [| x l l' _ IH | x y l | l l' l'' _ IH1 _ IH2];
    cbn [total fold_right]; try fold (total l); try fold (total l'); lia.
Qed.

Lemma total_filter (f : string * nat -> bool) l : (total (List.filter f l) <= total l)%nat.
Proof.
  induction l as [| x l IH]; cbn [List.filter total fold_right]; [lia |].
  fold (total l). destruct (f x); cbn [total fold_right]; fold (total (List.filter f l)); lia.
Qed.

Lemma total_hubs l :
  Forall (fun e => is_hub_entry e = true) l -> (4 * length l <= total l)%nat.
Proof.
  induction 1 as [| x l Hx _ IH]; cbn [length total fold_right]; [lia |].
  fold (total l). unfold is_hub_entry, HUB_LINK_THRESHOLD in Hx. apply Nat.ltb_lt in Hx. lia.
Qed.

Lemma entry_of_count (l : list (string * nat)) k :
  (0 < count_of l k)%nat -> In (k, count_of l k) l.
Proof.
  unfold count_of. destruct (find _ l) as [[k0 n] |] eqn:Ef; [| lia].
  intros _. apply find_some in Ef as [Hin Hk]. cbn [fst snd] in *.
  apply String.eqb_eq in Hk. subst k0. exact Hin.
Qed.

Lemma NoDup_keys_filter (f : string * nat -> bool) l :
  NoDup (map fst l) -> NoDup (map fst (List.filter f l)).
Proof.
  induction l as [| x l IH]; intros Hnd; [constructor |].
  cbn [map] in Hnd. apply NoDup_cons in Hnd as [Hx Hnd]. cbn [List.filter].
  destruct (f x); [| apply IH, Hnd]. cbn [map]. apply NoDup_cons. split; [| apply IH, Hnd].
  intros H. apply Hx. apply list_elem_of_In in H. apply list_elem_of_In.
  apply in_map_iff in H as (e & He & Hin). apply filter_In in Hin as [Hin _].
  apply in_map_iff. exists e. auto.
Qed.

Lemma hub_entry_iff (l : list (string * nat)) (deg : string -> nat) k n :
  NoDup (map fst l) -> (forall k, count_of l k = deg k) ->
  In (k, n) (List.filter is_hub_entry l) <-> n = deg k /\ (HUB_LINK_THRESHOLD < n)%nat.
Proof.
  intros Hnd Hdeg. rewrite filter_In. unfold is_hub_entry. cbn [snd].
  rewrite Nat.ltb_lt. split.
  - intros [Hin Hn]. split; [| exact Hn]. rewrite <- Hdeg. symmetry.
    apply count_of_entry; assumption.
  - intros [-> Hn]. split; [| exact Hn]. rewrite <- Hdeg. apply entry_of_count.
    rewrite Hdeg. unfold HUB_LINK_THRESHOLD in Hn. lia.
Qed.

(** X24. Hubs.  The link count of a market is the number of ends that
    implied and correlated relationships have at it, and the counts add up
    to twice the number of these relationships; a node is a hub exactly
    when its count is above 3; the hubs listed are these markets, each
    once, with their counts, by falling count; and there are at most half
    as many hubs as implied and correlated relationships. *)
Theorem hubs_counted (relationships : list Link) :
  let counts := buildLinkCounts relationships in
  let hubs := detectHubs relationships in
  (forall k, node_hub_link_count relationships k = degree counted relationships k)
  /\ (forall k, node_is_hub relationships k = true
                <-> (HUB_LINK_THRESHOLD < degree counted relationships k)%nat)
  /\ total counts = (2 * length (List.filter counted relationships))%nat
  /\ NoDup (map fst hubs)
  /\ (forall k n, In (k, n) hubs
                  <-> n = degree counted relationships k /\ (HUB_LINK_THRESHOLD < n)%nat)
  /\ StronglySorted falling_count hubs
  /\ (2 * length hubs <= length (List.filter counted relationships))%nat.
Proof.
  intros counts hubs.
  destruct (countLinks_spec counted relationships) as (Hnd & Hpos & Hdeg & Htotal & _).
  fold (buildLinkCounts relationships) in Hnd, Hpos, Hdeg, Htotal.
  fold counts in Hnd, Hpos, Hdeg, Htotal.
  assert (Hperm : hubs ≡ₚ List.filter is_hub_entry counts) by apply sort_entries_perm.
  assert (Hsorted : StronglySorted falling_count hubs) by apply sort_entries_sorted.
  clearbody hubs.
  assert (Hentry : forall k n, In (k, n) hubs
                     <-> n = degree counted relationships k /\ (HUB_LINK_THRESHOLD < n)%nat).
  { intros k n. rewrite <- (hub_entry_iff counts _ k n Hnd Hdeg).
    rewrite <- !list_elem_of_In, Hperm. reflexivity. }
  split; [exact Hdeg |]. split; [| split; [exact Htotal |]].
  { intros k. unfold node_is_hub. fold counts. rewrite existsb_exists. split.
    - intros ([k0 n] & Hin & Hk). cbn [fst] in Hk. apply String.eqb_eq in Hk. subst k0.
      apply (hub_entry_iff counts _ k n Hnd Hdeg) in Hin as [<- Hn]. exact Hn.
    - intros Hk. exists (k, degree counted relationships k).
      split; [| apply String.eqb_refl].
      apply (hub_entry_iff counts _ _ _ Hnd Hdeg). auto. }
  split.
  { rewrite Hperm. apply NoDup_keys_filter, Hnd. }
  split; [exact Hentry |]. split; [exact Hsorted |].
  assert (H4 : (4 * length hubs <= total hubs)%nat).
  { apply total_hubs, Forall_forall. intros e He. rewrite Hperm in He.
    apply list_elem_of_In, filter_In in He as [_ He]. exact He. }
  rewrite (total_perm _ _ Hperm) in H4.
  pose proof (total_filter is_hub_entry counts) as Hle. lia.
Qed.

(** *** The graph-data function *)

Lemma add_key_bump k (l : list (string * nat)) :
  add_key k (map fst l) = map fst (bump k l).
Proof.
  rewrite keys_bump. unfold add_key.
  assert (E : existsb (String.eqb k) (map fst l)
              = existsb (fun e : string * nat => String.eqb (fst e) k) l).
  { induction l as [| [k0 n] rest IH]; [reflexivity |]. cbn [map existsb fst].
    rewrite IH, (String.eqb_sym k k0). reflexivity. }
  rewrite E. reflexivity.
Qed.

Lemma allKeys_hubCount relationships : allKeys relationships = map fst (hubCount relationships).
Proof.
  unfold allKeys, hubCount, countLinks.
  change (@nil string) with (map fst (@nil (string * nat))).
  generalize (@nil (string * nat)).
  induction relationships as [| r rest IH]; intros acc; [reflexivity |].
  cbn [fold_left]. rewrite !add_key_bump. apply IH.
Qed.

Lemma entries_by_key (l : list (string * nat)) :
  NoDup (map fst l) -> map (fun key => (key, count_of l key)) (map fst l) = l.
Proof.
  intros Hnd. rewrite map_map. rewrite <- (map_id l) at 2. apply map_ext_in.
  intros [k n] Hin. cbn [fst]. f_equal. apply count_of_entry; assumption.
Qed.

Lemma filter_all {A : Type} (l : list A) : List.filter (fun _ => true) l = l.
Proof. induction l as [| x l IH]; [reflexivity |]. cbn [List.filter]. rewrite IH. reflexivity. Qed.

Lemma sorted_app_inv {A : Type} (R : A -> A -> Prop) (l1 l2 : list A) :
  StronglySorted R (l1 ++ l2) ->
  StronglySorted R l1 /\ Forall (fun x => Forall (R x) l2) l1.
Proof.
  induction l1 as [| x l1 IH]; cbn [app]; intros Hs; [split; constructor |].
  apply StronglySorted_inv in Hs as [Hs Hx]. destruct (IH Hs) as [H1 H2].
  apply Forall_app in Hx as [Hx1 Hx2].
  split; constructor; assumption.
Qed.

(** X25. The graph-data function of the frontend.  The nodes are the
    markets that the relationships name, each once; the link count of a
    node is the number of ends that relationships of any type have at it,
    at least 1, and the counts add up to twice the number of
    relationships; the hub nodes are at most three nodes, by falling
    count, and no other node has a higher count than one of them. *)
Theorem graph_nodes_counted (relationships : list Link) :
  let nodes := graph_nodes relationships in
  let hubs := top_hubs relationships in
  NoDup (map fst nodes)
  /\ (forall k, In k (map fst nodes)
                <-> exists r, In r relationships /\ (k = link_a r \/ k = link_b r))
  /\ Forall (fun node => snd node = degree (fun _ => true) relationships (fst node)
                         /\ (1 <= snd node)%nat) nodes
  /\ total nodes = (2 * length relationships)%nat
  /\ (length hubs <= 3)%nat
  /\ StronglySorted falling_count hubs
  /\ Forall (fun hub => In hub nodes) hubs
  /\ (forall node, In node nodes -> ~ In node hubs ->
                   Forall (fun hub => (snd node <= snd hub)%nat) hubs).
Proof.
  intros nodes hubs.
  destruct (countLinks_spec (fun _ => true) relationships)
    as (Hnd & Hpos & Hdeg & Htotal & Hkeys).
  fold (hubCount relationships) in Hnd, Hpos, Hdeg, Htotal, Hkeys.
  assert (Hnodes : nodes = hubCount relationships).
  { unfold nodes, graph_nodes. rewrite allKeys_hubCount. apply entries_by_key, Hnd. }
  rewrite Hnodes. clear nodes Hnodes.
  pose proof (sort_entries_perm (hubCount relationships)) as Hperm.
  pose proof (sort_entries_sorted (hubCount relationships)) as Hsorted.
  rewrite <- (take_drop 3 (sort_entries (hubCount relationships))) in Hperm, Hsorted.
  fold (top_hubs relationships) in Hperm, Hsorted. fold hubs in Hperm, Hsorted.
  apply sorted_app_inv in Hsorted as [Hs1 Hs2].
  split; [exact Hnd |]. split.
  { intros k. rewrite Hkeys. split; intros (r & Hr & H); exists r; intuition. }
  split.
  { rewrite Forall_forall in Hpos |- *. intros [k n] Hin. cbn [fst snd]. split.
    - rewrite <- Hdeg. symmetry. apply count_of_entry; [exact Hnd |].
      apply list_elem_of_In, Hin.
    - apply (Hpos _ Hin). }
  split; [rewrite Htotal, filter_all; reflexivity |].
  split; [unfold hubs, top_hubs; rewrite length_take; lia |].
  split; [exact Hs1 |]. split.
  { apply Forall_forall. intros hub Hh. apply list_elem_of_In. rewrite <- Hperm.
    apply elem_of_app. left. exact Hh. }
  intros node Hin Hnot. apply list_elem_of_In in Hin. rewrite <- Hperm in Hin.
  apply elem_of_app in Hin as [Hin | Hin]; [exfalso; apply Hnot, list_elem_of_In, Hin |].
  eapply Forall_impl; [exact Hs2 |]. intros hub Hall.
  rewrite Forall_forall in Hall. apply (Hall node Hin).
Qed.

End HubsFacts.

(** ** The scenario function and the listener *)

Module EdgeFunctionFacts.
Import EdgeFunction.


Lemma shown_other {R : Type} (status : R -> string) (changes : list R) :
  Forall (fun row => status row <> "complete") changes ->
  forall report, shown status changes report = report.
Proof.
  unfold shown. induction 1 as [| row rest Hrow _ IH]; intros report; [reflexivity |].
  cbn [fold_left]. unfold onChange at 2.
  destruct (String.eqb_spec (status row) "complete"); [contradiction | apply IH].
Qed.

(** X27. The listener of the dashboard shows a row only when its status
    is complete.  It therefore never shows a report written by the backend
    engine, whose rows have the status completed; and over the rows of the
    scenario function it shows the report of a response 200 (the row as
    updated, also when the body of the response is [null]), and keeps what
    it showed when the function fails. *)
Theorem listener_shows_complete_only (report : option Scenario.ReportRow)
    (shownRow : option Row) :
  (forall w body,
     shown Scenario.status (snd (Scenario.postScenario w body)) report = report)
  /\ (forall w body,
        let out := serve w body in
        shown status (snd out) shownRow
        = match payload (fst out) with
          | ReportPayload row => Some row
          | NullPayload => last (snd out)
          | ErrorPayload _ => shownRow
          end).
Proof.
  split.
  - intros w body. apply shown_other.
    assert (H : Forall (fun row => Scenario.status row = "completed")
                       (snd (Scenario.postScenario w body))).
    { unfold Scenario.postScenario.
      destruct body as [message | | query]; cbn [snd]; try constructor.
      destruct (JsText.trim query) as [| c q]; cbn [snd]; [constructor |].
      pose proof (ScenarioFacts.predictScenario_rows w (String c q)) as Hrows.
      destruct (Scenario.predictScenario w (String c q)) as [[err | rep] rows]; cbn [snd].
      - subst rows. constructor.
      - destruct Hrows as [[-> _] | [-> _]]; [constructor |].
        constructor; [reflexivity | constructor]. }
    eapply Forall_impl; [exact H |]. intros row ->. discriminate.
  - intros w body. cbn zeta. unfold serve.
    destruct body as [message | | [| c q]]; cbn [fst snd payload]; try reflexivity.
    destruct (insertRow w _) as [err | id]; [reflexivity |].
    destruct (fetchRelationships w) as [err |]; [reflexivity |].
    destruct (fetchMetadata w) as [err |]; [reflexivity |].
    destruct (analyse w _) as [err | parsed]; [reflexivity |].
    destruct (updateRow w id _) as [err |]; [reflexivity |].
    destruct (selectRow w id); reflexivity.
Qed.

End EdgeFunctionFacts.

(** ** The pool of workers *)

Module PoolFacts.
Import Pool.

Section Pool.

Context {T : Type}.

Lemma iter_take_next (tasks : list T) (k : nat) :
  (k <= length tasks)%nat ->
  Nat.iter k take_next (mkState tasks [] []) = mkState (drop k tasks) (take k tasks) (take k tasks).
Proof.
  induction k as [| k IH]; intros Hk.
  - cbn. rewrite drop_0, take_0. reflexivity.
  - cbn [Nat.iter nat_rect]. change (nat_rect _ _ _ k) with (Nat.iter k take_next (mkState tasks [] [])).
    rewrite IH by lia.
    destruct (lookup_lt_is_Some_2 tasks k) as [x Hx]; [lia |].
    unfold take_next. cbn [queue inflight started].
    rewrite (drop_S _ _ _ Hx), (take_S_r _ _ _ Hx). reflexivity.
Qed.

Lemma launch_ok limit (tasks : list T) : pool_ok limit tasks (launch limit tasks).
Proof.
  unfold launch. rewrite iter_take_next by lia. unfold pool_ok. cbn [queue inflight started].
  rewrite take_drop, length_take. split; [reflexivity |]. split; [lia |]. intros _. lia.
Qed.

Lemma settle_ok limit (tasks : list T) st i :
  pool_ok limit tasks st -> pool_ok limit tasks (settle st i).
Proof.
  intros (H1 & H2 & H3). unfold settle.
  destruct (inflight st !! i) as [x |] eqn:Ei; [| repeat split; assumption].
  assert (Hdel : S (length (delete i (inflight st))) = length (inflight st)).
  { rewrite length_delete by eauto. apply lookup_lt_Some in Ei. lia. }
  unfold take_next. cbn [queue inflight started].
  destruct (queue st) as [| task rest] eqn:Eq; unfold pool_ok; cbn [queue inflight started].
  - split; [exact H1 |]. split; [lia |]. intros []. reflexivity.
  - split; [rewrite <- app_assoc; exact H1 |].
    rewrite length_app. cbn [length].
    rewrite H3 in Hdel by discriminate. split; [lia |]. intros _. lia.
Qed.

Lemma run_ok limit (tasks : list T) schedule :
  pool_ok limit tasks (run limit tasks schedule).
Proof.
  unfold run. generalize (launch_ok limit tasks). generalize (launch limit tasks).
  induction schedule as [| i rest IH]; intros st Hst; [exact Hst |].
  cbn [fold_left]. apply IH, settle_ok, Hst.
Qed.

(** X28. The pool of workers, whatever the order in which the tasks
    settle and whether they are fulfilled or rejected.  The tasks are
    started in the order of the list, each once; never more than [limit]
    tasks are in flight; as long as tasks are waiting, the pool is full;
    with a limit above 0, once no task is in flight every task has been
    started.  With the limit 0 no task is ever started. *)
Theorem pool_bounded (limit : nat) (tasks : list T) (schedule : list nat) :
  let st := run limit tasks schedule in
  started st ++ queue st = tasks
  /\ (length (inflight st) <= limit)%nat
  /\ (queue st <> [] -> length (inflight st) = Nat.min limit (length tasks))
  /\ ((0 < limit)%nat -> inflight st = [] -> started st = tasks)
  /\ (limit = 0%nat -> started st = [] /\ inflight st = []).
Proof.
  intros st. destruct (run_ok limit tasks schedule) as (H1 & H2 & H3). fold st in H1, H2, H3.
  split; [exact H1 |]. split; [lia |]. split; [exact H3 |]. split.
  - intros Hl Hin. destruct (queue st) as [| task rest] eqn:Eq.
    + rewrite app_nil_r in H1. exact H1.
    + exfalso. rewrite Hin in H3. cbn [length] in H3.
      assert (Hn : (1 <= length tasks)%nat).
      { rewrite <- H1, length_app. cbn [length]. lia. }
      specialize (H3 ltac:(discriminate)). lia.
  - intros ->. cbn [Nat.min] in H2, H3.
    assert (Hin : inflight st = []) by (destruct (inflight st); [reflexivity | cbn in H2; lia]).
    split; [| exact Hin].
    unfold st, run. unfold launch. cbn [Nat.min Nat.iter nat_rect].
    assert (H : forall sched (s : State T), started s = [] -> inflight s = [] ->
                       started (fold_left settle sched s) = []).
    { induction sched as [| i rest IH]; intros s Hs Hi; [exact Hs |].
      cbn [fold_left]. unfold settle at 2. rewrite Hi. cbn. apply IH; assumption. }
    apply H; reflexivity.
Qed.

End Pool.

End PoolFacts.

(** ** The live probabilities of the agent *)

Module AgentPricesFacts.
Import JsNum Hunter HunterFacts Prices PricesFacts.

Lemma find_filter_with (ids : gset string) id (f : SignalRow -> bool) (l : list SignalRow) :
  id ∈ ids ->
  find (fun row => String.eqb (sr_event_id row) id && f row)
       (filter (fun row => sr_event_id row ∈ ids) l)
  = find (fun row => String.eqb (sr_event_id row) id && f row) l.
Proof.
  intros Hid. induction l as [| r l IH]; [reflexivity |].
  rewrite filter_cons. cbn [find].
  destruct (String.eqb_spec (sr_event_id r) id) as [He | Hne]; cbn [andb].
  - rewrite decide_True by (rewrite He; exact Hid). cbn [find].
    rewrite He, String.eqb_refl. cbn [andb]. rewrite IH. reflexivity.
  - destruct (decide (sr_event_id r ∈ ids)); [| exact IH].
    cbn [find]. destruct (String.eqb_spec (sr_event_id r) id); [contradiction | exact IH].
Qed.

Lemma liveProbMap_row markets (latest : gmap string Q) : forall (acc : gmap string Q) m,
  NoDup (map mr_market_key markets) -> In m markets -> acc !! mr_market_key m = None ->
  fold_left
    (fun probMap market =>
       match live_of latest (polymarket_token_id market) with
       | Some p => <[mr_market_key market := p]> probMap
       | None =>
           match live_of latest (kalshi_ticker market) with
           | Some p => <[mr_market_key market := p]> probMap
           | None => probMap
           end
       end) markets acc !! mr_market_key m
  = match live_of latest (polymarket_token_id m) with
    | Some p => Some p
    | None => live_of latest (kalshi_ticker m)
    end.
Proof.
  induction markets as [| r rest IH]; intros acc m Hnd Hin Hacc; [destruct Hin |].
  cbn [map] in Hnd. apply NoDup_cons in Hnd as [Hr Hnd]. cbn [fold_left].
  destruct Hin as [-> | Hin].
  - clear IH Hnd.
    set (acc' := match live_of latest (polymarket_token_id m) with
                 | Some p => <[mr_market_key m := p]> acc
                 | None => match live_of latest (kalshi_ticker m) with
                           | Some p => <[mr_market_key m := p]> acc
                           | None => acc
                           end
                 end).
    assert (Hacc' : acc' !! mr_market_key m
                    = match live_of latest (polymarket_token_id m) with
                      | Some p => Some p
                      | None => live_of latest (kalshi_ticker m)
                      end).
    { unfold acc'. destruct (live_of latest (polymarket_token_id m));
        [apply lookup_insert_eq |].
      destruct (live_of latest (kalshi_ticker m)); [apply lookup_insert_eq | exact Hacc]. }
    rewrite <- Hacc'. generalize acc'. clear acc' Hacc' Hacc acc.
    induction rest as [| r rest IH]; intros acc; [reflexivity |].
    cbn [map] in Hr. apply not_elem_of_cons in Hr as [Hne Hr]. cbn [fold_left].
    rewrite IH by exact Hr.
    destruct (live_of latest (polymarket_token_id r));
      [apply lookup_insert_ne; congruence |].
    destruct (live_of latest (kalshi_ticker r));
      [apply lookup_insert_ne; congruence | reflexivity].
  - apply IH; [exact Hnd | exact Hin |].
    assert (Hne : mr_market_key r <> mr_market_key m).
    { intros Heq. apply Hr. rewrite Heq. apply list_elem_of_In, in_map, Hin. }
    destruct (live_of latest (polymarket_token_id r));
      [rewrite lookup_insert_ne by exact Hne; exact Hacc |].
    destruct (live_of latest (kalshi_ticker r));
      [rewrite lookup_insert_ne by exact Hne; exact Hacc | exact Hacc].
Qed.

Lemma asked_token_in markets m t :
  In m markets -> polymarket_token_id m = Some t -> nonempty t = true ->
  t ∈ allIds markets.
Proof.
  intros Hin Ht Hne. unfold allIds. apply elem_of_union_l, elem_of_union_list.
  exists (asked_token m). split; [apply list_elem_of_In, in_map, Hin |].
  unfold asked_token. rewrite Ht, Hne. set_solver.
Qed.

Lemma asked_ticker_in markets m t :
  In m markets -> kalshi_ticker m = Some t -> nonempty t = true ->
  String.prefix "DEMO-" t = false ->
  t ∈ allIds markets.
Proof.
  intros Hin Ht Hne Hd. unfold allIds. apply elem_of_union_r, elem_of_union_list.
  exists (asked_ticker m). split; [apply list_elem_of_In, in_map, Hin |].
  unfold asked_ticker. rewrite Ht, Hne, Hd. set_solver.
Qed.

(** *** The windows of the three queries *)

Lemma find_take_some {A : Type} (f : A -> bool) (l : list A) : forall n x,
  find f (take n l) = Some x -> find f l = Some x.
Proof.
  induction l as [| r l IH]; intros [| n] x; cbn [take find]; try discriminate.
  destruct (f r); [auto | apply IH].
Qed.

Lemma find_take_none {A : Type} (f : A -> bool) (l : list A) (n : nat) :
  find f l = None -> find f (take n l) = None.
Proof.
  intros H. destruct (find f (take n l)) as [x |] eqn:E; [| reflexivity].
  apply find_take_some in E. congruence.
Qed.

Lemma find_take_mono {A : Type} (f : A -> bool) (l : list A) : forall n m x,
  (n <= m)%nat -> find f (take n l) = Some x -> find f (take m l) = Some x.
Proof.
  induction l as [| r l IH]; intros [| n] [| m] x Hle; cbn [take find];
    try discriminate; try lia.
  destruct (f r); [auto | apply IH; lia].
Qed.

(** A row found among the [n] newest rows is found among the [m] newest
    rows of a selection that keeps every row sought, for [n <= m]. *)
Lemma find_take_filter (f : SignalRow -> bool) (ids : gset string) (l : list SignalRow) :
  (forall r, f r = true -> sr_event_id r ∈ ids) ->
  forall n m x,
    (n <= m)%nat -> find f (take n l) = Some x ->
    find f (take m (filter (fun row => sr_event_id row ∈ ids) l)) = Some x.
Proof.
  intros Hf. induction l as [| r l IH]; intros [| n] m x Hle; cbn [take find];
    try discriminate.
  rewrite filter_cons. destruct (f r) eqn:Er.
  - intros [= <-]. rewrite decide_True by (apply Hf; exact Er).
    destruct m as [| m]; [lia |]. cbn [take find]. rewrite Er. reflexivity.
  - intros H. destruct (decide (sr_event_id r ∈ ids)).
    + destruct m as [| m]; [lia |]. cbn [take find]. rewrite Er.
      apply (IH n m x); [lia | exact H].
    + apply (IH n m x); [lia | exact H].
Qed.

Lemma find_filter_none (f : SignalRow -> bool) (ids : gset string) (l : list SignalRow)
    (m : nat) :
  find f l = None ->
  find f (take m (filter (fun row => sr_event_id row ∈ ids) l)) = None.
Proof.
  intros H. destruct (find f (take m _)) as [x |] eqn:E; [| reflexivity].
  apply find_some in E as [Hin Hx].
  apply list_elem_of_In, elem_of_take in Hin as (i & Hi & _).
  apply list_elem_of_lookup_2, list_elem_of_filter in Hi as [_ Hi].
  eapply find_none in H; [| apply list_elem_of_In; exact Hi]. congruence.
Qed.

(** When the 500 newest rows of the table already give the latest
    probability of an event id, so do the 1000 newest rows, and so do the
    1000 newest rows of a set of ids that holds it. *)
Lemma latest_in_windows (table : list SignalRow) (ids : gset string) (id : string) :
  latestByEventId (api_signals table) !! id = latestByEventId table !! id ->
  latestByEventId (engine_signals table) !! id = latestByEventId table !! id
  /\ (id ∈ ids -> latestByEventId (selectSignals table ids) !! id
                  = latestByEventId table !! id).
Proof.
  unfold api_signals, engine_signals, selectSignals, SIGNAL_LIMIT.
  rewrite !latestByEventId_first.
  set (f := fun row => String.eqb (sr_event_id row) id
                       && bool_decide (is_Some (sr_probability_pct row))).
  destruct (find f (take 500 table)) as [row |] eqn:E500.
  - intros _. rewrite (find_take_some f table 500 row E500).
    rewrite (find_take_mono f table 500 1000 row) by (lia || exact E500).
    split; [reflexivity |]. intros Hid.
    rewrite (find_take_filter f ids table) with (n := 500%nat) (x := row);
      [reflexivity | | lia | exact E500].
    intros r Hr. unfold f in Hr. apply andb_true_iff in Hr as [Hr _].
    apply String.eqb_eq in Hr. rewrite Hr. exact Hid.
  - intros H.
    assert (Hnone : find f table = None).
    { destruct (find f table) as [row |] eqn:E; [| reflexivity].
      apply find_some in E as [_ Hp]. unfold f in Hp.
      apply andb_true_iff in Hp as [_ Hp].
      apply bool_decide_eq_true in Hp as [q Hq]. congruence. }
    rewrite Hnone, (find_take_none f table 1000 Hnone).
    split; [reflexivity |]. intros _.
    rewrite (find_filter_none f ids table 1000 Hnone). reflexivity.
Qed.

Lemma probabilityOf_ext (latest1 latest2 : gmap string Q) (m : MetaRow) :
  (forall id, polymarket_token_id m = Some id \/ kalshi_ticker m = Some id ->
              latest1 !! id = latest2 !! id) ->
  probabilityOf latest1 m = probabilityOf latest2 m.
Proof.
  intros H. unfold probabilityOf, live_of.
  destruct (polymarket_token_id m) as [t |] eqn:Et, (kalshi_ticker m) as [k |] eqn:Ek;
    try (rewrite (H t) by auto); try (rewrite (H k) by auto); reflexivity.
Qed.

(** X29. The agent against the scenario engine and the graph API, over
    the same table of signals and a catalog with distinct market keys.  The
    agent reads the 1000 newest rows of the event ids of the catalog, the
    engine the 1000 newest rows of the table and the API its 500 newest
    rows.  When these 500 rows already give the latest probability of the
    token and of the ticker of a market, and no ticker of the market that
    starts with DEMO- has a row with a probability, the probability the
    agent uses for the market is the one that the engine and the API give
    it: live from the order-book venue, else live from the ticker venue,
    else the demo table. *)
Theorem agent_price_is_engine_price (markets : list MetaRow) (table : list SignalRow)
    (m : MetaRow) :
  NoDup (map mr_market_key markets) ->
  In m markets ->
  (forall id, polymarket_token_id m = Some id \/ kalshi_ticker m = Some id ->
              latestByEventId (api_signals table) !! id = latestByEventId table !! id) ->
  (forall ticker, kalshi_ticker m = Some ticker -> String.prefix "DEMO-" ticker = true ->
                  latestByEventId table !! ticker = None) ->
  agent_probability markets table (mr_market_key m)
  = node_probability_pct (api_signals table) m
  /\ agent_probability markets table (mr_market_key m)
     = current_probability_pct markets (engine_signals table) (mr_market_key m)
  /\ agent_probability markets table (mr_market_key m)
     = probabilityOf (latestByEventId table) m.
Proof.
  intros Hnd Hin Hwin Hquiet.
  assert (Hapi : node_probability_pct (api_signals table) m
                 = probabilityOf (latestByEventId table) m).
  { unfold node_probability_pct. apply probabilityOf_ext. exact Hwin. }
  assert (Hengine : current_probability_pct markets (engine_signals table) (mr_market_key m)
                    = probabilityOf (latestByEventId table) m).
  { unfold current_probability_pct, priceMap.
    rewrite (priceMap_row markets _ ∅ m Hnd Hin).
    apply probabilityOf_ext. intros id Hid.
    apply (latest_in_windows table ∅ id (Hwin id Hid)). }
  rewrite Hapi, Hengine.
  assert (Hgoal : agent_probability markets table (mr_market_key m)
                  = probabilityOf (latestByEventId table) m);
    [| split; [exact Hgoal | split; exact Hgoal]].
  unfold agent_probability, probabilityOf, fetchLiveProbabilities.
  assert (Htok : forall latest,
            (forall id, polymarket_token_id m = Some id \/ kalshi_ticker m = Some id ->
                        id ∈ allIds markets ->
                        latest !! id = latestByEventId table !! id) ->
            live_of latest (polymarket_token_id m)
            = live_of (latestByEventId table) (polymarket_token_id m)).
  { intros latest Hl. unfold live_of. destruct (polymarket_token_id m) as [t |] eqn:Et;
      [| reflexivity].
    destruct (nonempty t) eqn:En; [| reflexivity].
    apply Hl; [auto |]. eapply asked_token_in; eassumption. }
  destruct (decide (allIds markets = ∅)) as [He | Hne].
  - rewrite lookup_empty.
    assert (Hnone : forall id (x : option string), x = Some id -> nonempty id = true ->
              (x = polymarket_token_id m \/ x = kalshi_ticker m) ->
              latestByEventId table !! id = None).
    { intros id x -> Hid [Hx | Hx].
      - exfalso. pose proof (asked_token_in markets m id Hin (eq_sym Hx) Hid) as H.
        rewrite He in H. set_solver.
      - destruct (String.prefix "DEMO-" id) eqn:Ed.
        + apply Hquiet; [symmetry; exact Hx | exact Ed].
        + exfalso. pose proof (asked_ticker_in markets m id Hin (eq_sym Hx) Hid Ed) as H.
          rewrite He in H. set_solver. }
    unfold live_of.
    destruct (polymarket_token_id m) as [t |] eqn:Et.
    + destruct (nonempty t) eqn:En.
      * rewrite (Hnone t (Some t) eq_refl En (or_introl eq_refl)).
        destruct (kalshi_ticker m) as [k |] eqn:Ek; [| reflexivity].
        destruct (nonempty k) eqn:Enk; [| reflexivity].
        rewrite (Hnone k (Some k) eq_refl Enk (or_intror eq_refl)). reflexivity.
      * destruct (kalshi_ticker m) as [k |] eqn:Ek; [| reflexivity].
        destruct (nonempty k) eqn:Enk; [| reflexivity].
        rewrite (Hnone k (Some k) eq_refl Enk (or_intror eq_refl)). reflexivity.
    + destruct (kalshi_ticker m) as [k |] eqn:Ek; [| reflexivity].
      destruct (nonempty k) eqn:Enk; [| reflexivity].
      rewrite (Hnone k (Some k) eq_refl Enk (or_intror eq_refl)). reflexivity.
  - cbn zeta. rewrite (liveProbMap_row markets _ ∅ m Hnd Hin (lookup_empty _)).
    set (latest := latestByEventId (selectSignals table (allIds markets))).
    assert (Hl : forall id, polymarket_token_id m = Some id \/ kalshi_ticker m = Some id ->
                            id ∈ allIds markets ->
                            latest !! id = latestByEventId table !! id).
    { intros id Hm Hid. apply (latest_in_windows table (allIds markets) id (Hwin id Hm)).
      exact Hid. }
    rewrite (Htok latest Hl).
    destruct (live_of (latestByEventId table) (polymarket_token_id m)) as [p |];
      [reflexivity |].
    assert (Htick : live_of latest (kalshi_ticker m)
                    = live_of (latestByEventId table) (kalshi_ticker m)).
    { unfold live_of. destruct (kalshi_ticker m) as [k |] eqn:Ek; [| reflexivity].
      destruct (nonempty k) eqn:Enk; [| reflexivity].
      destruct (String.prefix "DEMO-" k) eqn:Ed.
      - rewrite (Hquiet k eq_refl Ed). unfold latest.
        pose proof (Hquiet k eq_refl Ed) as H.
        rewrite latestByEventId_first in H. rewrite latestByEventId_first.
        unfold selectSignals.
        set (f := fun row => String.eqb (sr_event_id row) k
                             && bool_decide (is_Some (sr_probability_pct row))) in *.
        assert (Hnone : find f table = None).
        { destruct (find f table) as [row |] eqn:E; [| reflexivity].
          apply find_some in E as [_ Hp]. unfold f in Hp.
          apply andb_true_iff in Hp as [_ Hp].
          apply bool_decide_eq_true in Hp as [q Hq]. congruence. }
        rewrite (find_filter_none f (allIds markets) table _ Hnone). reflexivity.
      - apply Hl; [auto |]. eapply asked_ticker_in; eauto. }
    rewrite Htick. destruct (live_of (latestByEventId table) (kalshi_ticker m)); reflexivity.
Qed.

End AgentPricesFacts.

Module AgentPricesWitnesses.
Import JsNum Hunter Prices AgentPricesFacts.

Lemma agent_price_is_engine_price_witness :
  agent_probability sample_metadata sample_signals (mr_market_key sample_market)
  = node_probability_pct (api_signals sample_signals) sample_market
  /\ agent_probability sample_metadata sample_signals (mr_market_key sample_market)
     = current_probability_pct sample_metadata (engine_signals sample_signals)
         (mr_market_key sample_market)
  /\ agent_probability sample_metadata sample_signals (mr_market_key sample_market)
     = probabilityOf (latestByEventId sample_signals) sample_market.
Proof.
  apply (agent_price_is_engine_price sample_metadata sample_signals sample_market).
  - cbn. apply NoDup_cons_2; [set_solver |]. apply NoDup_singleton.
  - left. reflexivity.
  - intros id _. reflexivity.
  - intros ticker H. injection H as <-. discriminate.
Defined.

End AgentPricesWitnesses.
